(** * ovotools/pytorch_tools.py: the composite loss [MarginBaseLoss]

    A shallow embedding of the class [MarginBaseLoss] (L2-constrained softmax
    plus margin-based loss with distance-weighted sampling) and of the
    [DummyTimer] it falls back to.

    Conventions of the embedding.
    - Tensor entries are real numbers: arithmetic is exact, and rounding,
      overflow and the propagation of non-finite inputs are not part of the
      model.  The non-finite values that exact arithmetic itself can produce
      (a division by zero) are kept, as [NaN].
    - A method of the object is a computation over a [World]: the object
      [self], numpy's global random generator and the standard output.  A
      Python exception ends the computation and keeps the world as it was
      when the exception was raised.
    - The operations of torch and numpy that the module calls are written
      out from their documented behaviour, next to the code that uses
      them. *)

From Stdlib Require Import Reals Lra Lia ZArith String.
From stdpp Require Import base list gmap strings pretty sorting.

Open Scope R_scope.

(** ** Python values *)

Inductive exn :=
| AssertionError
| IndexError
| ValueError
| TypeError
| ZeroDivisionError
| AttributeError.

Inductive result (A : Type) :=
| Ok (a : A)
| Raise (e : exn).
Arguments Ok {A} a.
Arguments Raise {A} e.

(** Comparisons of reals are decided as the interpreter decides them on
    floats. *)
#[global] Instance Rlt_decision (x y : R) : Decision (x < y) := Rlt_dec x y.
#[global] Instance Rle_decision (x y : R) : Decision (x <= y) := Rle_dec x y.
#[global] Instance Rgt_decision (x y : R) : Decision (x > y) := Rgt_dec x y.
#[global] Instance Req_decision : EqDecision R := Req_dec_T.

(** A floating-point value that may be non-finite: [NaN] stands for the
    [nan] or [inf] that a division by zero leaves in an array. *)
Inductive fvalue :=
| Fin (r : R)
| NaN.

Definition fadd (x y : fvalue) : fvalue :=
  match x, y with
  | Fin a, Fin b => Fin (a + b)
  | _, _ => NaN
  end.

(** A tensor: its shape and its entries in row-major order. *)
Record tensor := { shape : list nat; storage : list R }.

Definition well_formed (t : tensor) : Prop :=
  length (storage t) = foldr Nat.mul 1%nat (shape t).

Inductive Device := cpu | cuda (index : nat).

(** The model object: the two learnable margins and the rest of the
    network, as its named parameter tensors. *)
Record Model := {
  mb_loss_alpha : R;
  mb_loss_beta : R;
  state_dict : gmap string tensor }.

Record DataParams := { samples_per_class : nat }.
Record SamplingParams := { lambda_ : R }.
Record Params := {
  data : DataParams;
  distance_weighted_sampling : SamplingParams }.

(** Timers only measure wall-clock time; [DummyTimer] stands in for an
    IgniteTimer that was not provided. *)
Inductive Timer := DummyTimer | IgniteTimer.

(** ** The object *)

(** The attributes of a [MarginBaseLoss] instance.  Those assigned outside
    [__init__] do not exist before their first assignment ([None]). *)
Record MarginBaseLoss := {
  model : Model;
  device : Device;
  params : Params;
  classes : list Z;
  classes_dict : gmap Z nat;
  lambda_rev : R;
  timer : Timer;
  l2_loss_val : option fvalue;
  d_ij : option (list (list R));
  mb_loss_val : option R;
  true_pos : option R;
  true_neg : option R;
  false_pos : option R;
  false_neg : option R;
  loss_val : option fvalue }.

Definition ignore_index : Z := (-100)%Z.

Definition set_timer_attr (v : Timer) (o : MarginBaseLoss) : MarginBaseLoss :=
  {| model := model o; device := device o; params := params o;
     classes := classes o; classes_dict := classes_dict o;
     lambda_rev := lambda_rev o; timer := v;
     l2_loss_val := l2_loss_val o; d_ij := d_ij o;
     mb_loss_val := mb_loss_val o; true_pos := true_pos o;
     true_neg := true_neg o; false_pos := false_pos o;
     false_neg := false_neg o; loss_val := loss_val o |}.

Definition set_l2_loss_val (v : fvalue) (o : MarginBaseLoss) : MarginBaseLoss :=
  {| model := model o; device := device o; params := params o;
     classes := classes o; classes_dict := classes_dict o;
     lambda_rev := lambda_rev o; timer := timer o;
     l2_loss_val := Some v; d_ij := d_ij o;
     mb_loss_val := mb_loss_val o; true_pos := true_pos o;
     true_neg := true_neg o; false_pos := false_pos o;
     false_neg := false_neg o; loss_val := loss_val o |}.

Definition set_d_ij (v : list (list R)) (o : MarginBaseLoss) : MarginBaseLoss :=
  {| model := model o; device := device o; params := params o;
     classes := classes o; classes_dict := classes_dict o;
     lambda_rev := lambda_rev o; timer := timer o;
     l2_loss_val := l2_loss_val o; d_ij := Some v;
     mb_loss_val := mb_loss_val o; true_pos := true_pos o;
     true_neg := true_neg o; false_pos := false_pos o;
     false_neg := false_neg o; loss_val := loss_val o |}.

Definition set_mb_loss_val (v : R) (o : MarginBaseLoss) : MarginBaseLoss :=
  {| model := model o; device := device o; params := params o;
     classes := classes o; classes_dict := classes_dict o;
     lambda_rev := lambda_rev o; timer := timer o;
     l2_loss_val := l2_loss_val o; d_ij := d_ij o;
     mb_loss_val := Some v; true_pos := true_pos o;
     true_neg := true_neg o; false_pos := false_pos o;
     false_neg := false_neg o; loss_val := loss_val o |}.

Definition set_true_pos (v : R) (o : MarginBaseLoss) : MarginBaseLoss :=
  {| model := model o; device := device o; params := params o;
     classes := classes o; classes_dict := classes_dict o;
     lambda_rev := lambda_rev o; timer := timer o;
     l2_loss_val := l2_loss_val o; d_ij := d_ij o;
     mb_loss_val := mb_loss_val o; true_pos := Some v;
     true_neg := true_neg o; false_pos := false_pos o;
     false_neg := false_neg o; loss_val := loss_val o |}.

Definition set_true_neg (v : R) (o : MarginBaseLoss) : MarginBaseLoss :=
  {| model := model o; device := device o; params := params o;
     classes := classes o; classes_dict := classes_dict o;
     lambda_rev := lambda_rev o; timer := timer o;
     l2_loss_val := l2_loss_val o; d_ij := d_ij o;
     mb_loss_val := mb_loss_val o; true_pos := true_pos o;
     true_neg := Some v; false_pos := false_pos o;
     false_neg := false_neg o; loss_val := loss_val o |}.

Definition set_false_pos (v : R) (o : MarginBaseLoss) : MarginBaseLoss :=
  {| model := model o; device := device o; params := params o;
     classes := classes o; classes_dict := classes_dict o;
     lambda_rev := lambda_rev o; timer := timer o;
     l2_loss_val := l2_loss_val o; d_ij := d_ij o;
     mb_loss_val := mb_loss_val o; true_pos := true_pos o;
     true_neg := true_neg o; false_pos := Some v;
     false_neg := false_neg o; loss_val := loss_val o |}.

Definition set_false_neg (v : R) (o : MarginBaseLoss) : MarginBaseLoss :=
  {| model := model o; device := device o; params := params o;
     classes := classes o; classes_dict := classes_dict o;
     lambda_rev := lambda_rev o; timer := timer o;
     l2_loss_val := l2_loss_val o; d_ij := d_ij o;
     mb_loss_val := mb_loss_val o; true_pos := true_pos o;
     true_neg := true_neg o; false_pos := false_pos o;
     false_neg := Some v; loss_val := loss_val o |}.

Definition set_loss_val (v : fvalue) (o : MarginBaseLoss) : MarginBaseLoss :=
  {| model := model o; device := device o; params := params o;
     classes := classes o; classes_dict := classes_dict o;
     lambda_rev := lambda_rev o; timer := timer o;
     l2_loss_val := l2_loss_val o; d_ij := d_ij o;
     mb_loss_val := mb_loss_val o; true_pos := true_pos o;
     true_neg := true_neg o; false_pos := false_pos o;
     false_neg := false_neg o; loss_val := Some v |}.

(** ** The world and the monad of methods *)

(** [np_random] is the sequence of uniform draws of numpy's global
    generator and [np_random_pos] the number of draws already consumed. *)
Record World := {
  self : MarginBaseLoss;
  np_random : nat -> R;
  np_random_pos : nat;
  stdout : list string }.

Definition M (A : Type) : Type := World -> result A * World.

Definition ret {A} (a : A) : M A := fun w => (Ok a, w).

Definition raise {A} (e : exn) : M A := fun w => (Raise e, w).

Definition bind {A B} (c : M A) (k : A -> M B) : M B :=
  fun w =>
    match c w with
    | (Ok a, w') => k a w'
    | (Raise e, w') => (Raise e, w')
    end.

Notation "x <- c ;; k" := (bind c (fun x => k))
  (at level 100, c at next level, right associativity).
Notation "c ;;; k" := (bind c (fun _ => k))
  (at level 100, right associativity).

(** [assert b] *)
Definition assert (b : bool) : M unit :=
  if b then ret tt else raise AssertionError.

(** Reading an attribute of [self] that was assigned in [__init__]. *)
Definition attr {A} (f : MarginBaseLoss -> A) : M A :=
  fun w => (Ok (f (self w)), w).

(** Reading an attribute that may not have been assigned yet. *)
Definition getattr {A} (f : MarginBaseLoss -> option A) : M A :=
  fun w =>
    match f (self w) with
    | Some a => (Ok a, w)
    | None => (Raise AttributeError, w)
    end.

(** Assigning an attribute of [self]. *)
Definition with_self (o : MarginBaseLoss) (w : World) : World :=
  {| self := o; np_random := np_random w;
     np_random_pos := np_random_pos w; stdout := stdout w |}.

Definition setattr (upd : MarginBaseLoss -> MarginBaseLoss) : M unit :=
  fun w => (Ok tt, with_self (upd (self w)) w).

(** [np.random.rand()]: the next uniform draw. *)
Definition advance (w : World) : World :=
  {| self := self w; np_random := np_random w;
     np_random_pos := S (np_random_pos w); stdout := stdout w |}.

Definition rand : M R :=
  fun w => (Ok (np_random w (np_random_pos w)), advance w).

(** An indexed read of a Python sequence. *)
Definition getitem {A} (l : list A) (i : nat) : M A :=
  match l !! i with
  | Some a => ret a
  | None => raise IndexError
  end.

(** A left-to-right loop that carries the local variables in [acc]. *)
Fixpoint for_each {A B} (l : list A) (acc : B) (body : A -> B -> M B) : M B :=
  match l with
  | [] => ret acc
  | x :: l' => acc' <- body x acc ;; for_each l' acc' body
  end.

(** ** DummyTimer *)

(** [with self.timer.watch(name): body].  The watch object of [DummyTimer]
    does nothing on entry and, returning [False] from [__exit__], lets
    exceptions through. *)
Definition watch {A} (t : Timer) (name : string) (body : M A) : M A := body.

(** ** Operations of Python, numpy and torch used by the module *)

(** [np.sum] and [Tensor.sum] of a one-dimensional array. *)
Definition np_sum (l : list R) : R := foldr Rplus 0 l.

(** Python's builtin [sum]: a left fold that starts from the integer 0. *)
Definition py_sum (l : list R) : R := foldl Rplus 0 l.

(** [range(start, stop)] *)
Definition range (start stop : nat) : list nat := seq start (stop - start).

(** [range(0, stop, step)]; a zero step is a [ValueError]. *)
Definition range_step (stop step : nat) : M (list nat) :=
  if (step =? 0)%nat then raise ValueError
  else ret (map (fun b => (b * step)%nat) (seq 0 ((stop + step - 1) / step))).

(** [l[start:stop]]: a slice is clipped to the sequence, it never fails. *)
Definition slice {A} (l : list A) (start stop : nat) : list A :=
  take (stop - start) (drop start l).

(** [np.delete(l, np.s_[start:stop], axis=0)] *)
Definition np_delete {A} (l : list A) (start stop : nat) : list A :=
  take start l ++ drop (Nat.max start stop) l.

(** [l[i] = v] on an array: an index out of range is an [IndexError]. *)
Definition setitem {A} (l : list A) (i : nat) (v : A) : M (list A) :=
  if (i <? length l)%nat then ret (<[i := v]> l) else raise IndexError.

(** [w / s] on an array: dividing by zero leaves [nan] or [inf] entries. *)
Definition np_divide (w : list R) (s : R) : list fvalue :=
  map (fun x => if decide (s = 0) then NaN else Fin (x / s)) w.

(** The entries of an array when all of them are finite. *)
Fixpoint finite_entries (p : list fvalue) : option (list R) :=
  match p with
  | [] => Some []
  | Fin r :: p' => option_map (cons r) (finite_entries p')
  | NaN :: _ => None
  end.

(** [np.cumsum] *)
Fixpoint cumsum_from (acc : R) (p : list R) : list R :=
  match p with
  | [] => []
  | x :: p' => (acc + x) :: cumsum_from (acc + x) p'
  end.

Definition cumsum (p : list R) : list R := cumsum_from 0 p.

(** [cdf.searchsorted(x, side='right')] on a sorted array: the first
    position whose entry exceeds [x]. *)
Fixpoint searchsorted_right (cdf : list R) (x : R) : nat :=
  match cdf with
  | [] => 0%nat
  | c :: cdf' => if decide (x < c) then 0%nat else S (searchsorted_right cdf' x)
  end.

(** The tolerance of [np.random.choice] on the sum of [p], for an array of
    32-bit floats: the square root of the machine epsilon. *)
Definition atol : R := sqrt (/ 2 ^ 23).

(** [np.random.choice(a, p=p, replace=False)] for one sample: the checks
    on [a] and [p], one uniform draw, and the inverse of the normalised
    cumulative sums.  Every rejection is a [ValueError]. *)
Definition np_random_choice (a : list nat) (p : list fvalue) : M nat :=
  if (length a =? 0)%nat then raise ValueError
  else if negb (length p =? length a)%nat then raise ValueError
  else match finite_entries p with
  | None => raise ValueError
  | Some p =>
    if existsb (fun x => bool_decide (x < 0)) p then raise ValueError
    else if bool_decide (Rabs (np_sum p - 1) > atol) then raise ValueError
    else if (length (filter (fun x : R => (0 < x)%R) p) <? 1)%nat then raise ValueError
    else
      x <- rand ;;
      let cdf := cumsum p in
      let cdf := map (fun c => c / List.last cdf 0) cdf in
      getitem a (searchsorted_right cdf x)
  end.

(** [len(t)] of a tensor: its first dimension. *)
Definition len (t : tensor) : M nat :=
  match shape t with
  | [] => raise TypeError
  | n :: _ => ret n
  end.

(** [t[0]]: the first slice along the first dimension. *)
Definition tensor_first (t : tensor) : M tensor :=
  match shape t with
  | [] => raise IndexError
  | n :: rest =>
    if (n =? 0)%nat then raise IndexError
    else ret {| shape := rest;
                storage := take (foldr Nat.mul 1%nat rest) (storage t) |}
  end.

(** The rows of a two-dimensional tensor of shape [(n, dim)]. *)
Definition tensor_rows (n dim : nat) (t : tensor) : list (list R) :=
  map (fun i => take dim (drop (i * dim) (storage t))) (seq 0 n).

(** [torch.transpose(A, 0, 1)] of a matrix with [ncols] columns. *)
Definition transpose (ncols : nat) (A : list (list R)) : list (list R) :=
  map (fun k => map (fun r => nth k r 0) A) (seq 0 ncols).

(** [torch.mm(A, B)] where [B] has [p] columns. *)
Definition mm (p : nat) (A B : list (list R)) : list (list R) :=
  map (fun a =>
         map (fun j => np_sum (zip_with Rmult a (map (fun b => nth j b 0) B)))
             (seq 0 p))
      A.

(** [torch.nn.CrossEntropyLoss(ignore_index)(input, target)] with the mean
    reduction, for an input of shape [(N, C)] and [N] targets: the mean
    over the targets other than [ignore_index] of the negated log-softmax
    at the target; [nan] when every target is ignored. *)
Definition log_softmax (row : list R) (t : nat) : R :=
  nth t row 0 - ln (np_sum (map exp row)).

Definition ce_term (ignore : Z) (C : nat) (row : list R) (t : Z)
  : result (option R) :=
  if bool_decide (t = ignore) then Ok None
  else if bool_decide (0 <= t < Z.of_nat C)%Z
       then Ok (Some (- log_softmax row (Z.to_nat t)))
       else Raise IndexError.

Fixpoint ce_terms (ignore : Z) (C : nat) (rows : list (list R)) (target : list Z)
  : result (list R) :=
  match rows, target with
  | row :: rows', t :: target' =>
    match ce_term ignore C row t with
    | Raise e => Raise e
    | Ok o =>
      match ce_terms ignore C rows' target' with
      | Raise e => Raise e
      | Ok l => Ok (match o with Some x => x :: l | None => l end)
      end
    end
  | _, _ => Ok []
  end.

Definition mean (l : list R) : fvalue :=
  match l with
  | [] => NaN
  | _ => Fin (np_sum l / INR (length l))
  end.

Definition CrossEntropyLoss (ignore : Z) (input : tensor) (target : list Z)
  : M fvalue :=
  match shape input with
  | [N; C] =>
    if negb (N =? length target)%nat then raise ValueError
    else match ce_terms ignore C (tensor_rows N C input) target with
         | Raise e => raise e
         | Ok l => ret (mean l)
         end
  | _ => raise ValueError
  end.

(** [enumerate(l)] *)
Definition enumerate {A} (l : list A) : list (nat * A) :=
  zip (seq 0 (length l)) l.

(** [print(...)]: one line on the standard output. *)
Definition print (line : string) (out : list string) : list string :=
  out ++ [line].

(** ** MarginBaseLoss *)

(** [MarginBaseLoss(model, classes, device, params)], run against the
    standard output [out]. *)
Definition __init__ (model0 : Model) (classes0 : list Z) (device0 : Device)
    (params0 : Params) (out : list string)
  : result MarginBaseLoss * list string :=
  if negb (2 <=? samples_per_class (data params0))%nat
  then (Raise AssertionError, out)
  else
    let classes1 := merge_sort Z.le classes0 in
    let classes_dict1 : gmap Z nat :=
      foldl (fun m iv => <[iv.2 := iv.1]> m) ∅ (enumerate classes1) in
    if decide (lambda_ (distance_weighted_sampling params0) = 0)
    then (Raise ZeroDivisionError, out)
    else
      (Ok {| model := model0; device := device0; params := params0;
             classes := classes1; classes_dict := classes_dict1;
             lambda_rev := 1 / lambda_ (distance_weighted_sampling params0);
             timer := DummyTimer;
             l2_loss_val := None; d_ij := None; mb_loss_val := None;
             true_pos := None; true_neg := None; false_pos := None;
             false_neg := None; loss_val := None |},
       print ("classes:  " +:+ pretty (length classes1)) out).

Definition set_timer (t : Timer) : M unit := setattr (set_timer_attr t).

(** [classes_to_ids]: [y_class] holds integer labels, so [int(c.item())]
    is the label itself; [.to(self.device)] moves the result and leaves
    its entries alone. *)
Definition classes_to_ids (y_class : list Z) (ignore : Z) : M (list Z) :=
  dict <- attr classes_dict ;;
  ret (map (fun c => match dict !! c with
                     | Some i => Z.of_nat i
                     | None => ignore
                     end) y_class).

Definition l2_loss (net_output : list tensor) (y_class : list Z) : M fvalue :=
  t <- attr timer ;;
  watch t "time.l2_loss" (
    pred_class <- getitem net_output 0 ;;
    class_nos <- classes_to_ids y_class ignore_index ;;
    v <- CrossEntropyLoss ignore_index pred_class class_nos ;;
    setattr (set_l2_loss_val v) ;;;
    getattr l2_loss_val).

Definition last_l2_loss (net_output : list tensor) (y_class : list Z)
  : M fvalue := getattr l2_loss_val.

(** [self.params.data.samples_per_class] *)
Definition spc_of (o : MarginBaseLoss) : nat := samples_per_class (data (params o)).

(** Lines 66-67: the squared distances
    [norm.view(-1, 1) + norm.view(1, -1) - 2.0 * mm(E, E^T)]
    of the [n] rows [E], each of [dim] entries. *)
Definition squared_distances (n dim : nat) (E : list (list R)) : list (list R) :=
  let norm := map (fun e => np_sum (map (fun x => x ^ 2) e)) E in
  let outer := map (fun a => map (fun b => a + b) norm) norm in
  zip_with (zip_with (fun s m => s - 2 * m)) outer (mm n E (transpose dim E)).

(** Line 68: [torch.sqrt(torch.clamp(d, min=0.0) + 1.0e-8)] *)
Definition clamped_sqrt (D : list (list R)) : list (list R) :=
  map (map (fun x => sqrt (Rmax x 0 + 1e-8))) D.

(** [self.d_ij[i, j]] *)
Definition index2 (D : list (list R)) (i j : nat) : M R :=
  row <- getitem D i ;; getitem row j.

(** Lines 74-76: the sampling weights of sample [i], from its row [d] of
    distances; the sample itself gets weight 0. *)
Definition sampling_weights (dim : nat) (d : list R) (i : nat) : M (list R) :=
  lr <- attr lambda_rev ;;
  let prob := map (fun x => exp (- (x - 1.4142135623730951) ^ 2 * INR dim)) d in
  let weights := map (fun pr => 1 / Rmax pr lr) prob in
  setitem weights i 0.

(** Lines 78-80: select the positive pair. *)
Definition select_positive (weights : list R) (i_start i_end i : nat) : M nat :=
  let weights_same := slice weights i_start i_end in
  j <- np_random_choice (range i_start i_end)
         (np_divide weights_same (np_sum weights_same)) ;;
  assert (negb (j =? i)%nat) ;;;
  ret j.

(** Lines 83-86: select the negative pair. *)
Definition select_negative (weights : list R) (n i_start i_end : nat) : M nat :=
  let weights := np_delete weights i_start i_end in
  spc <- attr spc_of ;;
  k <- np_random_choice (range 0 (n - spc))
         (np_divide weights (np_sum weights)) ;;
  spc <- attr spc_of ;;
  ret (if (i_start <=? k)%nat then (k + spc)%nat else k).

(** Lines 73-98: the body of the inner loop, for sample [i] of the class
    block [i_start, i_end); [loss] is the local accumulator. *)
Definition mb_loss_sample (n dim i_start i_end i : nat) (loss : R) : M R :=
  D <- getattr d_ij ;;
  d <- getitem D i ;;
  weights <- sampling_weights dim d i ;;
  j <- select_positive weights i_start i_end i ;;
  alpha <- attr (fun o => mb_loss_alpha (model o)) ;;
  dij <- index2 D i j ;;
  beta <- attr (fun o => mb_loss_beta (model o)) ;;
  let loss := loss + Rmax (alpha + (dij - beta)) 0 in
  k <- select_negative weights n i_start i_end ;;
  dik <- index2 D i k ;;
  let loss := loss + Rmax (alpha - (dik - beta)) 0 in
  setattr (set_mb_loss_val (loss / INR n)) ;;;
  let negative := map (fun x => if decide (x > beta) then 1 else 0) d in
  let positive := map (fun x => if decide (x <= beta) then 1 else 0) d in
  let fn := py_sum (slice negative i_start i_end) in
  c <- getattr false_neg ;;
  setattr (set_false_neg (c + fn)) ;;;
  let tp := py_sum (slice positive i_start i_end) in
  c <- getattr true_pos ;;
  setattr (set_true_pos (c + tp)) ;;;
  let fp := py_sum (take i_start positive) + py_sum (drop i_end positive) in
  c <- getattr false_pos ;;
  setattr (set_false_pos (c + fp)) ;;;
  let fn := py_sum (take i_start negative) + py_sum (drop i_end negative) in
  c <- getattr true_neg ;;
  setattr (set_true_neg (c + fn)) ;;;
  ret loss.

(** Lines 70-98: the two nested loops. *)
Definition mb_loss_loops (n dim : nat) (loss : R) : M R :=
  spc <- attr spc_of ;;
  starts <- range_step n spc ;;
  for_each starts loss (fun i_start loss =>
    spc <- attr spc_of ;;
    let i_end := (i_start + spc)%nat in
    for_each (range i_start i_end) loss (fun i loss =>
      mb_loss_sample n dim i_start i_end i loss)).

Definition mb_loss (net_output : list tensor) (y_class : list Z) : M R :=
  t <- attr timer ;;
  watch t "time.mb_loss" (
    pred_embeddings <- getitem net_output 1 ;;
    let loss := 0 in
    n <- len pred_embeddings ;;
    e0 <- tensor_first pred_embeddings ;;
    dim <- getitem (shape e0) 0 ;;
    setattr (set_true_pos 0) ;;;
    setattr (set_true_neg 0) ;;;
    setattr (set_false_pos 0) ;;;
    setattr (set_false_neg 0) ;;;
    t <- attr timer ;;
    watch t "time.d_ij" (
      assert (length (shape pred_embeddings) =? 2)%nat ;;;
      let E := tensor_rows n dim pred_embeddings in
      setattr (set_d_ij (squared_distances n dim E)) ;;;
      D <- getattr d_ij ;;
      setattr (set_d_ij (clamped_sqrt D))) ;;;
    loss <- mb_loss_loops n dim loss ;;
    c <- getattr true_pos ;;
    setattr (set_true_pos (c / INR n)) ;;;
    c <- getattr true_neg ;;
    setattr (set_true_neg (c / INR n)) ;;;
    c <- getattr false_pos ;;
    setattr (set_false_pos (c / INR n)) ;;;
    c <- getattr false_neg ;;
    setattr (set_false_neg (c / INR n)) ;;;
    getattr mb_loss_val).

Definition last_mb_loss (net_output : list tensor) (y_class : list Z)
  : M R := getattr mb_loss_val.

Definition last_false_pos (net_output : list tensor) (y_class : list Z)
  : M R := getattr false_pos.

Definition last_false_neg (net_output : list tensor) (y_class : list Z)
  : M R := getattr false_neg.

Definition last_true_pos (net_output : list tensor) (y_class : list Z)
  : M R := getattr true_pos.

Definition last_true_neg (net_output : list tensor) (y_class : list Z)
  : M R := getattr true_neg.

Definition loss (net_output : list tensor) (y_class : list Z) : M fvalue :=
  a <- l2_loss net_output y_class ;;
  b <- mb_loss net_output y_class ;;
  setattr (set_loss_val (fadd a (Fin b))) ;;;
  getattr loss_val.

(** * Specification vocabulary *)

(** ** Frame properties: what a computation leaves alone *)

(** [preserves f c]: whatever [c] does, and whether or not it raises, the
    observation [f] of the world is the same afterwards. *)
Definition preserves {A X} (f : World -> X) (c : M A) : Prop :=
  forall w, f (snd (c w)) = f w.

(** ** Class labels *)

(** The rank of a label among the classes: how many classes are smaller. *)
Definition rank_in (cl : list Z) (c : Z) : nat :=
  length (filter (fun x => (x < c)%Z) cl).

(** The samples of a batch whose label is one of the classes, as pairs of
    a row of logits and a label. *)
Definition known_samples (cl : list Z) (rows : list (list R)) (y : list Z)
  : list (list R * Z) :=
  filter (fun s => s.2 ∈ cl) (zip rows y).

(** ** Dependence on the world *)

(** What the methods read of the object apart from the attributes they
    assign themselves: of the model, the two margins only. *)
Record Config := {
  c_alpha : R;
  c_beta : R;
  c_device : Device;
  c_params : Params;
  c_classes_dict : gmap Z nat;
  c_lambda_rev : R }.

Definition config (o : MarginBaseLoss) : Config :=
  {| c_alpha := mb_loss_alpha (model o); c_beta := mb_loss_beta (model o);
     c_device := device o; c_params := params o;
     c_classes_dict := classes_dict o; c_lambda_rev := lambda_rev o |}.

(** Which of the assigned attributes two objects are known to share. *)
Record known := {
  k_l2 : bool;
  k_dij : bool;
  k_mb : bool;
  k_tp : bool;
  k_tn : bool;
  k_fp : bool;
  k_fn : bool;
  k_loss : bool }.

(** Two worlds agree when their objects have the configuration [cfg],
    their generators are in the same state, and the attributes listed by
    [m] are equal. *)
Definition agree (cfg : Config) (m : known) (w1 w2 : World) : Prop :=
  config (self w1) = cfg /\ config (self w2) = cfg /\
  np_random w1 = np_random w2 /\
  np_random_pos w1 = np_random_pos w2 /\
  (k_l2 m = true -> l2_loss_val (self w1) = l2_loss_val (self w2)) /\
  (k_dij m = true -> d_ij (self w1) = d_ij (self w2)) /\
  (k_mb m = true -> mb_loss_val (self w1) = mb_loss_val (self w2)) /\
  (k_tp m = true -> true_pos (self w1) = true_pos (self w2)) /\
  (k_tn m = true -> true_neg (self w1) = true_neg (self w2)) /\
  (k_fp m = true -> false_pos (self w1) = false_pos (self w2)) /\
  (k_fn m = true -> false_neg (self w1) = false_neg (self w2)) /\
  (k_loss m = true -> loss_val (self w1) = loss_val (self w2)).

(** The attributes known after an assignment. *)
Definition know_l2 (m : known) : known :=
  {| k_l2 := true; k_dij := k_dij m; k_mb := k_mb m; k_tp := k_tp m;
     k_tn := k_tn m; k_fp := k_fp m; k_fn := k_fn m; k_loss := k_loss m |}.

Definition know_dij (m : known) : known :=
  {| k_l2 := k_l2 m; k_dij := true; k_mb := k_mb m; k_tp := k_tp m;
     k_tn := k_tn m; k_fp := k_fp m; k_fn := k_fn m; k_loss := k_loss m |}.

Definition know_mb (m : known) : known :=
  {| k_l2 := k_l2 m; k_dij := k_dij m; k_mb := true; k_tp := k_tp m;
     k_tn := k_tn m; k_fp := k_fp m; k_fn := k_fn m; k_loss := k_loss m |}.

Definition know_tp (m : known) : known :=
  {| k_l2 := k_l2 m; k_dij := k_dij m; k_mb := k_mb m; k_tp := true;
     k_tn := k_tn m; k_fp := k_fp m; k_fn := k_fn m; k_loss := k_loss m |}.

Definition know_tn (m : known) : known :=
  {| k_l2 := k_l2 m; k_dij := k_dij m; k_mb := k_mb m; k_tp := k_tp m;
     k_tn := true; k_fp := k_fp m; k_fn := k_fn m; k_loss := k_loss m |}.

Definition know_fp (m : known) : known :=
  {| k_l2 := k_l2 m; k_dij := k_dij m; k_mb := k_mb m; k_tp := k_tp m;
     k_tn := k_tn m; k_fp := true; k_fn := k_fn m; k_loss := k_loss m |}.

Definition know_fn (m : known) : known :=
  {| k_l2 := k_l2 m; k_dij := k_dij m; k_mb := k_mb m; k_tp := k_tp m;
     k_tn := k_tn m; k_fp := k_fp m; k_fn := true; k_loss := k_loss m |}.

(** What a call of [mb_loss] assigns. *)
Definition know_mb_loss (m : known) : known :=
  know_mb (know_dij (know_fn (know_fp (know_tn (know_tp m))))).

Definition know_loss (m : known) : known :=
  {| k_l2 := k_l2 m; k_dij := k_dij m; k_mb := k_mb m; k_tp := k_tp m;
     k_tn := k_tn m; k_fp := k_fp m; k_fn := k_fn m; k_loss := true |}.

Definition know_nothing : known :=
  {| k_l2 := false; k_dij := false; k_mb := false; k_tp := false;
     k_tn := false; k_fp := false; k_fn := false; k_loss := false |}.

(** [rel P c Q]: from two worlds related by [P], the computation [c]
    either returns the same value in both, leaving worlds related by [Q],
    or raises the same exception in both. *)
Definition rel {A} (P : World -> World -> Prop) (c : M A)
    (Q : World -> World -> Prop) : Prop :=
  forall w1 w2, P w1 w2 ->
    match c w1, c w2 with
    | (Ok a1, w1'), (Ok a2, w2') => a1 = a2 /\ Q w1' w2'
    | (Raise e1, _), (Raise e2, _) => e1 = e2
    | _, _ => False
    end.

(** A computation that neither reads nor changes the world. *)
Definition pure_comp {A} (c : M A) : Prop :=
  exists r, forall w, c w = (r, w).

(** ** Outcomes of calls *)

(** Two runs have the same outcome up to [obs]: the same exception, or the
    same returned value and the same observation of the final world. *)
Definition same_outcome {A X} (obs : World -> X) (r1 r2 : result A * World)
  : Prop :=
  match r1, r2 with
  | (Ok a1, w1), (Ok a2, w2) => a1 = a2 /\ obs w1 = obs w2
  | (Raise e1, _), (Raise e2, _) => e1 = e2
  | _, _ => False
  end.

(** The counters kept by [mb_loss]. *)
Definition counters (w : World) : option R * option R * option R * option R :=
  (true_pos (self w), true_neg (self w), false_pos (self w), false_neg (self w)).

(** The world in which the object holds the model [m] instead of its own. *)
Definition with_model (m : Model) (w : World) : World :=
  with_self
    {| model := m; device := device (self w); params := params (self w);
       classes := classes (self w); classes_dict := classes_dict (self w);
       lambda_rev := lambda_rev (self w); timer := timer (self w);
       l2_loss_val := l2_loss_val (self w); d_ij := d_ij (self w);
       mb_loss_val := mb_loss_val (self w); true_pos := true_pos (self w);
       true_neg := true_neg (self w); false_pos := false_pos (self w);
       false_neg := false_neg (self w); loss_val := loss_val (self w) |} w.

(** The world in which the generator is about to produce the draws
    [u pos], [u (pos + 1)], ... *)
Definition with_random (u : nat -> R) (pos : nat) (w : World) : World :=
  {| self := self w; np_random := u; np_random_pos := pos; stdout := stdout w |}.

(** A call of a method of the object by its user. *)
Inductive call :=
| Call_set_timer (t : Timer)
| Call_classes_to_ids (y_class : list Z) (ignore : Z)
| Call_l2_loss (net_output : list tensor) (y_class : list Z)
| Call_last_l2_loss (net_output : list tensor) (y_class : list Z)
| Call_mb_loss (net_output : list tensor) (y_class : list Z)
| Call_last_mb_loss (net_output : list tensor) (y_class : list Z)
| Call_last_false_pos (net_output : list tensor) (y_class : list Z)
| Call_last_false_neg (net_output : list tensor) (y_class : list Z)
| Call_last_true_pos (net_output : list tensor) (y_class : list Z)
| Call_last_true_neg (net_output : list tensor) (y_class : list Z)
| Call_loss (net_output : list tensor) (y_class : list Z).

(** The world after a call, whether it returned or raised. *)
Definition run_call (c : call) (w : World) : World :=
  match c with
  | Call_set_timer t => snd (set_timer t w)
  | Call_classes_to_ids y ig => snd (classes_to_ids y ig w)
  | Call_l2_loss net y => snd (l2_loss net y w)
  | Call_last_l2_loss net y => snd (last_l2_loss net y w)
  | Call_mb_loss net y => snd (mb_loss net y w)
  | Call_last_mb_loss net y => snd (last_mb_loss net y w)
  | Call_last_false_pos net y => snd (last_false_pos net y w)
  | Call_last_false_neg net y => snd (last_false_neg net y w)
  | Call_last_true_pos net y => snd (last_true_pos net y w)
  | Call_last_true_neg net y => snd (last_true_neg net y w)
  | Call_loss net y => snd (loss net y w)
  end.

Definition run_calls (cs : list call) (w : World) : World :=
  foldl (fun w c => run_call c w) w cs.

(** ** Observations of the world *)

Definition config_of (w : World) : Config := config (self w).

(** What [l2_loss] leaves alone: everything but [l2_loss_val]. *)
Definition beside_l2 (w : World) :=
  (config_of w, np_random w, np_random_pos w, d_ij (self w),
   mb_loss_val (self w), counters w, loss_val (self w)).

(** ** Distances *)

(** The squared norm and the inner product of embeddings. *)
Definition norm2 (a : list R) : R := np_sum (map (fun x => x ^ 2) a).

Definition dot (a b : list R) : R := np_sum (zip_with Rmult a b).

(** The entry [D[i][j]] of a matrix. *)
Definition entry (D : list (list R)) (i j : nat) : R := nth j (nth i D []) 0.

(** The world after lines 55-68 of [mb_loss] on [n] embeddings of [dim]
    entries: the counters are reset and the distances are stored. *)
Definition after_distances (n dim : nat) (pe : tensor) (w : World) : World :=
  with_self
    (set_d_ij (clamped_sqrt (squared_distances n dim (tensor_rows n dim pe)))
       (set_d_ij (squared_distances n dim (tensor_rows n dim pe))
          (set_false_neg 0 (set_false_pos 0 (set_true_neg 0
             (set_true_pos 0 (self w))))))) w.

(** Lines 99-103 of [mb_loss]: the counters are divided by [n] and the
    stored loss is returned. *)
Definition mb_loss_end (n : nat) : M R :=
  c <- getattr true_pos ;;
  setattr (set_true_pos (c / INR n)) ;;;
  c <- getattr true_neg ;;
  setattr (set_true_neg (c / INR n)) ;;;
  c <- getattr false_pos ;;
  setattr (set_false_pos (c / INR n)) ;;;
  c <- getattr false_neg ;;
  setattr (set_false_neg (c / INR n)) ;;;
  getattr mb_loss_val.

Definition stored_d_ij (w : World) : option (list (list R)) := d_ij (self w).

(** ** Sampling *)

(** The position drawn by [np.random.choice] over the probabilities [p]
    when the uniform draw is [x]. *)
Definition choice_index (p : list R) (x : R) : nat :=
  searchsorted_right
    (map (fun c => c / List.last (cumsum p) 0) (cumsum p)) x.

(** [ws / np.sum(ws)] when the sum is not zero. *)
Definition normalized (ws : list R) : list R :=
  map (fun x => x / np_sum ws) ws.

(** The weights of lines 74-76 for sample [i] with distances [d]. *)
Definition weights_row (lr : R) (dim : nat) (d : list R) (i : nat) : list R :=
  <[i := 0]>
    (map (fun pr => 1 / Rmax pr lr)
       (map (fun x => exp (- (x - 1.4142135623730951) ^ 2 * INR dim)) d)).

(** The start of the class block of sample [i]. *)
Definition block_start (spc i : nat) : nat := (spc * (i / spc))%nat.

(** The positive and the negative index selected for a sample with the
    weights [W] when the uniform draw is [x]. *)
Definition sampled_positive (W : list R) (i_start i_end : nat) (x : R) : nat :=
  (i_start + choice_index (normalized (slice W i_start i_end)) x)%nat.

Definition sampled_negative (W : list R) (spc i_start i_end : nat) (x : R)
  : nat :=
  let k := choice_index (normalized (np_delete W i_start i_end)) x in
  if (i_start <=? k)%nat then (k + spc)%nat else k.

(** ** The samples of a run of [mb_loss] *)

(** For sample [i] of a run over the distances [D] that starts when [p0]
    draws of [u] are consumed: its sampling weights, the positive and the
    negative index selected for it (the run takes two draws per sample),
    and the two hinge terms it adds to the loss. *)
Definition sample_weights (cfg : Config) (dim : nat) (D : list (list R))
    (i : nat) : list R :=
  weights_row (c_lambda_rev cfg) dim (nth i D []) i.

Definition positive_of (cfg : Config) (dim spc : nat) (D : list (list R))
    (u : nat -> R) (p0 i : nat) : nat :=
  sampled_positive (sample_weights cfg dim D i)
    (block_start spc i) (block_start spc i + spc) (u (p0 + 2 * i)%nat).

Definition negative_of (cfg : Config) (dim spc : nat) (D : list (list R))
    (u : nat -> R) (p0 i : nat) : nat :=
  sampled_negative (sample_weights cfg dim D i) spc
    (block_start spc i) (block_start spc i + spc) (u (S (p0 + 2 * i))%nat).

Definition hinge_pos (cfg : Config) (D : list (list R)) (i j : nat) : R :=
  Rmax (c_alpha cfg + (entry D i j - c_beta cfg)) 0.

Definition hinge_neg (cfg : Config) (D : list (list R)) (i k : nat) : R :=
  Rmax (c_alpha cfg - (entry D i k - c_beta cfg)) 0.

Definition hinge_terms (cfg : Config) (dim spc : nat) (D : list (list R))
    (u : nat -> R) (p0 i : nat) : R :=
  hinge_pos cfg D i (positive_of cfg dim spc D u p0 i) +
  hinge_neg cfg D i (negative_of cfg dim spc D u p0 i).

(** The state of the loops of [mb_loss] when the samples below [i] are
    done and the local accumulator is [acc]. *)
Definition loop_inv (cfg : Config) (n dim spc : nat) (D : list (list R))
    (u : nat -> R) (p0 i : nat) (acc : R) (w : World) : Prop :=
  config_of w = cfg /\
  np_random w = u /\
  np_random_pos w = (p0 + 2 * i)%nat /\
  d_ij (self w) = Some D /\
  acc = np_sum (map (hinge_terms cfg dim spc D u p0) (seq 0 i)) /\
  is_Some (true_pos (self w)) /\ is_Some (true_neg (self w)) /\
  is_Some (false_pos (self w)) /\ is_Some (false_neg (self w)) /\
  ((0 < i)%nat -> mb_loss_val (self w) = Some (acc / INR n)).

(** The four sums kept by the loops: samples counted in and out of the
    class blocks so far. *)
Definition counted (D : list (list R)) (within beyond : R) (w : World) : Prop :=
  d_ij (self w) = Some D /\
  exists tp tn fp fn,
    counters w = (Some tp, Some tn, Some fp, Some fn) /\
    tp + fn = within /\ tn + fp = beyond.

(** ** Concrete inputs used as examples *)

Definition model_ex : Model :=
  {| mb_loss_alpha := 1; mb_loss_beta := 1; state_dict := ∅ |}.

Definition params_ex : Params :=
  {| data := {| samples_per_class := 2 |};
     distance_weighted_sampling := {| lambda_ := 1 |} |}.

(** The object built from [model_ex] over the classes 3, 1, 2. *)
Definition obj_ex : MarginBaseLoss :=
  {| model := model_ex; device := cpu; params := params_ex;
     classes := [1; 2; 3]%Z;
     classes_dict := <[3%Z := 2%nat]> (<[2%Z := 1%nat]> (<[1%Z := 0%nat]> ∅));
     lambda_rev := 1 / 1;
     timer := DummyTimer;
     l2_loss_val := None; d_ij := None; mb_loss_val := None;
     true_pos := None; true_neg := None; false_pos := None;
     false_neg := None; loss_val := None |}.

(** A world around [obj_ex] in which every draw of the generator is 0. *)
Definition world_ex : World :=
  {| self := obj_ex; np_random := fun _ => 0; np_random_pos := 0;
     stdout := ["classes:  3"%string] |}.

(** A batch of four samples, two per class: logits over three classes and
    one-dimensional embeddings. *)
Definition net_ex : list tensor :=
  [ {| shape := [4; 3]%nat; storage := [0; 0; 0; 0; 0; 0; 0; 0; 0; 0; 0; 0] |};
    {| shape := [4; 1]%nat; storage := [0; 0; 1; 1] |} ].

(** * The rest of the module *)

(** ** DummyTimer *)

(** A context manager: what its [__enter__] does and what its [__exit__]
    does with the exception of the guarded block, if there is one; the
    boolean returned by [__exit__] says whether the exception is
    swallowed. *)
Record ContextManager := {
  cm_enter : M unit;
  cm_exit : option exn -> M bool }.

(** [with cm: body].  A block whose exception is swallowed yields no
    value. *)
Definition with_block {A} (cm : ContextManager) (body : M A) : M (option A) :=
  fun w =>
    match cm_enter cm w with
    | (Raise e, w1) => (Raise e, w1)
    | (Ok _, w1) =>
      match body w1 with
      | (Ok a, w2) =>
        match cm_exit cm None w2 with
        | (Ok _, w3) => (Ok (Some a), w3)
        | (Raise e, w3) => (Raise e, w3)
        end
      | (Raise e, w2) =>
        match cm_exit cm (Some e) w2 with
        | (Ok true, w3) => (Ok None, w3)
        | (Ok false, w3) => (Raise e, w3)
        | (Raise e', w3) => (Raise e', w3)
        end
      end
    end.

Module Dummy.

(** [DummyTimer.TimerWatch]: [__enter__] returns the watch, [__exit__]
    returns [False]. *)
Definition TimerWatch (name : string) : ContextManager :=
  {| cm_enter := ret tt; cm_exit := fun _ => ret false |}.

(** [DummyTimer.start] and [DummyTimer.end]: [pass]. *)
Definition start (name : string) : M unit := ret tt.

Definition end_ (name : string) : M unit := ret tt.

(** [DummyTimer.watch] *)
Definition watch (name : string) : ContextManager := TimerWatch name.

End Dummy.

(** ** Further vocabulary *)

(** What [__init__] assigns and no method assigns again, the timer
    apart. *)
Definition fixed_part (w : World) :=
  (model (self w), device (self w), params (self w), classes (self w),
   classes_dict (self w), lambda_rev (self w)).

(** The squared Euclidean distance of two embeddings. *)
Definition sq_dist (a b : list R) : R :=
  np_sum (zip_with (fun x y => (x - y) ^ 2) a b).

(** [returns_attr g c]: when [c] returns, the value it returns is the one
    stored in the attribute [g]. *)
Definition returns_attr {A} (g : MarginBaseLoss -> option A) (c : M A) : Prop :=
  forall w v w', c w = (Ok v, w') -> g (self w') = Some v.

(** The attributes that [l2_loss] does not assign. *)
Definition stored_l2 (w : World) : option fvalue := l2_loss_val (self w).

Definition stored_mb (w : World) : option R := mb_loss_val (self w).

(** The four counters are assigned and none of them is negative. *)
Definition nonneg_counters (w : World) : Prop :=
  exists tp tn fp fn,
    counters w = (Some tp, Some tn, Some fp, Some fn) /\
    0 <= tp /\ 0 <= tn /\ 0 <= fp /\ 0 <= fn.

(** * Reasoning about computations *)

Lemma bind_ok {A B} (c : M A) (k : A -> M B) w a w' :
  c w = (Ok a, w') -> bind c k w = k a w'.
Proof. intros H. unfold bind. now rewrite H. Qed.

Lemma bind_raise {A B} (c : M A) (k : A -> M B) w e w' :
  c w = (Raise e, w') -> bind c k w = (Raise e, w').
Proof. intros H. unfold bind. now rewrite H. Qed.

Lemma bind_attr {A B} (g : MarginBaseLoss -> A) (k : A -> M B) w :
  bind (attr g) k w = k (g (self w)) w.
Proof. reflexivity. Qed.

(** ** Frame rules *)

Section Preserves.
Context {X : Type} (f : World -> X).

Lemma preserves_ret {A} (a : A) : preserves f (ret a).
Proof. now intros w. Qed.

Lemma preserves_raise {A} e : preserves f (@raise A e).
Proof. now intros w. Qed.

Lemma preserves_bind {A B} (c : M A) (k : A -> M B) :
  preserves f c -> (forall a, preserves f (k a)) -> preserves f (bind c k).
Proof.
  intros Hc Hk w. unfold bind. specialize (Hc w).
  destruct (c w) as [[a|e] w1]; simpl in *.
  - now rewrite Hk.
  - exact Hc.
Qed.

Lemma preserves_attr {A} (g : MarginBaseLoss -> A) : preserves f (attr g).
Proof. now intros w. Qed.

Lemma preserves_getattr {A} (g : MarginBaseLoss -> option A) :
  preserves f (getattr g).
Proof. intros w. unfold getattr. now destruct (g (self w)). Qed.

Lemma preserves_for_each {A B} (l : list A) (body : A -> B -> M B) :
  (forall x acc, preserves f (body x acc)) ->
  forall acc, preserves f (for_each l acc body).
Proof.
  intros Hb. induction l as [|x l IH]; intros acc; simpl.
  - apply preserves_ret.
  - apply preserves_bind; auto.
Qed.

Lemma preserves_watch {A} t name (c : M A) :
  preserves f c -> preserves f (watch t name c).
Proof. trivial. Qed.
End Preserves.

(** The steps that are decided by a test are taken apart test by test. *)
Ltac preserves_step :=
  match goal with
  | |- preserves _ (bind _ _) => apply preserves_bind; [|intros ?]
  | |- preserves _ (ret _) => apply preserves_ret
  | |- preserves _ (raise _) => apply preserves_raise
  | |- preserves _ (attr _) => apply preserves_attr
  | |- preserves _ (getattr _) => apply preserves_getattr
  | |- preserves _ (watch _ _ _) => apply preserves_watch
  | |- preserves _ (for_each _ _ _) => apply preserves_for_each; intros ? ?
  | |- preserves _ (if ?b then _ else _) => destruct b
  | |- preserves _ (match ?x with _ => _ end) => destruct x
  | |- preserves _ (let _ := _ in _) => cbv zeta
  end.

Lemma preserves_getitem {A X} (f : World -> X) (l : list A) i :
  preserves f (getitem l i).
Proof. unfold getitem. repeat preserves_step. Qed.

Lemma preserves_assert {X} (f : World -> X) b : preserves f (assert b).
Proof. unfold assert. repeat preserves_step. Qed.

Lemma preserves_setitem {A X} (f : World -> X) (l : list A) i v :
  preserves f (setitem l i v).
Proof. unfold setitem. repeat preserves_step. Qed.

Lemma preserves_range_step {X} (f : World -> X) stop step :
  preserves f (range_step stop step).
Proof. unfold range_step. repeat preserves_step. Qed.

Lemma preserves_len {X} (f : World -> X) t : preserves f (len t).
Proof. unfold len. repeat preserves_step. Qed.

Lemma preserves_tensor_first {X} (f : World -> X) t :
  preserves f (tensor_first t).
Proof. unfold tensor_first. repeat preserves_step. Qed.

Lemma preserves_index2 {X} (f : World -> X) D i j : preserves f (index2 D i j).
Proof. unfold index2. repeat preserves_step; apply preserves_getitem. Qed.

Lemma preserves_CrossEntropyLoss {X} (f : World -> X) ig input target :
  preserves f (CrossEntropyLoss ig input target).
Proof. unfold CrossEntropyLoss. repeat preserves_step. Qed.

Lemma preserves_classes_to_ids {X} (f : World -> X) y ig :
  preserves f (classes_to_ids y ig).
Proof. unfold classes_to_ids. repeat preserves_step. Qed.

Create HintDb preserves.

#[global] Hint Resolve preserves_getitem preserves_assert preserves_setitem
  preserves_range_step preserves_len preserves_tensor_first preserves_index2
  preserves_CrossEntropyLoss preserves_classes_to_ids : preserves.

Ltac preserves_auto :=
  repeat first
    [ preserves_step
    | solve [auto with preserves]
    | match goal with
      | |- preserves _ (setattr _) => now intros ?
      | |- preserves _ rand => now intros ?
      end ].

Lemma preserves_np_random_choice {X} (f : World -> X) a p :
  preserves f rand -> preserves f (np_random_choice a p).
Proof. intros Hr. unfold np_random_choice. preserves_auto. Qed.

(** Nothing is printed by the methods. *)
Lemma l2_loss_stdout net y : preserves stdout (l2_loss net y).
Proof. unfold l2_loss. preserves_auto. Qed.

Lemma mb_loss_sample_stdout n dim i_start i_end i acc :
  preserves stdout (mb_loss_sample n dim i_start i_end i acc).
Proof.
  unfold mb_loss_sample, sampling_weights, select_positive, select_negative.
  preserves_auto; apply preserves_np_random_choice; now intros ?.
Qed.

Lemma mb_loss_stdout net y : preserves stdout (mb_loss net y).
Proof.
  unfold mb_loss, mb_loss_loops.
  preserves_auto; apply mb_loss_sample_stdout.
Qed.

Lemma loss_stdout net y : preserves stdout (loss net y).
Proof.
  unfold loss. preserves_auto; [apply l2_loss_stdout | apply mb_loss_stdout].
Qed.

(** The sequence of draws of the generator is never replaced. *)
Lemma l2_loss_np_random net y : preserves np_random (l2_loss net y).
Proof. unfold l2_loss. preserves_auto. Qed.

Lemma mb_loss_sample_np_random n dim i_start i_end i acc :
  preserves np_random (mb_loss_sample n dim i_start i_end i acc).
Proof.
  unfold mb_loss_sample, sampling_weights, select_positive, select_negative.
  preserves_auto; apply preserves_np_random_choice; now intros ?.
Qed.

Lemma mb_loss_np_random net y : preserves np_random (mb_loss net y).
Proof.
  unfold mb_loss, mb_loss_loops.
  preserves_auto; apply mb_loss_sample_np_random.
Qed.

Lemma loss_np_random net y : preserves np_random (loss net y).
Proof.
  unfold loss.
  preserves_auto; [apply l2_loss_np_random | apply mb_loss_np_random].
Qed.

(** The classification term takes no draw. *)
Lemma l2_loss_np_random_pos net y : preserves np_random_pos (l2_loss net y).
Proof. unfold l2_loss. preserves_auto. Qed.

(** ** The class dictionary *)

Lemma enumerate_snoc {A} (l : list A) x :
  enumerate (l ++ [x]) = enumerate l ++ [(length l, x)].
Proof.
  unfold enumerate. rewrite length_app. simpl.
  rewrite Nat.add_1_r, seq_S. simpl.
  rewrite zip_with_app by now rewrite length_seq. reflexivity.
Qed.

(** In the dictionary built over a list without repetitions, a key is
    bound to its position in the list. *)
Lemma classes_dict_lookup (l : list Z) c i :
  NoDup l ->
  foldl (fun (m : gmap Z nat) iv => <[iv.2 := iv.1]> m) ∅ (enumerate l) !! c
    = Some i <-> l !! i = Some c.
Proof.
  induction l as [|x l IH] using rev_ind in i |- *; intros Hnd.
  - simpl. rewrite lookup_empty. split; [discriminate|].
    now rewrite lookup_nil.
  - rewrite enumerate_snoc, foldl_app. simpl.
    apply NoDup_app in Hnd as (Hl & Hx & _).
    destruct (decide (x = c)) as [->|Hne].
    + rewrite lookup_insert_eq. split.
      * intros [= <-]. now rewrite list_lookup_middle.
      * intros Hi. f_equal.
        destruct (decide (i < length l)%nat) as [Hlt|Hge].
        -- rewrite lookup_app_l in Hi by lia.
           exfalso. apply (Hx c); [eapply list_elem_of_lookup_2; eauto|].
           apply list_elem_of_singleton. reflexivity.
        -- apply lookup_lt_Some in Hi. rewrite length_app in Hi. simpl in Hi. lia.
    + rewrite lookup_insert_ne by done. rewrite IH by done. split.
      * intros Hi. now apply lookup_app_l_Some.
      * intros Hi. apply lookup_app_Some in Hi as [Hi|[Hlen Hi]]; [done|].
        destruct (i - length l)%nat; simpl in Hi; [congruence|].
        now rewrite lookup_nil in Hi.
Qed.

Lemma filter_none {A} (P : A -> Prop) `{!forall x, Decision (P x)} (l : list A) :
  Forall (fun x => ~ P x) l -> filter P l = [].
Proof.
  induction 1 as [|x l Hx _ IH]; [reflexivity|].
  now rewrite filter_cons_False.
Qed.

Lemma sorted_lookup_rank (l : list Z) i c :
  StronglySorted Z.le l -> NoDup l -> l !! i = Some c -> rank_in l c = i.
Proof.
  unfold rank_in. intros Hs. revert i.
  induction Hs as [|a l Hs IH Hall]; intros i Hnd Hi.
  - now rewrite lookup_nil in Hi.
  - apply NoDup_cons in Hnd as [Ha Hnd].
    destruct i as [|i]; simpl in Hi.
    + injection Hi as ->.
      rewrite filter_cons_False by lia.
      replace (filter (fun x => (x < c)%Z) l) with (@nil Z); [reflexivity|].
      symmetry. apply filter_none.
      eapply Forall_impl; [exact Hall|]. simpl. intros. lia.
    + assert (Hc : c ∈ l) by (eapply list_elem_of_lookup_2; eauto).
      assert (a <= c)%Z by (rewrite Forall_forall in Hall; auto).
      assert (a <> c) by (intros ->; auto).
      rewrite filter_cons_True by lia. simpl. f_equal. auto.
Qed.

(** The sorted class list holds each class at its rank. *)
Lemma merge_sort_lookup_rank (cl : list Z) c :
  NoDup cl -> c ∈ cl -> merge_sort Z.le cl !! rank_in cl c = Some c.
Proof.
  intros Hnd Hc.
  assert (Hp : merge_sort Z.le cl ≡ₚ cl) by apply merge_sort_Permutation.
  assert (Hc' : c ∈ merge_sort Z.le cl) by now rewrite Hp.
  apply list_elem_of_lookup_1 in Hc' as [i Hi].
  assert (rank_in (merge_sort Z.le cl) c = i) as Hr.
  { apply sorted_lookup_rank; [|now rewrite Hp|done].
    apply StronglySorted_merge_sort; apply _. }
  unfold rank_in in *. rewrite Hp in Hr. now rewrite Hr.
Qed.

(** ** The classification term *)

Lemma classes_to_ids_eq y ig w :
  classes_to_ids y ig w =
  (Ok (map (fun c => match classes_dict (self w) !! c with
                     | Some i => Z.of_nat i
                     | None => ig
                     end) y), w).
Proof. reflexivity. Qed.

(** Over targets produced from a dictionary that binds exactly the known
    labels, each to an index below the number of logits, the terms of the
    cross-entropy are those of the known samples. *)
Lemma ce_terms_known (dict : gmap Z nat) (cl : list Z) (rank : Z -> nat) C :
  (forall c, c ∈ cl -> dict !! c = Some (rank c) /\ (rank c < C)%nat) ->
  (forall c, c ∉ cl -> dict !! c = None) ->
  forall rows y,
    ce_terms ignore_index C rows
      (map (fun c => match dict !! c with
                     | Some i => Z.of_nat i
                     | None => ignore_index
                     end) y)
    = Ok (map (fun s => - log_softmax s.1 (rank s.2)) (known_samples cl rows y)).
Proof.
  intros Hin Hout. unfold known_samples.
  induction rows as [|row rows IH]; intros [|c y]; simpl; try reflexivity.
  rewrite IH. unfold ce_term.
  destruct (decide (c ∈ cl)) as [Hc|Hc].
  - destruct (Hin c Hc) as [-> Hlt].
    rewrite bool_decide_eq_false_2 by (unfold ignore_index; lia).
    rewrite bool_decide_eq_true_2 by lia.
    rewrite filter_cons_True by done. simpl. now rewrite Nat2Z.id.
  - rewrite (Hout c Hc).
    rewrite bool_decide_eq_true_2 by done.
    now rewrite filter_cons_False by done.
Qed.

(** ** Relational rules *)

Lemma rel_bind {A B} P Q S (c : M A) (k : A -> M B) :
  rel P c Q -> (forall a, rel Q (k a) S) -> rel P (bind c k) S.
Proof.
  intros Hc Hk w1 w2 HP. specialize (Hc w1 w2 HP). unfold bind.
  destruct (c w1) as [[a1|e1] w1'], (c w2) as [[a2|e2] w2']; try easy.
  destruct Hc as [<- HQ]. now apply Hk.
Qed.

Lemma rel_conseq {A} (P P' Q Q' : World -> World -> Prop) (c : M A) :
  rel P' c Q' ->
  (forall w1 w2, P w1 w2 -> P' w1 w2) ->
  (forall w1 w2, Q' w1 w2 -> Q w1 w2) ->
  rel P c Q.
Proof.
  intros Hc HP HQ w1 w2 H. specialize (Hc w1 w2 (HP _ _ H)).
  destruct (c w1) as [[a1|e1] w1'], (c w2) as [[a2|e2] w2']; try easy.
  destruct Hc as [<- Hc]. auto.
Qed.

Lemma rel_post {A} (P Q Q' : World -> World -> Prop) (c : M A) :
  rel P c Q' -> (forall w1 w2, Q' w1 w2 -> Q w1 w2) -> rel P c Q.
Proof. intros Hc HQ. eapply rel_conseq; eauto. Qed.

Lemma rel_ext {A} P Q (c c' : M A) :
  (forall w, c w = c' w) -> rel P c' Q -> rel P c Q.
Proof. intros He Hc w1 w2 H. rewrite !He. now apply Hc. Qed.

Lemma rel_pure {A} P (c : M A) : pure_comp c -> rel P c P.
Proof. intros [r Hr] w1 w2 H. rewrite !Hr. now destruct r. Qed.

Lemma rel_raise {A} P Q e : rel P (@raise A e) Q.
Proof. now intros w1 w2 _. Qed.

Lemma rel_setattr P Q upd :
  (forall w1 w2, P w1 w2 ->
     Q (with_self (upd (self w1)) w1) (with_self (upd (self w2)) w2)) ->
  rel P (setattr upd) Q.
Proof. intros H w1 w2 HP. simpl. split; [reflexivity|]. now apply H. Qed.

Lemma rel_getattr {A} P (g : MarginBaseLoss -> option A) :
  (forall w1 w2, P w1 w2 -> g (self w1) = g (self w2)) ->
  rel P (getattr g) P.
Proof.
  intros H w1 w2 HP. unfold getattr. rewrite (H _ _ HP).
  now destruct (g (self w2)).
Qed.

(** Reading an attribute whose value is known from [P]. *)
Lemma rel_attr_known {A B} P Q (g : MarginBaseLoss -> A) v (k : A -> M B) :
  (forall w1 w2, P w1 w2 -> g (self w1) = v /\ g (self w2) = v) ->
  rel P (k v) Q -> rel P (bind (attr g) k) Q.
Proof.
  intros Hg Hk w1 w2 HP. unfold bind, attr.
  destruct (Hg _ _ HP) as [-> ->]. now apply Hk.
Qed.

(** Reading the timer: the watch does not depend on it. *)
Lemma rel_timer {A B} P Q name (body : M A) (k : A -> M B) :
  rel P (bind body k) Q ->
  rel P (t <- attr timer ;; bind (watch t name body) k) Q.
Proof. apply rel_ext. reflexivity. Qed.

Lemma rel_timer_last {A} P Q name (body : M A) :
  rel P body Q ->
  rel P (t <- attr timer ;; watch t name body) Q.
Proof. apply rel_ext. reflexivity. Qed.

Lemma rel_rand P Q :
  (forall w1 w2, P w1 w2 ->
     np_random w1 (np_random_pos w1) = np_random w2 (np_random_pos w2) /\
     Q (advance w1) (advance w2)) ->
  rel P rand Q.
Proof. intros H w1 w2 HP. simpl. now apply H. Qed.

Lemma rel_for_each {A B} I (l : list A) (body : A -> B -> M B) :
  (forall x acc, rel I (body x acc) I) ->
  forall acc, rel I (for_each l acc body) I.
Proof.
  intros Hb. induction l as [|x l IH]; intros acc; simpl.
  - apply rel_pure. now exists (Ok acc).
  - eapply rel_bind; [apply Hb|]. intros a. apply IH.
Qed.

(** A loop that runs at least once establishes what its body does. *)
Lemma rel_for_each_cons {A B} I J x (l : list A) (body : A -> B -> M B) :
  (forall x acc, rel I (body x acc) J) ->
  (forall w1 w2, J w1 w2 -> I w1 w2) ->
  forall acc, rel I (for_each (x :: l) acc body) J.
Proof.
  intros Hb HJI acc. simpl. eapply rel_bind; [apply Hb|].
  intros a. apply rel_for_each. intros y acc'.
  eapply rel_conseq; [apply Hb| |]; auto.
Qed.

(** The computations that do not touch the world. *)
Lemma pure_ret {A} (a : A) : pure_comp (ret a).
Proof. now exists (Ok a). Qed.

Lemma pure_raise {A} e : pure_comp (@raise A e).
Proof. now exists (Raise e). Qed.

Ltac pure_cases :=
  repeat match goal with
  | |- pure_comp (if ?b then _ else _) => destruct b
  | |- pure_comp (match ?x with _ => _ end) => destruct x
  | |- pure_comp (ret _) => apply pure_ret
  | |- pure_comp (raise _) => apply pure_raise
  end.

Lemma pure_getitem {A} (l : list A) i : pure_comp (getitem l i).
Proof. unfold getitem. pure_cases. Qed.

Lemma pure_assert b : pure_comp (assert b).
Proof. unfold assert. pure_cases. Qed.

Lemma pure_setitem {A} (l : list A) i v : pure_comp (setitem l i v).
Proof. unfold setitem. pure_cases. Qed.

Lemma pure_range_step stop step : pure_comp (range_step stop step).
Proof. unfold range_step. pure_cases. Qed.

Lemma pure_len t : pure_comp (len t).
Proof. unfold len. pure_cases. Qed.

Lemma pure_tensor_first t : pure_comp (tensor_first t).
Proof. unfold tensor_first. pure_cases. Qed.

Lemma pure_CrossEntropyLoss ig input target :
  pure_comp (CrossEntropyLoss ig input target).
Proof. unfold CrossEntropyLoss. pure_cases. Qed.

Lemma pure_index2 D i j : pure_comp (index2 D i j).
Proof.
  unfold index2, getitem, bind.
  destruct (D !! i) as [row|]; [|exists (Raise IndexError); reflexivity].
  simpl. destruct (row !! j) as [x|].
  - exists (Ok x). reflexivity.
  - exists (Raise IndexError). reflexivity.
Qed.

Create HintDb pure_comp.

#[global] Hint Resolve pure_ret pure_raise pure_getitem pure_assert
  pure_setitem pure_range_step pure_len pure_tensor_first
  pure_CrossEntropyLoss pure_index2 : pure_comp.

(** ** The methods read the configuration and what they assigned *)

Ltac agree_tac :=
  intros;
  repeat match goal with
  | H : agree _ _ _ _ |- _ =>
      destruct H as (?&?&?&?&?&?&?&?&?&?&?&?)
  end;
  unfold agree, config in *; simpl in *;
  repeat split; intros; try congruence; auto.

Lemma rel_attr_cfg {A B} cfg m Q (g : MarginBaseLoss -> A) (g' : Config -> A)
    (k : A -> M B) :
  (forall o, g o = g' (config o)) ->
  rel (agree cfg m) (k (g' cfg)) Q ->
  rel (agree cfg m) (bind (attr g) k) Q.
Proof.
  intros Hg. apply rel_attr_known.
  intros w1 w2 (H1 & H2 & _). now rewrite !Hg, H1, H2.
Qed.

Lemma rel_set_l2 cfg m v :
  rel (agree cfg m) (setattr (set_l2_loss_val v)) (agree cfg (know_l2 m)).
Proof. apply rel_setattr. agree_tac. Qed.

Lemma rel_set_dij cfg m v :
  rel (agree cfg m) (setattr (set_d_ij v)) (agree cfg (know_dij m)).
Proof. apply rel_setattr. agree_tac. Qed.

Lemma rel_set_mb cfg m v :
  rel (agree cfg m) (setattr (set_mb_loss_val v)) (agree cfg (know_mb m)).
Proof. apply rel_setattr. agree_tac. Qed.

Lemma rel_set_tp cfg m v :
  rel (agree cfg m) (setattr (set_true_pos v)) (agree cfg (know_tp m)).
Proof. apply rel_setattr. agree_tac. Qed.

Lemma rel_set_tn cfg m v :
  rel (agree cfg m) (setattr (set_true_neg v)) (agree cfg (know_tn m)).
Proof. apply rel_setattr. agree_tac. Qed.

Lemma rel_set_fp cfg m v :
  rel (agree cfg m) (setattr (set_false_pos v)) (agree cfg (know_fp m)).
Proof. apply rel_setattr. agree_tac. Qed.

Lemma rel_set_fn cfg m v :
  rel (agree cfg m) (setattr (set_false_neg v)) (agree cfg (know_fn m)).
Proof. apply rel_setattr. agree_tac. Qed.

Lemma rel_set_loss cfg m v :
  rel (agree cfg m) (setattr (set_loss_val v)) (agree cfg (know_loss m)).
Proof. apply rel_setattr. agree_tac. Qed.

Lemma rel_agree_rand cfg m : rel (agree cfg m) rand (agree cfg m).
Proof. apply rel_rand. intros w1 w2 H. split; agree_tac. Qed.

Ltac rel_step :=
  match goal with
  | |- rel _ (watch _ _ _) _ => unfold watch
  | |- rel _ (bind (attr timer) _) _ =>
      first [apply rel_timer | apply rel_timer_last]
  | |- rel _ (bind (attr lambda_rev) _) _ =>
      apply (rel_attr_cfg _ _ _ _ c_lambda_rev); [reflexivity|]
  | |- rel _ (bind (attr classes_dict) _) _ =>
      apply (rel_attr_cfg _ _ _ _ c_classes_dict); [reflexivity|]
  | |- rel _ (bind (attr spc_of) _) _ =>
      apply (rel_attr_cfg _ _ _ _
               (fun c => samples_per_class (data (c_params c))));
      [reflexivity|]
  | |- rel _ (bind (attr (fun o => mb_loss_alpha (model o))) _) _ =>
      apply (rel_attr_cfg _ _ _ _ c_alpha); [reflexivity|]
  | |- rel _ (bind (attr (fun o => mb_loss_beta (model o))) _) _ =>
      apply (rel_attr_cfg _ _ _ _ c_beta); [reflexivity|]
  | |- rel _ (bind _ _) _ => eapply rel_bind; [|intros ?]
  | |- rel _ (raise _) _ => apply rel_raise
  | |- rel _ (setattr (set_l2_loss_val _)) _ => apply rel_set_l2
  | |- rel _ (setattr (set_d_ij _)) _ => apply rel_set_dij
  | |- rel _ (setattr (set_mb_loss_val _)) _ => apply rel_set_mb
  | |- rel _ (setattr (set_true_pos _)) _ => apply rel_set_tp
  | |- rel _ (setattr (set_true_neg _)) _ => apply rel_set_tn
  | |- rel _ (setattr (set_false_pos _)) _ => apply rel_set_fp
  | |- rel _ (setattr (set_false_neg _)) _ => apply rel_set_fn
  | |- rel _ (setattr (set_loss_val _)) _ => apply rel_set_loss
  | |- rel _ rand _ => apply rel_agree_rand
  | |- rel _ (getattr _) _ =>
      apply rel_getattr; intros ? ? (?&?&?&?&?&?&?&?&?&?&?&?);
      simpl in *; solve [auto]
  | |- rel _ (if ?b then _ else _) _ => destruct b
  | |- rel _ (match ?x with _ => _ end) _ => destruct x
  | |- rel _ (let _ := _ in _) _ => cbv zeta
  | |- rel _ _ _ => apply rel_pure; solve [auto with pure_comp]
  end.

Lemma np_random_choice_rel cfg m a p :
  rel (agree cfg m) (np_random_choice a p) (agree cfg m).
Proof. unfold np_random_choice. repeat rel_step. Qed.

Lemma l2_loss_rel cfg m net y :
  rel (agree cfg m) (l2_loss net y) (agree cfg (know_l2 m)).
Proof. unfold l2_loss, classes_to_ids. repeat rel_step. Qed.

Lemma rel_ret_bind {A B} P Q (a : A) (k : A -> M B) :
  rel P (k a) Q -> rel P (bind (ret a) k) Q.
Proof. apply rel_ext. reflexivity. Qed.

Lemma rel_raise_bind {A B} P Q e (k : A -> M B) : rel P (bind (raise e) k) Q.
Proof. now intros w1 w2 _. Qed.

Lemma agree_weaken cfg m m' w1 w2 :
  agree cfg m w1 w2 ->
  (k_l2 m' = true -> k_l2 m = true) ->
  (k_dij m' = true -> k_dij m = true) ->
  (k_mb m' = true -> k_mb m = true) ->
  (k_tp m' = true -> k_tp m = true) ->
  (k_tn m' = true -> k_tn m = true) ->
  (k_fp m' = true -> k_fp m = true) ->
  (k_fn m' = true -> k_fn m = true) ->
  (k_loss m' = true -> k_loss m = true) ->
  agree cfg m' w1 w2.
Proof. agree_tac. Qed.

Lemma mb_loss_sample_rel cfg m n dim i_start i_end i acc :
  k_dij m = true -> k_tp m = true -> k_tn m = true ->
  k_fp m = true -> k_fn m = true ->
  rel (agree cfg m) (mb_loss_sample n dim i_start i_end i acc)
      (agree cfg (know_mb m)).
Proof.
  intros Hd Htp Htn Hfp Hfn.
  eapply rel_post.
  - unfold mb_loss_sample, sampling_weights, select_positive, select_negative.
    repeat first [apply np_random_choice_rel | rel_step].
  - intros w1 w2 H. eapply agree_weaken; [exact H|simpl; auto..].
Qed.

Lemma range_cons i_start spc :
  range i_start (i_start + S spc) = i_start :: seq (S i_start) spc.
Proof. unfold range. now replace (i_start + S spc - i_start)%nat with (S spc) by lia. Qed.

Lemma blocks_nonempty n spc :
  n <> 0%nat -> spc <> 0%nat -> exists q, ((n + spc - 1) / spc = S q)%nat.
Proof.
  intros Hn Hs. destruct ((n + spc - 1) / spc)%nat eqn:E; [|eauto].
  apply Nat.div_small_iff in E; lia.
Qed.

(** The loops run their body at least once, so the value of [mb_loss_val]
    that is read afterwards is the one they assigned. *)
Lemma mb_loss_loops_rel cfg m n dim acc :
  n <> 0%nat ->
  k_dij m = true -> k_tp m = true -> k_tn m = true ->
  k_fp m = true -> k_fn m = true ->
  rel (agree cfg m) (mb_loss_loops n dim acc) (agree cfg (know_mb m)).
Proof.
  intros Hn Hd Htp Htn Hfp Hfn. unfold mb_loss_loops.
  rel_step. unfold range_step.
  destruct (samples_per_class (data (c_params cfg))) as [|spc] eqn:Hspc;
    [apply rel_raise_bind|].
  simpl Nat.eqb. cbv iota. apply rel_ret_bind.
  destruct (blocks_nonempty n (S spc)) as [q ->]; [lia..|].
  simpl seq. simpl map.
  apply rel_for_each_cons with (I := agree cfg m).
  - intros i_start acc'. rel_step. rewrite Hspc, range_cons.
    apply rel_for_each_cons with (I := agree cfg m).
    + intros i acc''. now apply mb_loss_sample_rel.
    + intros w1 w2 H. eapply agree_weaken; [exact H|simpl; auto..].
  - intros w1 w2 H. eapply agree_weaken; [exact H|simpl; auto..].
Qed.

Lemma mb_loss_rel cfg m net y :
  rel (agree cfg m) (mb_loss net y) (agree cfg (know_mb_loss m)).
Proof.
  unfold mb_loss. rel_step. rel_step; [rel_step|].
  rename a into pe. unfold len, tensor_first.
  destruct (shape pe) as [|n rest] eqn:Hshape; [apply rel_raise_bind|].
  apply rel_ret_bind.
  destruct (n =? 0)%nat eqn:Hn; [apply rel_raise_bind|].
  apply Nat.eqb_neq in Hn. apply rel_ret_bind. cbv beta.
  rel_step; [rel_step|]. rename a into dim.
  do 4 (rel_step; [rel_step|]).
  rel_step. rel_step; [repeat rel_step|].
  rel_step; [apply (mb_loss_loops_rel _ _ _ _ _ Hn); reflexivity|].
  eapply rel_post;
    [ repeat rel_step
    | intros w1 w2 H; eapply agree_weaken; [exact H|simpl; auto..] ].
Qed.

Lemma loss_rel cfg m net y :
  rel (agree cfg m) (loss net y) (agree cfg (know_loss (know_mb_loss (know_l2 m)))).
Proof.
  unfold loss.
  rel_step; [apply l2_loss_rel|].
  rel_step; [apply mb_loss_rel|].
  repeat rel_step.
Qed.

Lemma rel_fst {A} P Q (c : M A) w1 w2 :
  rel P c Q -> P w1 w2 -> fst (c w1) = fst (c w2).
Proof.
  intros Hc HP. specialize (Hc w1 w2 HP).
  destruct (c w1) as [[a1|e1] w1'], (c w2) as [[a2|e2] w2']; try easy.
  - now destruct Hc as [-> _].
  - now subst.
Qed.

Lemma rel_same_outcome {A X} P Q (obs : World -> X) (c : M A) w1 w2 :
  rel P c Q -> P w1 w2 ->
  (forall w1' w2', Q w1' w2' -> obs w1' = obs w2') ->
  same_outcome obs (c w1) (c w2).
Proof.
  intros Hc HP HQ. specialize (Hc w1 w2 HP). unfold same_outcome.
  destruct (c w1) as [[a1|e1] w1'], (c w2) as [[a2|e2] w2']; try easy.
  destruct Hc as [-> Hc]. auto.
Qed.

(** ** No method changes the configuration *)

Lemma mb_loss_sample_config n dim i_start i_end i acc :
  preserves config_of (mb_loss_sample n dim i_start i_end i acc).
Proof.
  unfold mb_loss_sample, sampling_weights, select_positive, select_negative.
  preserves_auto; apply preserves_np_random_choice; now intros ?.
Qed.

Lemma l2_loss_config net y : preserves config_of (l2_loss net y).
Proof. unfold l2_loss. preserves_auto. Qed.

Lemma mb_loss_config net y : preserves config_of (mb_loss net y).
Proof.
  unfold mb_loss, mb_loss_loops. preserves_auto; apply mb_loss_sample_config.
Qed.

Lemma loss_config net y : preserves config_of (loss net y).
Proof.
  unfold loss. preserves_auto; [apply l2_loss_config | apply mb_loss_config].
Qed.

Lemma run_call_config c w : config_of (run_call c w) = config_of w.
Proof.
  destruct c; simpl;
    first [ apply l2_loss_config | apply mb_loss_config | apply loss_config
          | apply preserves_getattr | apply preserves_classes_to_ids
          | reflexivity ].
Qed.

Lemma run_calls_config cs w : config_of (run_calls cs w) = config_of w.
Proof.
  unfold run_calls. revert w.
  induction cs as [|c cs IH]; intros w; simpl; [reflexivity|].
  now rewrite IH, run_call_config.
Qed.

Lemma l2_loss_beside net y : preserves beside_l2 (l2_loss net y).
Proof. unfold l2_loss. preserves_auto. Qed.

(** ** The run of [mb_loss] on a two-dimensional batch *)

(** On a batch of shape [(n, dim)] with [n] positive, [mb_loss] gets past
    its shape assertion, stores the distances and enters its loops. *)
Lemma mb_loss_unfold net y w pe n dim :
  net !! 1%nat = Some pe ->
  shape pe = [n; dim] ->
  n <> 0%nat ->
  mb_loss net y w =
  bind (mb_loss_loops n dim 0) (fun _ => mb_loss_end n)
       (after_distances n dim pe w).
Proof.
  intros Hnet Hshape Hn.
  unfold mb_loss, watch, getitem, len, tensor_first.
  unfold bind at 1. simpl. rewrite Hnet.
  unfold bind at 1. simpl. rewrite Hshape.
  unfold bind at 1. simpl.
  unfold bind at 1. simpl.
  destruct (n =? 0)%nat eqn:E; [apply Nat.eqb_eq in E; contradiction|].
  simpl. reflexivity.
Qed.

(** ** The distance matrix *)

Lemma map_nth_seq {A} (l : list A) d :
  map (fun k => nth k l d) (seq 0 (length l)) = l.
Proof.
  induction l as [|a l IH]; [reflexivity|].
  simpl. f_equal. rewrite <- fmap_S_seq.
  change (S <$> seq 0 (length l)) with (map S (seq 0 (length l))).
  rewrite map_map. exact IH.
Qed.

Lemma zip_with_map_same {A B C D} (f : B -> C -> D) (g : A -> B) (h : A -> C) l :
  zip_with f (map g l) (map h l) = map (fun x => f (g x) (h x)) l.
Proof. induction l as [|x l IH]; simpl; [reflexivity|now rewrite IH]. Qed.

Lemma nth_nil_R k : nth k (@nil R) 0 = 0.
Proof. now destruct k. Qed.

(** Column [j] of the transpose is row [j]. *)
Lemma transpose_column dim (E : list (list R)) j :
  length (nth j E []) = dim ->
  map (fun b => nth j b 0) (transpose dim E) = nth j E [].
Proof.
  intros Hlen. unfold transpose. rewrite map_map.
  transitivity (map (fun k => nth k (nth j E []) 0)
                  (seq 0 (length (nth j E []))));
    [|apply map_nth_seq].
  rewrite Hlen.
  apply map_ext. intros k.
  rewrite <- (nth_nil_R k) at 1.
  apply (map_nth (fun r => nth k r 0)).
Qed.

Lemma mm_transpose n dim (E : list (list R)) :
  length E = n ->
  Forall (fun e => length e = dim) E ->
  mm n E (transpose dim E) = map (fun a => map (fun b => dot a b) E) E.
Proof.
  intros Hn Hrows. unfold mm. apply map_ext. intros a.
  transitivity (map (fun b => dot a b)
                  (map (fun k => nth k E []) (seq 0 (length E))));
    [|now rewrite map_nth_seq].
  rewrite Hn, map_map.
  apply map_ext_in. intros j Hj. apply in_seq in Hj.
  unfold dot. rewrite transpose_column; [reflexivity|].
  rewrite Forall_forall in Hrows. apply Hrows.
  apply list_elem_of_In, nth_In. lia.
Qed.

(** The squared distances in closed form. *)
Lemma squared_distances_closed n dim (E : list (list R)) :
  length E = n ->
  Forall (fun e => length e = dim) E ->
  squared_distances n dim E =
  map (fun a => map (fun b => norm2 a + norm2 b - 2 * dot a b) E) E.
Proof.
  intros Hn Hrows. unfold squared_distances.
  rewrite (mm_transpose n dim E Hn Hrows).
  rewrite map_map. rewrite zip_with_map_same.
  apply map_ext. intros a. rewrite map_map.
  rewrite zip_with_map_same. reflexivity.
Qed.

Lemma dot_comm a b : dot a b = dot b a.
Proof.
  unfold dot. revert b.
  induction a as [|x a IH]; intros [|y b]; simpl; try reflexivity.
  rewrite IH. lra.
Qed.

Lemma length_tensor_rows n dim pe : length (tensor_rows n dim pe) = n.
Proof. unfold tensor_rows. now rewrite length_map, length_seq. Qed.

Lemma tensor_rows_lengths n dim pe :
  shape pe = [n; dim] -> well_formed pe ->
  Forall (fun e => length e = dim) (tensor_rows n dim pe).
Proof.
  intros Hshape Hwf. unfold well_formed in Hwf. rewrite Hshape in Hwf.
  simpl in Hwf. unfold tensor_rows.
  apply Forall_forall. intros e He.
  apply list_elem_of_In, in_map_iff in He as (i & <- & Hi).
  apply in_seq in Hi. rewrite length_take, length_drop. nia.
Qed.

Lemma entry_map2 {A} (f : A -> A -> R) (E : list A) d i j :
  (i < length E)%nat -> (j < length E)%nat ->
  entry (map (fun a => map (fun b => f a b) E) E) i j =
  f (nth i E d) (nth j E d).
Proof.
  intros Hi Hj. unfold entry.
  rewrite (nth_indep _ [] (map (fun b => f d b) E))
    by now rewrite length_map.
  rewrite (map_nth (fun a => map (fun b => f a b) E)).
  rewrite (nth_indep _ 0 (f (nth i E d) d)) by now rewrite length_map.
  now rewrite (map_nth (fun b => f (nth i E d) b)).
Qed.

(** The stored distances in closed form. *)
Lemma distances_closed n dim (E : list (list R)) :
  length E = n ->
  Forall (fun e => length e = dim) E ->
  clamped_sqrt (squared_distances n dim E) =
  map (fun a =>
         map (fun b => sqrt (Rmax (norm2 a + norm2 b - 2 * dot a b) 0 + 1e-8)) E)
      E.
Proof.
  intros Hn Hrows. rewrite (squared_distances_closed n dim E Hn Hrows).
  unfold clamped_sqrt. rewrite map_map. apply map_ext. intros a.
  now rewrite map_map.
Qed.

(** The loops and the end of [mb_loss] leave the stored distances alone. *)

Lemma mb_loss_sample_d_ij n dim i_start i_end i acc :
  preserves stored_d_ij (mb_loss_sample n dim i_start i_end i acc).
Proof.
  unfold mb_loss_sample, sampling_weights, select_positive, select_negative.
  preserves_auto; apply preserves_np_random_choice; now intros ?.
Qed.

Lemma mb_loss_loops_d_ij n dim acc :
  preserves stored_d_ij (mb_loss_loops n dim acc).
Proof. unfold mb_loss_loops. preserves_auto. apply mb_loss_sample_d_ij. Qed.

Lemma mb_loss_end_d_ij n : preserves stored_d_ij (mb_loss_end n).
Proof. unfold mb_loss_end. preserves_auto. Qed.

Lemma mb_loss_stores_distances net y w pe n dim :
  net !! 1%nat = Some pe ->
  shape pe = [n; dim] ->
  n <> 0%nat ->
  d_ij (self (snd (mb_loss net y w))) =
  Some (clamped_sqrt (squared_distances n dim (tensor_rows n dim pe))).
Proof.
  intros Hnet Hshape Hn.
  rewrite (mb_loss_unfold net y w pe n dim Hnet Hshape Hn).
  change (stored_d_ij
            (snd (bind (mb_loss_loops n dim 0) (fun _ => mb_loss_end n)
                       (after_distances n dim pe w))) = 
          stored_d_ij (after_distances n dim pe w)).
  apply preserves_bind; [apply mb_loss_loops_d_ij|].
  intros _. apply mb_loss_end_d_ij.
Qed.

(** ** Sampling by inverse cumulative sums *)

Lemma np_sum_cons x l : np_sum (x :: l) = x + np_sum l.
Proof. reflexivity. Qed.

Lemma np_sum_nil : np_sum [] = 0.
Proof. reflexivity. Qed.

#[global] Arguments np_sum : simpl never.

Lemma np_sum_app l1 l2 : np_sum (l1 ++ l2) = np_sum l1 + np_sum l2.
Proof.
  induction l1 as [|x l1 IH]; simpl; [rewrite np_sum_nil; lra|].
  rewrite !np_sum_cons, IH. lra.
Qed.

Lemma np_sum_nonneg l : Forall (fun x => 0 <= x) l -> 0 <= np_sum l.
Proof.
  induction 1 as [|x l Hx _ IH]; [rewrite np_sum_nil; lra|].
  rewrite np_sum_cons. lra.
Qed.

Lemma np_sum_pos l x :
  Forall (fun x => 0 <= x) l -> x ∈ l -> 0 < x -> 0 < np_sum l.
Proof.
  intros Hall Hin Hx. induction Hall as [|y l Hy Hall IH]; [inversion Hin|].
  rewrite np_sum_cons. apply np_sum_nonneg in Hall.
  apply elem_of_cons in Hin as [<-|Hin]; [lra|].
  specialize (IH Hin). lra.
Qed.

Lemma np_sum_pos_inv l : 0 < np_sum l -> exists x, x ∈ l /\ 0 < x.
Proof.
  induction l as [|y l IH]; [rewrite np_sum_nil; lra|].
  rewrite np_sum_cons. intros H.
  destruct (Rlt_dec 0 y) as [Hy|Hy].
  - exists y. split; [left|exact Hy].
  - destruct IH as (x & Hin & Hx); [lra|].
    exists x. split; [now right|exact Hx].
Qed.

Lemma np_sum_scale l s : np_sum (map (fun x => x / s) l) = np_sum l / s.
Proof.
  induction l as [|x l IH]; simpl; [rewrite !np_sum_nil; unfold Rdiv; lra|].
  rewrite !np_sum_cons, IH. unfold Rdiv. lra.
Qed.

Lemma last_cumsum_from acc p d :
  p <> [] -> List.last (cumsum_from acc p) d = acc + np_sum p.
Proof.
  revert acc. induction p as [|x p IH]; intros acc Hp; [contradiction|].
  destruct p as [|y p].
  - simpl. rewrite np_sum_cons, np_sum_nil. lra.
  - change (List.last (cumsum_from acc (x :: y :: p)) d)
      with (List.last (cumsum_from (acc + x) (y :: p)) d).
    rewrite IH by discriminate. rewrite (np_sum_cons x). lra.
Qed.

(** A draw that lies between the scaled running sum [acc / s] and the
    scaled total selects a position of positive weight. *)
Lemma searchsorted_cumsum p acc s x :
  0 < s -> acc / s <= x -> x < (acc + np_sum p) / s ->
  (searchsorted_right (map (fun c => (c / s)%R) (cumsum_from acc p)) x
     < length p)%nat /\
  0 < nth (searchsorted_right (map (fun c => c / s) (cumsum_from acc p)) x) p 0.
Proof.
  intros Hs. revert acc.
  induction p as [|a p IH]; intros acc Hlo Hhi.
  - rewrite np_sum_nil, Rplus_0_r in Hhi. lra.
  - simpl. destruct (decide (x < (acc + a) / s)) as [Hlt|Hge].
    + split; [simpl; lia|].
      assert (acc / s < (acc + a) / s) as H by lra.
      unfold Rdiv in H. apply Rmult_lt_reg_r in H; [lra|].
      now apply Rinv_0_lt_compat.
    + rewrite np_sum_cons in Hhi.
      destruct (IH (acc + a)) as [H1 H2]; [lra|now rewrite Rplus_assoc|].
      split; [simpl; lia|exact H2].
Qed.

Lemma choice_index_spec p x :
  0 < np_sum p -> 0 <= x < 1 ->
  (choice_index p x < length p)%nat /\ 0 < nth (choice_index p x) p 0.
Proof.
  intros Hs Hx. unfold choice_index, cumsum.
  assert (Hp : p <> []) by (intros ->; rewrite np_sum_nil in Hs; lra).
  rewrite (last_cumsum_from 0 p 0 Hp), Rplus_0_l.
  apply searchsorted_cumsum; [exact Hs|unfold Rdiv; lra|].
  rewrite Rplus_0_l. unfold Rdiv. rewrite Rinv_r; lra.
Qed.

Lemma finite_entries_Fin (l : list R) : finite_entries (map Fin l) = Some l.
Proof. induction l as [|x l IH]; simpl; [reflexivity|now rewrite IH]. Qed.

Lemma np_divide_nonzero ws s :
  s <> 0 -> np_divide ws s = map Fin (map (fun x => x / s) ws).
Proof.
  intros Hs. unfold np_divide. rewrite map_map. apply map_ext. intros x.
  now destruct (decide (s = 0)).
Qed.

Lemma atol_nonneg : 0 <= atol.
Proof. apply sqrt_pos. Qed.

Lemma existsb_negative_false (l : list R) :
  Forall (fun x => 0 <= x) l ->
  existsb (fun x => bool_decide (x < 0)) l = false.
Proof.
  induction 1 as [|x l Hx _ IH]; [reflexivity|].
  simpl. rewrite IH. rewrite bool_decide_eq_false_2 by lra. reflexivity.
Qed.

(** [np.random.choice] on weights divided by their positive sum accepts
    its arguments, takes one draw, and returns the element of [a] at a
    position whose weight is positive. *)
Lemma np_random_choice_run (a : list nat) (ws : list R) w :
  0 < np_sum ws ->
  Forall (fun x => 0 <= x) ws ->
  length ws = length a ->
  0 <= np_random w (np_random_pos w) < 1 ->
  let idx := choice_index (normalized ws) (np_random w (np_random_pos w)) in
  (idx < length ws)%nat /\ 0 < nth idx ws 0 /\
  np_random_choice a (np_divide ws (np_sum ws)) w = getitem a idx (advance w).
Proof.
  intros Hs Hnn Hlen Hx idx.
  assert (Hn1 : np_sum (normalized ws) = 1).
  { unfold normalized. rewrite np_sum_scale. unfold Rdiv. rewrite Rinv_r; lra. }
  assert (Hnn' : Forall (fun x => 0 <= x) (normalized ws)).
  { unfold normalized. rewrite Forall_forall in Hnn. apply Forall_forall.
    intros y Hy. apply list_elem_of_In, in_map_iff in Hy as (z & <- & Hz).
    apply list_elem_of_In, Hnn in Hz.
    apply Rmult_le_pos; [exact Hz|]. left. now apply Rinv_0_lt_compat. }
  destruct (choice_index_spec (normalized ws) (np_random w (np_random_pos w)))
    as [Hi Hp]; [lra|exact Hx|].
  fold idx in Hi, Hp. unfold normalized in Hi. rewrite length_map in Hi.
  split; [exact Hi|]. split.
  { unfold normalized in Hp.
    rewrite (nth_indep _ 0 (0 / np_sum ws)) in Hp by now rewrite length_map.
    rewrite (map_nth (fun x => x / np_sum ws)) in Hp.
    unfold Rdiv in Hp. apply Rmult_lt_reg_r with (r := / np_sum ws).
    - now apply Rinv_0_lt_compat.
    - now rewrite Rmult_0_l. }
  unfold np_random_choice.
  destruct (length a =? 0)%nat eqn:Ea.
  { apply Nat.eqb_eq in Ea. lia. }
  rewrite np_divide_nonzero by lra.
  rewrite !length_map, Hlen, Nat.eqb_refl. simpl negb. cbv iota.
  rewrite finite_entries_Fin.
  fold (normalized ws).
  rewrite existsb_negative_false by exact Hnn'.
  rewrite Hn1.
  rewrite bool_decide_eq_false_2
    by (rewrite Rminus_diag, Rabs_R0; pose proof atol_nonneg; lra).
  destruct (np_sum_pos_inv (normalized ws)) as (z & Hz & Hzpos); [lra|].
  assert (Hf : z ∈ filter (fun x : R => 0 < x) (normalized ws))
    by (apply list_elem_of_filter; auto).
  destruct (filter (fun x : R => 0 < x) (normalized ws)) as [|f0 fs] eqn:Ef;
    [inversion Hf|].
  simpl length. simpl Nat.ltb. cbv iota.
  reflexivity.
Qed.

(** ** The sampling weights *)

Lemma weight_pos lr dim x :
  0 < 1 / Rmax (exp (- (x - 1.4142135623730951) ^ 2 * INR dim)) lr.
Proof.
  apply Rdiv_lt_0_compat; [lra|].
  eapply Rlt_le_trans; [apply exp_pos|apply Rmax_l].
Qed.

Lemma weights_row_eq lr dim d i :
  weights_row lr dim d i =
  <[i := 0]>
    (map (fun x => 1 / Rmax (exp (- (x - 1.4142135623730951) ^ 2 * INR dim)) lr)
       d).
Proof. unfold weights_row. now rewrite map_map. Qed.

Lemma length_weights_row lr dim d i : length (weights_row lr dim d i) = length d.
Proof. unfold weights_row. now rewrite length_insert, !length_map. Qed.

Lemma sampling_weights_run dim d i w :
  (i < length d)%nat ->
  sampling_weights dim d i w =
  (Ok (weights_row (lambda_rev (self w)) dim d i), w).
Proof.
  intros Hi. unfold sampling_weights, bind, attr, setitem.
  rewrite !length_map.
  destruct (i <? length d)%nat eqn:E; [reflexivity|].
  apply Nat.ltb_ge in E. lia.
Qed.

(** The weights of the class block of the sample: zero for the sample
    itself, positive elsewhere. *)
Lemma slice_weights_row lr dim d i i_start spc :
  (i_start <= i < i_start + spc)%nat ->
  slice (weights_row lr dim d i) i_start (i_start + spc) =
  <[(i - i_start)%nat := 0]>
    (take spc (drop i_start
       (map (fun x =>
               1 / Rmax (exp (- (x - 1.4142135623730951) ^ 2 * INR dim)) lr)
          d))).
Proof.
  intros Hi. unfold slice. rewrite weights_row_eq.
  replace (i_start + spc - i_start)%nat with spc by lia.
  rewrite drop_insert_ge by lia. rewrite take_insert_lt by lia. reflexivity.
Qed.

(** The weights outside the class block: all of them positive. *)
Lemma delete_weights_row lr dim d i i_start spc :
  (i_start <= i < i_start + spc)%nat ->
  np_delete (weights_row lr dim d i) i_start (i_start + spc) =
  np_delete
    (map (fun x => 1 / Rmax (exp (- (x - 1.4142135623730951) ^ 2 * INR dim)) lr)
       d)
    i_start (i_start + spc).
Proof.
  intros Hi. unfold np_delete. rewrite weights_row_eq.
  rewrite take_insert_ge by lia. rewrite drop_insert_lt by lia. reflexivity.
Qed.

Lemma Forall_weights_pos lr dim d :
  Forall (fun x => 0 < x)
    (map (fun x => 1 / Rmax (exp (- (x - 1.4142135623730951) ^ 2 * INR dim)) lr)
       d).
Proof.
  apply Forall_forall. intros y Hy.
  apply list_elem_of_In, in_map_iff in Hy as (x & <- & _). apply weight_pos.
Qed.

Lemma Forall_pos_nonneg (l : list R) :
  Forall (fun x => 0 < x) l -> Forall (fun x => 0 <= x) l.
Proof.
  intros H. eapply Forall_impl; [exact H|]. simpl. intros x Hx. lra.
Qed.

(** Setting one of at least two positive weights to zero leaves a
    positive sum. *)
Lemma np_sum_insert_zero_pos (l : list R) t :
  Forall (fun x => 0 < x) l -> (2 <= length l)%nat ->
  0 < np_sum (<[t := 0]> l).
Proof.
  intros Hpos Hlen.
  set (t' := if (t =? 0)%nat then 1%nat else 0%nat).
  assert (Ht' : t <> t' /\ (t' < length l)%nat).
  { unfold t'. destruct (t =? 0)%nat eqn:E.
    - apply Nat.eqb_eq in E. lia.
    - apply Nat.eqb_neq in E. lia. }
  destruct Ht' as [Hne Hlt].
  destruct (lookup_lt_is_Some_2 l t' Hlt) as [v Hv].
  apply np_sum_pos with (x := v).
  - apply Forall_insert; [now apply Forall_pos_nonneg|lra].
  - apply list_elem_of_lookup_2 with (i := t').
    now rewrite list_lookup_insert_ne.
  - rewrite Forall_forall in Hpos. apply Hpos.
    eapply list_elem_of_lookup_2; eauto.
Qed.

Lemma nth_insert_zero (l : list R) t :
  nth t (<[t := 0]> l) 0 = 0.
Proof.
  rewrite nth_lookup. destruct (decide (t < length l)%nat) as [H|H].
  - now rewrite list_lookup_insert_eq.
  - rewrite lookup_ge_None_2; [reflexivity|]. rewrite length_insert. lia.
Qed.

(** Lines 78-80 under the loop's conditions: the positive index is drawn
    in the class block of the sample and differs from the sample. *)
Lemma select_positive_run lr dim d i i_start spc w :
  (2 <= spc)%nat ->
  (i_start <= i < i_start + spc)%nat ->
  (i_start + spc <= length d)%nat ->
  0 <= np_random w (np_random_pos w) < 1 ->
  let W := weights_row lr dim d i in
  let j := sampled_positive W i_start (i_start + spc)
             (np_random w (np_random_pos w)) in
  select_positive W i_start (i_start + spc) i w = (Ok j, advance w) /\
  (i_start <= j < i_start + spc)%nat /\ j <> i.
Proof.
  intros Hspc Hi Hlen Hx W j.
  set (L := take spc (drop i_start
       (map (fun x =>
               1 / Rmax (exp (- (x - 1.4142135623730951) ^ 2 * INR dim)) lr)
          d))).
  assert (HL : slice W i_start (i_start + spc) = <[(i - i_start)%nat := 0]> L)
    by now apply slice_weights_row.
  assert (HLpos : Forall (fun x => 0 < x) L)
    by (apply Forall_take, Forall_drop, Forall_weights_pos).
  assert (HLlen : length L = spc).
  { unfold L. rewrite length_take, length_drop, length_map. lia. }
  destruct (np_random_choice_run (range i_start (i_start + spc))
              (slice W i_start (i_start + spc)) w) as (Hidx & Hw & Hrun).
  - rewrite HL. apply np_sum_insert_zero_pos; [exact HLpos|lia].
  - rewrite HL. apply Forall_insert; [now apply Forall_pos_nonneg|lra].
  - rewrite HL, length_insert, HLlen. unfold range.
    rewrite length_seq. lia.
  - exact Hx.
  - set (idx := choice_index (normalized (slice W i_start (i_start + spc)))
                  (np_random w (np_random_pos w))) in *.
    rewrite HL, length_insert, HLlen in Hidx.
    assert (Hne : idx <> (i - i_start)%nat).
    { intros E. rewrite HL, E, nth_insert_zero in Hw. lra. }
    assert (Hj : j = (i_start + idx)%nat) by reflexivity.
    split; [|lia].
    unfold select_positive. unfold bind at 1. rewrite Hrun.
    unfold getitem, range.
    rewrite lookup_seq_lt by lia. fold idx. rewrite <- Hj.
    unfold bind. simpl.
    destruct (j =? i)%nat eqn:E; [apply Nat.eqb_eq in E; lia|].
    reflexivity.
Qed.

(** Lines 83-86 under the loop's conditions: the negative index is drawn
    in the batch, outside the class block of the sample. *)
Lemma select_negative_run lr dim d i i_start spc w :
  spc_of (self w) = spc ->
  (1 <= spc)%nat ->
  (i_start <= i < i_start + spc)%nat ->
  (i_start + spc <= length d)%nat ->
  (spc < length d)%nat ->
  0 <= np_random w (np_random_pos w) < 1 ->
  let W := weights_row lr dim d i in
  let k := sampled_negative W spc i_start (i_start + spc)
             (np_random w (np_random_pos w)) in
  select_negative W (length d) i_start (i_start + spc) w = (Ok k, advance w) /\
  (k < length d)%nat /\ ~ (i_start <= k < i_start + spc)%nat.
Proof.
  intros Hs Hspc Hi Hlen Hn Hx W k.
  set (g := fun x =>
              1 / Rmax (exp (- (x - 1.4142135623730951) ^ 2 * INR dim)) lr).
  assert (HW : np_delete W i_start (i_start + spc) =
               np_delete (map g d) i_start (i_start + spc))
    by now apply delete_weights_row.
  assert (Hpos : Forall (fun x => 0 < x)
                   (np_delete (map g d) i_start (i_start + spc))).
  { unfold np_delete. apply Forall_app. split.
    - apply Forall_take, Forall_weights_pos.
    - apply Forall_drop, Forall_weights_pos. }
  assert (Hdl : length (np_delete (map g d) i_start (i_start + spc))
                = (length d - spc)%nat).
  { unfold np_delete.
    rewrite length_app, length_take, length_drop, length_map. lia. }
  destruct (np_random_choice_run (range 0 (length d - spc))
              (np_delete W i_start (i_start + spc)) w) as (Hidx & Hw & Hrun).
  - rewrite HW.
    destruct (np_delete (map g d) i_start (i_start + spc)) as [|v l] eqn:E;
      [simpl in Hdl; lia|].
    apply Forall_cons in Hpos as [Hv Hl].
    apply np_sum_pos with (x := v);
      [apply Forall_pos_nonneg; now constructor|left|exact Hv].
  - rewrite HW. now apply Forall_pos_nonneg.
  - rewrite HW, Hdl. unfold range. rewrite length_seq. lia.
  - exact Hx.
  - set (idx := choice_index
                  (normalized (np_delete W i_start (i_start + spc)))
                  (np_random w (np_random_pos w))) in *.
    rewrite HW, Hdl in Hidx.
    assert (Hk : k = if (i_start <=? idx)%nat then (idx + spc)%nat else idx)
      by reflexivity.
    split.
    + unfold select_negative. unfold bind at 1. unfold attr at 1.
      rewrite Hs. unfold bind at 1. rewrite Hrun.
      unfold getitem, range. rewrite lookup_seq_lt by lia.
      simpl. unfold bind, attr. simpl. rewrite Hs. fold idx.
      now rewrite <- Hk.
    + rewrite Hk. destruct (i_start <=? idx)%nat eqn:E.
      * apply Nat.leb_le in E. lia.
      * apply Nat.leb_gt in E. lia.
Qed.

(** ** One sample of the loop *)

Lemma index2_run (D : list (list R)) i j w :
  (i < length D)%nat -> (j < length (nth i D []))%nat ->
  index2 D i j w = (Ok (entry D i j), w).
Proof.
  intros Hi Hj. unfold index2, bind, getitem, entry.
  destruct (lookup_lt_is_Some_2 D i Hi) as [row Hrow].
  rewrite Hrow. rewrite (nth_lookup_Some _ _ _ _ Hrow) in *.
  destruct (lookup_lt_is_Some_2 row j Hj) as [v Hv].
  simpl. rewrite Hv. now rewrite (nth_lookup_Some _ _ _ _ Hv).
Qed.

Lemma block_start_bounds spc m i :
  (0 < spc)%nat -> (i < m * spc)%nat ->
  (block_start spc i <= i < block_start spc i + spc)%nat /\
  (block_start spc i + spc <= m * spc)%nat.
Proof.
  intros Hs Hi. unfold block_start.
  pose proof (Nat.div_mod_eq i spc) as E.
  pose proof (Nat.mod_upper_bound i spc ltac:(lia)) as Hr.
  assert (i / spc < m)%nat by (apply Nat.Div0.div_lt_upper_bound; lia).
  split; [lia|]. nia.
Qed.

Section Sample.
Variables (cfg : Config) (n dim spc m : nat) (D : list (list R)).
Variables (u : nat -> R) (p0 : nat).
Hypothesis Hspc : (2 <= spc)%nat.
Hypothesis Hn : n = (m * spc)%nat.
Hypothesis Hm : (2 <= m)%nat.
Hypothesis HD : length D = n.
Hypothesis HDrows : Forall (fun row => length row = n) D.
Hypothesis Hcfg : samples_per_class (data (c_params cfg)) = spc.
Hypothesis Hu : forall k, 0 <= u k < 1.

Lemma row_length i : (i < n)%nat -> length (nth i D []) = n.
Proof.
  intros Hi. rewrite Forall_forall in HDrows. apply HDrows.
  apply list_elem_of_In, nth_In. lia.
Qed.

(** The body of the loop, run for sample [i] in the state reached after
    the samples below [i], adds the two hinge terms of sample [i] and
    reaches the state after sample [i]. *)
Lemma mb_loss_sample_run i acc w :
  loop_inv cfg n dim spc D u p0 i acc w ->
  (i < n)%nat ->
  exists acc' w',
    mb_loss_sample n dim (block_start spc i) (block_start spc i + spc) i acc w
      = (Ok acc', w') /\
    loop_inv cfg n dim spc D u p0 (S i) acc' w'.
Proof.
  intros (Hc & Hr & Hp & Hd & Hacc & [tp Htp] & [tn Htn] & [fp Hfp]
          & [fn Hfn] & Hmb) Hi.
  destruct (block_start_bounds spc m i) as [Hb1 Hb2]; [lia..|].
  rewrite <- Hn in Hb2.
  pose proof (row_length i Hi) as Hrow.
  assert (HDi : D !! i = Some (nth i D [])).
  { destruct (nth_lookup_or_length D i []) as [E|E]; [exact E|lia]. }
  assert (Hlr : lambda_rev (self w) = c_lambda_rev cfg) by now rewrite <- Hc.
  assert (Hsp : spc_of (self w) = spc) by now rewrite <- Hcfg, <- Hc.
  set (bs := block_start spc i) in *.
  set (W := sample_weights cfg dim D i).
  destruct (select_positive_run (c_lambda_rev cfg) dim (nth i D []) i bs spc w)
    as (Hpos & Hj1 & Hj2); [lia|lia|lia|rewrite Hr; apply Hu|].
  destruct (select_negative_run (c_lambda_rev cfg) dim (nth i D []) i bs spc
              (advance w))
    as (Hneg & Hk1 & Hk2); [exact Hsp|lia|lia|lia|nia|simpl; rewrite Hr; apply Hu|].
  simpl in Hpos, Hj1, Hj2, Hneg, Hk1, Hk2.
  rewrite Hr, Hp in Hpos, Hj1, Hj2, Hneg, Hk1, Hk2.
  rewrite Hrow in Hneg, Hk1.
  assert (HW : weights_row (c_lambda_rev cfg) dim (nth i D []) i = W)
    by reflexivity.
  rewrite HW in Hpos, Hj1, Hj2, Hneg, Hk1, Hk2.
  set (j := positive_of cfg dim spc D u p0 i).
  set (k := negative_of cfg dim spc D u p0 i).
  assert (Hj : sampled_positive W bs (bs + spc) (u (p0 + 2 * i)%nat) = j)
    by reflexivity.
  assert (Hk : sampled_negative W spc bs (bs + spc) (u (S (p0 + 2 * i))) = k)
    by reflexivity.
  rewrite Hj in Hpos, Hj1, Hj2. rewrite Hk in Hneg, Hk1, Hk2.
  assert (E1 : getattr d_ij w = (Ok D, w))
    by (unfold getattr; now rewrite Hd).
  assert (E2 : getitem D i w = (Ok (nth i D []), w))
    by (unfold getitem; now rewrite HDi).
  assert (E3 : sampling_weights dim (nth i D []) i w = (Ok W, w))
    by (rewrite sampling_weights_run by lia; now rewrite Hlr).
  unfold mb_loss_sample.
  rewrite (bind_ok _ _ _ _ _ E1). cbv beta.
  rewrite (bind_ok _ _ _ _ _ E2). cbv beta.
  rewrite (bind_ok _ _ _ _ _ E3). cbv beta.
  rewrite (bind_ok _ _ _ _ _ Hpos). cbv beta.
  rewrite bind_attr.
  rewrite (bind_ok _ _ _ _ _ (index2_run D i j _ ltac:(lia) ltac:(lia))).
  cbv beta. rewrite bind_attr. cbv zeta.
  rewrite (bind_ok _ _ _ _ _ Hneg). cbv beta.
  rewrite (bind_ok _ _ _ _ _ (index2_run D i k _ ltac:(lia) ltac:(lia))).
  cbv beta.
  unfold bind, setattr, getattr, attr, ret. simpl.
  rewrite Hfn. simpl. rewrite Htp. simpl. rewrite Hfp. simpl.
  rewrite Htn. simpl.
  eexists. eexists. split; [reflexivity|].
  assert (Ha : mb_loss_alpha (model (self w)) = c_alpha cfg) by now rewrite <- Hc.
  assert (Hbt : mb_loss_beta (model (self w)) = c_beta cfg) by now rewrite <- Hc.
  rewrite Ha, Hbt. unfold loop_inv.
  split; [rewrite <- Hc; reflexivity|].
  split; [exact Hr|].
  split; [simpl; lia|].
  split; [exact Hd|].
  split.
  { rewrite seq_S, map_app, np_sum_app, <- Hacc.
    change (map (hinge_terms cfg dim spc D u p0) [(0 + i)%nat])
      with [hinge_terms cfg dim spc D u p0 i].
    rewrite np_sum_cons, np_sum_nil. unfold hinge_terms, hinge_pos, hinge_neg.
    fold j k. lra. }
  repeat split; try (eexists; reflexivity).
Qed.

Lemma block_start_in_block b r :
  (r < spc)%nat -> block_start spc (b * spc + r) = (b * spc)%nat.
Proof.
  intros Hr. unfold block_start.
  rewrite Nat.div_add_l by lia. rewrite Nat.div_small by lia. lia.
Qed.

(** The inner loop over the class block [b], from its sample [spc - t] on. *)
Lemma inner_loop_run b t : forall acc w,
  (b < m)%nat -> (t <= spc)%nat ->
  loop_inv cfg n dim spc D u p0 (b * spc + (spc - t)) acc w ->
  exists acc' w',
    for_each (seq (b * spc + (spc - t)) t) acc
      (fun i loss => mb_loss_sample n dim (b * spc) (b * spc + spc) i loss) w
      = (Ok acc', w') /\
    loop_inv cfg n dim spc D u p0 (b * spc + spc) acc' w'.
Proof.
  induction t as [|t IH]; intros acc w Hb Ht Hinv.
  - exists acc, w. split; [reflexivity|].
    now rewrite Nat.sub_0_r in Hinv.
  - simpl seq. simpl for_each.
    destruct (mb_loss_sample_run (b * spc + (spc - S t)) acc w Hinv)
      as (acc1 & w1 & Hrun & Hinv1); [nia|].
    rewrite block_start_in_block in Hrun by lia.
    rewrite (bind_ok _ _ _ _ _ Hrun).
    replace (S (b * spc + (spc - S t))) with (b * spc + (spc - t))%nat
      in * by lia.
    apply IH; [exact Hb|lia|exact Hinv1].
Qed.

(** The outer loop over the class blocks [b], ..., [b + c - 1]. *)
Lemma outer_loop_run c : forall b acc w,
  (b + c = m)%nat ->
  loop_inv cfg n dim spc D u p0 (b * spc) acc w ->
  exists acc' w',
    for_each (map (fun b => (b * spc)%nat) (seq b c)) acc
      (fun i_start loss =>
         spc0 <- attr spc_of ;;
         let i_end := (i_start + spc0)%nat in
         for_each (range i_start i_end) loss (fun i loss =>
           mb_loss_sample n dim i_start i_end i loss)) w
      = (Ok acc', w') /\
    loop_inv cfg n dim spc D u p0 n acc' w'.
Proof.
  induction c as [|c IH]; intros b acc w Hbc Hinv.
  - exists acc, w. split; [reflexivity|].
    replace (b * spc)%nat with n in Hinv by nia. exact Hinv.
  - simpl seq. simpl map. simpl for_each.
    assert (Hsp : spc_of (self w) = spc).
    { destruct Hinv as (Hc & _). now rewrite <- Hcfg, <- Hc. }
    destruct (inner_loop_run b spc acc w) as (acc1 & w1 & Hrun & Hinv1);
      [lia|lia|now rewrite Nat.sub_diag, Nat.add_0_r|].
    rewrite Nat.sub_diag, Nat.add_0_r in Hrun.
    unfold bind at 1. rewrite bind_attr, Hsp. cbv zeta.
    unfold range. replace (b * spc + spc - b * spc)%nat with spc by lia.
    rewrite Hrun.
    apply (IH (S b)); [lia|].
    replace (S b * spc)%nat with (b * spc + spc)%nat by lia. exact Hinv1.
Qed.

Lemma blocks_count : ((n + spc - 1) / spc = m)%nat.
Proof.
  rewrite Hn. replace (m * spc + spc - 1)%nat with (m * spc + (spc - 1))%nat
    by lia.
  rewrite Nat.div_add_l by lia. rewrite Nat.div_small by lia. lia.
Qed.

(** Lines 70-98 from the state in which no sample is done. *)
Lemma mb_loss_loops_run w :
  loop_inv cfg n dim spc D u p0 0 0 w ->
  exists acc' w',
    mb_loss_loops n dim 0 w = (Ok acc', w') /\
    loop_inv cfg n dim spc D u p0 n acc' w'.
Proof.
  intros Hinv.
  assert (Hsp : spc_of (self w) = spc).
  { destruct Hinv as (Hc & _). now rewrite <- Hcfg, <- Hc. }
  unfold mb_loss_loops. rewrite bind_attr, Hsp.
  unfold range_step. destruct (spc =? 0)%nat eqn:E;
    [apply Nat.eqb_eq in E; lia|].
  rewrite blocks_count.
  change (bind (ret ?l) ?k w) with (k l w). cbv beta.
  apply (outer_loop_run m 0); [lia|exact Hinv].
Qed.

(** Lines 99-103 from the state in which every sample is done. *)
Lemma mb_loss_end_run acc w :
  loop_inv cfg n dim spc D u p0 n acc w ->
  exists w',
    mb_loss_end n w = (Ok (acc / INR n), w') /\
    np_random_pos w' = (p0 + 2 * n)%nat.
Proof.
  intros (Hc & Hr & Hp & Hd & Hacc & [tp Htp] & [tn Htn] & [fp Hfp]
          & [fn Hfn] & Hmb).
  specialize (Hmb ltac:(nia)).
  unfold mb_loss_end, bind, getattr, setattr. simpl.
  rewrite Htp. simpl. rewrite Htn. simpl. rewrite Hfp. simpl.
  rewrite Hfn. simpl. rewrite Hmb.
  eexists. split; [reflexivity|]. exact Hp.
Qed.

End Sample.

(** ** The whole run of [mb_loss] *)

Lemma distances_shape n dim (E : list (list R)) :
  length E = n ->
  Forall (fun e => length e = dim) E ->
  length (clamped_sqrt (squared_distances n dim E)) = n /\
  Forall (fun row => length row = n) (clamped_sqrt (squared_distances n dim E)).
Proof.
  intros Hn Hrows. rewrite (distances_closed n dim E Hn Hrows).
  split; [now rewrite length_map|].
  apply Forall_forall. intros row Hrow.
  apply list_elem_of_In, in_map_iff in Hrow as (a & <- & _).
  now rewrite length_map.
Qed.

(** On a well-formed batch of [m >= 2] class blocks of [spc >= 2] samples,
    with draws in [0, 1), [mb_loss] returns the mean of the hinge terms of
    its samples and takes two draws per sample. *)
Lemma mb_loss_run net y w pe n dim spc m :
  net !! 1%nat = Some pe ->
  shape pe = [n; dim] ->
  well_formed pe ->
  spc_of (self w) = spc ->
  (2 <= spc)%nat ->
  n = (m * spc)%nat ->
  (2 <= m)%nat ->
  (forall k, 0 <= np_random w k < 1) ->
  exists w',
    mb_loss net y w =
    (Ok (np_sum
           (map (hinge_terms (config_of w) dim spc
                   (clamped_sqrt
                      (squared_distances n dim (tensor_rows n dim pe)))
                   (np_random w) (np_random_pos w))
                (seq 0 n)) / INR n), w') /\
    np_random_pos w' = (np_random_pos w + 2 * n)%nat.
Proof.
  intros Hnet Hshape Hwf Hsp Hspc Hn Hm Hu.
  set (D := clamped_sqrt (squared_distances n dim (tensor_rows n dim pe))).
  destruct (distances_shape n dim (tensor_rows n dim pe)) as [HD HDrows];
    [apply length_tensor_rows|now apply tensor_rows_lengths|].
  fold D in HD, HDrows.
  rewrite (mb_loss_unfold net y w pe n dim Hnet Hshape) by nia.
  assert (Hinv : loop_inv (config_of w) n dim spc D (np_random w)
                   (np_random_pos w) 0 0 (after_distances n dim pe w)).
  { unfold loop_inv. repeat split; try (eexists; reflexivity).
    - simpl. lia.
    - intros H. lia. }
  destruct (mb_loss_loops_run (config_of w) n dim spc m D (np_random w)
              (np_random_pos w) Hspc Hn Hm HD HDrows Hsp Hu _ Hinv)
    as (acc & w1 & Hrun & Hinv1).
  rewrite (bind_ok _ _ _ _ _ Hrun).
  destruct (mb_loss_end_run (config_of w) n dim spc m D (np_random w)
              (np_random_pos w) Hspc Hn Hm HD Hsp acc w1 Hinv1)
    as (w' & Hend & Hpos).
  exists w'. rewrite Hend. split; [|exact Hpos].
  destruct Hinv1 as (_ & _ & _ & _ & -> & _). reflexivity.
Qed.

(** ** The counters *)

Lemma foldl_Rplus a l : foldl Rplus a l = a + np_sum l.
Proof.
  revert a. induction l as [|x l IH]; intros a; simpl.
  - rewrite np_sum_nil. lra.
  - rewrite IH, np_sum_cons. lra.
Qed.

Lemma py_sum_eq l : py_sum l = np_sum l.
Proof. unfold py_sum. rewrite foldl_Rplus. lra. Qed.

(** Every distance is counted once, as positive or as negative. *)
Lemma indicator_sum beta (l : list R) :
  py_sum (map (fun x => if decide (x <= beta) then 1 else 0) l) +
  py_sum (map (fun x => if decide (x > beta) then 1 else 0) l) =
  INR (length l).
Proof.
  rewrite !py_sum_eq. induction l as [|x l IH].
  - simpl. rewrite !np_sum_nil. lra.
  - cbn [map length]. rewrite !np_sum_cons, S_INR.
    destruct (decide (x <= beta)), (decide (x > beta)); lra.
Qed.

Lemma slice_map {A B} (f : A -> B) l a b :
  slice (map f l) a b = map f (slice l a b).
Proof. unfold slice. now rewrite skipn_map, firstn_map. Qed.

Lemma block_counts beta (d : list R) bs spc :
  (bs + spc <= length d)%nat ->
  let positive := map (fun x => if decide (x <= beta) then 1 else 0) d in
  let negative := map (fun x => if decide (x > beta) then 1 else 0) d in
  py_sum (slice positive bs (bs + spc)) + py_sum (slice negative bs (bs + spc))
    = INR spc /\
  (py_sum (take bs negative) + py_sum (drop (bs + spc) negative)) +
  (py_sum (take bs positive) + py_sum (drop (bs + spc) positive))
    = INR (length d - spc).
Proof.
  intros Hlen positive negative. unfold positive, negative. split.
  - rewrite !slice_map, indicator_sum. f_equal. unfold slice.
    rewrite length_take, length_drop. lia.
  - rewrite !firstn_map, !skipn_map.
    pose proof (indicator_sum beta (take bs d)) as H1.
    pose proof (indicator_sum beta (drop (bs + spc) d)) as H2.
    rewrite length_take in H1. rewrite length_drop in H2.
    replace (length d - spc)%nat
      with (Nat.min bs (length d) + (length d - (bs + spc)))%nat by lia.
    rewrite plus_INR. lra.
Qed.

Lemma select_positive_self W i_start i_end i :
  preserves self (select_positive W i_start i_end i).
Proof.
  unfold select_positive.
  preserves_auto; apply preserves_np_random_choice; now intros ?.
Qed.

Lemma select_negative_self W n i_start i_end :
  preserves self (select_negative W n i_start i_end).
Proof.
  unfold select_negative.
  preserves_auto; apply preserves_np_random_choice; now intros ?.
Qed.

Lemma pure_run {A} (c : M A) w r w' : pure_comp c -> c w = (r, w') -> w' = w.
Proof. intros [r0 Hr] H. rewrite Hr in H. now injection H as _ <-. Qed.

Section Counters.
Variables (n dim spc : nat) (D : list (list R)).
Hypothesis HD : length D = n.
Hypothesis HDrows : Forall (fun row => length row = n) D.

(** A sample that is processed without an exception adds [spc] to the
    counts within the class blocks and [n - spc] to those beyond. *)
Lemma mb_loss_sample_counts bs i acc w acc' w' within beyond :
  mb_loss_sample n dim bs (bs + spc) i acc w = (Ok acc', w') ->
  (bs + spc <= n)%nat ->
  counted D within beyond w ->
  counted D (within + INR spc) (beyond + INR (n - spc)) w' /\
  spc_of (self w') = spc_of (self w).
Proof.
  intros Hrun Hbs (Hd & tp & tn & fp & fn & Hcnt & Hin & Hout).
  unfold counters in Hcnt. injection Hcnt as Htp Htn Hfp Hfn.
  unfold mb_loss_sample in Hrun.
  rewrite (bind_ok _ _ w D w) in Hrun by (unfold getattr; now rewrite Hd).
  unfold bind at 1 in Hrun.
  destruct (getitem D i w) as [[d|e] w0] eqn:E0; [|discriminate].
  assert (Hdlen : length d = n).
  { unfold getitem in E0. destruct (D !! i) as [d'|] eqn:E; [|discriminate].
    injection E0 as <- _. rewrite Forall_forall in HDrows.
    apply HDrows. eapply list_elem_of_lookup_2; eauto. }
  apply pure_run in E0 as Hw0; [subst w0|apply pure_getitem].
  unfold bind at 1 in Hrun.
  destruct (sampling_weights dim d i w) as [[W|e] w0] eqn:E1; [|discriminate].
  assert (w0 = w) as ->.
  { unfold sampling_weights, bind, attr, setitem in E1.
    destruct (_ <? _)%nat; now injection E1 as _ <-. }
  unfold bind at 1 in Hrun.
  pose proof (select_positive_self W bs (bs + spc) i w) as Hs1.
  destruct (select_positive W bs (bs + spc) i w) as [[j|e] w1];
    [|discriminate].
  simpl in Hs1. rewrite bind_attr in Hrun.
  unfold bind at 1 in Hrun.
  destruct (index2 D i j w1) as [[dij|e] w1'] eqn:E2; [|discriminate].
  apply pure_run in E2; [subst w1'|apply pure_index2].
  rewrite bind_attr in Hrun. cbv zeta in Hrun.
  unfold bind at 1 in Hrun.
  pose proof (select_negative_self W n bs (bs + spc) w1) as Hs2.
  destruct (select_negative W n bs (bs + spc) w1) as [[k|e] w2];
    [|discriminate].
  simpl in Hs2. rewrite Hs1 in Hs2.
  unfold bind at 1 in Hrun.
  destruct (index2 D i k w2) as [[dik|e] w2'] eqn:E3; [|discriminate].
  apply pure_run in E3; [subst w2'|apply pure_index2].
  unfold bind, setattr, getattr, ret in Hrun. simpl in Hrun.
  rewrite Hs2 in Hrun.
  rewrite Hfn in Hrun. simpl in Hrun. rewrite Htp in Hrun. simpl in Hrun.
  rewrite Hfp in Hrun. simpl in Hrun. rewrite Htn in Hrun. simpl in Hrun.
  injection Hrun as _ <-.
  destruct (block_counts (mb_loss_beta (model (self w1))) d bs spc)
    as [Hc1 Hc2]; [lia|].
  rewrite Hdlen in Hc2.
  split; [|reflexivity].
  split; [exact Hd|].
  eexists _, _, _, _. split; [reflexivity|]. split; lra.
Qed.

(** The inner loop over [t] samples of a class block. *)
Lemma inner_loop_counts bs t : forall x acc w acc' w' within beyond,
  for_each (seq x t) acc
    (fun i loss => mb_loss_sample n dim bs (bs + spc) i loss) w = (Ok acc', w') ->
  (bs + spc <= n)%nat ->
  counted D within beyond w ->
  counted D (within + INR (t * spc)) (beyond + INR (t * (n - spc))) w' /\
  spc_of (self w') = spc_of (self w).
Proof.
  induction t as [|t IH]; intros x acc w acc' w' within beyond Hrun Hbs Hc.
  - injection Hrun as _ <-. simpl. rewrite !Rplus_0_r. auto.
  - simpl seq in Hrun. simpl for_each in Hrun. unfold bind at 1 in Hrun.
    destruct (mb_loss_sample n dim bs (bs + spc) x acc w) as [[a|e] w1] eqn:E;
      [|discriminate].
    destruct (mb_loss_sample_counts _ _ _ _ _ _ _ _ E Hbs Hc) as [Hc1 Hs1].
    destruct (IH _ _ _ _ _ _ _ Hrun Hbs Hc1) as [Hc2 Hs2].
    split; [|congruence].
    replace (S t * spc)%nat with (spc + t * spc)%nat by lia.
    replace (S t * (n - spc))%nat with ((n - spc) + t * (n - spc))%nat by lia.
    rewrite !plus_INR, <- !Rplus_assoc.
    exact Hc2.
Qed.

(** The outer loop over [c] class blocks from block [b] on. *)
Lemma outer_loop_counts c : forall b acc w acc' w' within beyond,
  for_each (map (fun b => (b * spc)%nat) (seq b c)) acc
    (fun i_start loss =>
       spc0 <- attr spc_of ;;
       let i_end := (i_start + spc0)%nat in
       for_each (range i_start i_end) loss (fun i loss =>
         mb_loss_sample n dim i_start i_end i loss)) w = (Ok acc', w') ->
  spc_of (self w) = spc ->
  ((b + c) * spc <= n)%nat ->
  counted D within beyond w ->
  counted D (within + INR (c * spc * spc))
            (beyond + INR (c * spc * (n - spc))) w'.
Proof.
  induction c as [|c IH]; intros b acc w acc' w' within beyond Hrun Hs Hb Hc.
  - injection Hrun as _ <-. simpl. now rewrite !Rplus_0_r.
  - simpl seq in Hrun. simpl map in Hrun. simpl for_each in Hrun.
    unfold bind at 1 in Hrun. rewrite bind_attr, Hs in Hrun. cbv zeta in Hrun.
    unfold range in Hrun.
    replace (b * spc + spc - b * spc)%nat with spc in Hrun by lia.
    destruct (for_each (seq (b * spc) spc) acc _ w) as [[a|e] w1] eqn:E;
      [|discriminate].
    destruct (inner_loop_counts _ _ _ _ _ _ _ _ _ E ltac:(nia) Hc)
      as [Hc1 Hs1].
    rewrite Hs in Hs1.
    pose proof (IH _ _ _ _ _ _ _ Hrun Hs1 ltac:(nia) Hc1) as Hc2.
    replace (S c * spc * spc)%nat with (spc * spc + c * spc * spc)%nat by lia.
    replace (S c * spc * (n - spc))%nat
      with (spc * (n - spc) + c * spc * (n - spc))%nat by lia.
    rewrite !plus_INR, <- !Rplus_assoc. exact Hc2.
Qed.

End Counters.

Lemma distances_shape_any n dim (E : list (list R)) :
  length E = n ->
  length (clamped_sqrt (squared_distances n dim E)) = n /\
  Forall (fun row => length row = n) (clamped_sqrt (squared_distances n dim E)).
Proof.
  intros Hn. unfold clamped_sqrt, squared_distances, mm.
  split.
  - rewrite length_map, length_zip_with, !length_map. lia.
  - apply Forall_forall. intros row Hrow.
    apply list_elem_of_In, in_map_iff in Hrow as (r & <- & Hr).
    rewrite length_map.
    apply list_elem_of_In, list_elem_of_lookup in Hr as [i Hi].
    apply lookup_zip_with_Some in Hi as (a & b & -> & Ha & Hb).
    apply list_elem_of_lookup_2, list_elem_of_In, in_map_iff in Ha
      as (? & <- & _).
    apply list_elem_of_lookup_2, list_elem_of_In, in_map_iff in Hb
      as (? & <- & _).
    rewrite length_zip_with, !length_map, length_seq. lia.
Qed.

Lemma mb_loss_empty net y w pe rest :
  net !! 1%nat = Some pe -> shape pe = 0%nat :: rest ->
  fst (mb_loss net y w) = Raise IndexError.
Proof.
  intros Hnet Hshape. unfold mb_loss, watch, getitem, len, tensor_first.
  unfold bind at 1. simpl. rewrite Hnet.
  unfold bind at 1. simpl. rewrite Hshape. reflexivity.
Qed.

Lemma blocks_count_any m spc :
  (1 <= spc)%nat -> ((m * spc + spc - 1) / spc = m)%nat.
Proof.
  intros Hs.
  replace (m * spc + spc - 1)%nat with (m * spc + (spc - 1))%nat by lia.
  rewrite Nat.div_add_l by lia. rewrite Nat.div_small by lia. lia.
Qed.

(** Whenever [mb_loss] returns on a batch of [m >= 1] class blocks, the
    counters it leaves add up to the sizes of a block and of its
    complement. *)
Lemma mb_loss_counts net y w v w' pe n dim m :
  mb_loss net y w = (Ok v, w') ->
  net !! 1%nat = Some pe ->
  shape pe = [n; dim] ->
  n = (m * spc_of (self w))%nat ->
  (1 <= m)%nat ->
  exists tp tn fp fn,
    counters w' = (Some tp, Some tn, Some fp, Some fn) /\
    tp + fn = INR (spc_of (self w)) /\
    tn + fp = INR n - INR (spc_of (self w)).
Proof.
  intros Hrun Hnet Hshape Hn Hm.
  set (spc := spc_of (self w)) in *.
  destruct (decide (n = 0%nat)) as [Hz|Hz].
  { subst n. pose proof (mb_loss_empty net y w pe [dim] Hnet) as He.
    rewrite Hz in Hshape. specialize (He Hshape).
    rewrite Hrun in He. discriminate. }
  assert (Hspc : (1 <= spc)%nat) by nia.
  rewrite (mb_loss_unfold net y w pe n dim Hnet Hshape Hz) in Hrun.
  set (D := clamped_sqrt (squared_distances n dim (tensor_rows n dim pe))).
  destruct (distances_shape_any n dim (tensor_rows n dim pe)) as [HD HDrows];
    [apply length_tensor_rows|]. fold D in HD, HDrows.
  unfold bind at 1 in Hrun.
  destruct (mb_loss_loops n dim 0 (after_distances n dim pe w))
    as [[acc|e] w1] eqn:E; [|discriminate].
  unfold mb_loss_loops in E. rewrite bind_attr in E.
  change (spc_of (self (after_distances n dim pe w))) with spc in E.
  unfold range_step in E.
  destruct (spc =? 0)%nat eqn:Es; [apply Nat.eqb_eq in Es; lia|].
  rewrite Hn, blocks_count_any in E by exact Hspc. rewrite <- Hn in E.
  change (bind (ret ?l) ?k ?w0) with (k l w0) in E. cbv beta in E.
  assert (Hc0 : counted D 0 0 (after_distances n dim pe w)).
  { split; [reflexivity|]. exists 0, 0, 0, 0.
    split; [reflexivity|]. split; lra. }
  pose proof (outer_loop_counts n dim spc D HD HDrows m 0 _ _ _ _ 0 0 E
                eq_refl ltac:(lia) Hc0) as (Hd & tp & tn & fp & fn & Hcnt & Hin & Hout).
  unfold counters in Hcnt. injection Hcnt as Htp Htn Hfp Hfn.
  unfold mb_loss_end, bind, getattr, setattr in Hrun. simpl in Hrun.
  rewrite Htp in Hrun. simpl in Hrun. rewrite Htn in Hrun. simpl in Hrun.
  rewrite Hfp in Hrun. simpl in Hrun. rewrite Hfn in Hrun. simpl in Hrun.
  destruct (mb_loss_val (self w1)) as [mv|]; [|discriminate].
  injection Hrun as _ <-.
  exists (tp / INR n), (tn / INR n), (fp / INR n), (fn / INR n).
  split; [reflexivity|].
  assert (Hn0 : INR n <> 0) by (apply not_0_INR; exact Hz).
  rewrite Rplus_0_l in Hin, Hout.
  split.
  - replace (tp / INR n + fn / INR n) with ((tp + fn) / INR n)
      by (unfold Rdiv; lra).
    rewrite Hin. replace (m * spc * spc)%nat with (n * spc)%nat by nia.
    rewrite mult_INR. field. exact Hn0.
  - replace (tn / INR n + fp / INR n) with ((tn + fp) / INR n)
      by (unfold Rdiv; lra).
    rewrite Hout. replace (m * spc * (n - spc))%nat with (n * (n - spc))%nat
      by nia.
    rewrite mult_INR, minus_INR by nia. field. exact Hn0.
Qed.

(** ** Batches that are not made of class blocks *)

Lemma length_np_divide ws s : length (np_divide ws s) = length ws.
Proof. unfold np_divide. now rewrite length_map. Qed.

Lemma np_random_choice_size_mismatch a p w :
  a <> [] -> length p <> length a ->
  np_random_choice a p w = (Raise ValueError, w).
Proof.
  intros Ha Hp. unfold np_random_choice.
  destruct (length a =? 0)%nat eqn:E.
  { apply Nat.eqb_eq in E. destruct a; [contradiction|discriminate]. }
  destruct (length p =? length a)%nat eqn:E'.
  { apply Nat.eqb_eq in E'. contradiction. }
  reflexivity.
Qed.

(** A batch with fewer samples than a class block is rejected by the
    sampling of the first positive pair. *)
Lemma mb_loss_small_batch net y w pe n dim :
  net !! 1%nat = Some pe ->
  shape pe = [n; dim] ->
  (1 <= n < spc_of (self w))%nat ->
  fst (mb_loss net y w) = Raise ValueError.
Proof.
  intros Hnet Hshape Hn.
  set (spc := spc_of (self w)) in *.
  rewrite (mb_loss_unfold net y w pe n dim Hnet Hshape) by lia.
  set (w1 := after_distances n dim pe w).
  set (D := clamped_sqrt (squared_distances n dim (tensor_rows n dim pe))).
  destruct (distances_shape_any n dim (tensor_rows n dim pe)) as [HD HDrows];
    [apply length_tensor_rows|]. fold D in HD, HDrows.
  assert (Hloops : mb_loss_loops n dim 0 w1 = (Raise ValueError, w1)).
  { unfold mb_loss_loops. rewrite bind_attr.
    change (spc_of (self w1)) with spc.
    unfold range_step.
    destruct (spc =? 0)%nat eqn:Es; [apply Nat.eqb_eq in Es; lia|].
    replace ((n + spc - 1) / spc)%nat with 1%nat
      by (apply Nat.div_unique with (r := (n - 1)%nat); lia).
    change (bind (ret ?l) ?k ?w0) with (k l w0). cbv beta.
    simpl seq. simpl map. simpl for_each.
    apply bind_raise. rewrite bind_attr.
    change (spc_of (self w1)) with spc. cbv zeta.
    unfold range. simpl Nat.add.
    replace (spc - 0)%nat with (S (spc - 1)) by lia.
    simpl seq. simpl for_each.
    apply bind_raise.
    destruct (lookup_lt_is_Some_2 D 0 ltac:(lia)) as [d Hd].
    assert (Hdlen : length d = n).
    { rewrite Forall_forall in HDrows. apply HDrows.
      eapply list_elem_of_lookup_2; eauto. }
    unfold mb_loss_sample.
    rewrite (bind_ok _ _ w1 D w1) by reflexivity. cbv beta.
    rewrite (bind_ok _ _ w1 d w1) by (unfold getitem; now rewrite Hd).
    cbv beta.
    rewrite (bind_ok _ _ _ _ _ (sampling_weights_run dim d 0 w1 ltac:(lia))).
    cbv beta. apply bind_raise.
    unfold select_positive. apply bind_raise.
    apply np_random_choice_size_mismatch.
    - intros E. apply (f_equal length) in E. unfold range in E.
      rewrite length_seq in E. simpl in E. lia.
    - rewrite length_np_divide. unfold slice, range.
      rewrite length_take, length_drop, length_weights_row, length_seq. lia. }
  now rewrite (bind_raise _ _ _ _ _ Hloops).
Qed.

(** An input that is not two-dimensional is rejected. *)
Lemma mb_loss_not_2d net y w pe :
  net !! 1%nat = Some pe ->
  length (shape pe) <> 2%nat ->
  exists e, fst (mb_loss net y w) = Raise e.
Proof.
  intros Hnet Hshape. unfold mb_loss, watch, getitem, len, tensor_first.
  unfold bind at 1. simpl. rewrite Hnet.
  unfold bind at 1. simpl.
  destruct (shape pe) as [|n [|dim [|r rest]]] eqn:E.
  - now exists TypeError.
  - unfold bind at 1. simpl. unfold bind at 1. simpl.
    destruct (n =? 0)%nat; now exists IndexError.
  - contradiction.
  - unfold bind at 1. simpl. unfold bind at 1. simpl.
    destruct (n =? 0)%nat; [now exists IndexError|].
    simpl. now exists AssertionError.
Qed.

(** ** The selections of a sample *)

Lemma selection_run dim d i i_start spc w :
  (2 <= spc)%nat ->
  (i_start <= i < i_start + spc)%nat ->
  (i_start + spc <= length d)%nat ->
  (spc < length d)%nat ->
  spc_of (self w) = spc ->
  0 <= np_random w (np_random_pos w) < 1 ->
  let W := weights_row (lambda_rev (self w)) dim d i in
  let x := np_random w (np_random_pos w) in
  let j := sampled_positive W i_start (i_start + spc) x in
  let k := sampled_negative W spc i_start (i_start + spc) x in
  (W <- sampling_weights dim d i ;;
   select_positive W i_start (i_start + spc) i) w = (Ok j, advance w) /\
  (W <- sampling_weights dim d i ;;
   select_negative W (length d) i_start (i_start + spc)) w
    = (Ok k, advance w) /\
  (i_start <= j < i_start + spc)%nat /\ j <> i /\
  (k < length d)%nat /\ ~ (i_start <= k < i_start + spc)%nat.
Proof.
  intros Hspc Hi Hlen Hn Hs Hx W x j k.
  destruct (select_positive_run (lambda_rev (self w)) dim d i i_start spc w)
    as (Hp & Hj1 & Hj2); [lia|lia|lia|exact Hx|].
  destruct (select_negative_run (lambda_rev (self w)) dim d i i_start spc w)
    as (Hn' & Hk1 & Hk2); [exact Hs|lia|lia|lia|lia|exact Hx|].
  rewrite !(bind_ok _ _ _ _ _ (sampling_weights_run dim d i w ltac:(lia))).
  repeat split; try assumption; apply Hj1.
Qed.

(** * Further lemmas *)

(** ** The class dictionary over any list *)

(** In the dictionary built over any list, a key is bound to the last
    position that holds it. *)
Lemma classes_dict_lookup_last (l : list Z) c :
  match foldl (fun (m : gmap Z nat) iv => <[iv.2 := iv.1]> m) ∅ (enumerate l) !! c
  with
  | Some i => l !! i = Some c /\ forall j, l !! j = Some c -> (j <= i)%nat
  | None => c ∉ l
  end.
Proof.
  induction l as [|x l IH] using rev_ind.
  - simpl. rewrite lookup_empty. apply not_elem_of_nil.
  - rewrite enumerate_snoc, foldl_app. simpl.
    destruct (decide (x = c)) as [->|Hne].
    + rewrite lookup_insert_eq. split.
      * now rewrite list_lookup_middle.
      * intros j Hj. apply lookup_lt_Some in Hj.
        rewrite length_app in Hj. simpl in Hj. lia.
    + rewrite lookup_insert_ne by done.
      destruct (foldl _ _ _ !! c) as [i|].
      * destruct IH as [Hi Hlast]. split.
        -- now apply lookup_app_l_Some.
        -- intros j Hj. apply lookup_app_Some in Hj as [Hj|[Hlen Hj]];
             [now apply Hlast|].
           destruct (j - length l)%nat; simpl in Hj; [congruence|].
           now rewrite lookup_nil in Hj.
      * rewrite elem_of_app, list_elem_of_singleton. intros [H|H]; auto.
Qed.

(** ** Values that are returned from an attribute *)

Lemma returns_attr_getattr {A} (g : MarginBaseLoss -> option A) :
  returns_attr g (getattr g).
Proof.
  intros w v w' H. unfold getattr in H.
  destruct (g (self w)) eqn:E; [|discriminate].
  injection H as <- <-. exact E.
Qed.

Lemma returns_attr_bind {A B} (g : MarginBaseLoss -> option B) (c : M A)
    (k : A -> M B) :
  (forall a, returns_attr g (k a)) -> returns_attr g (bind c k).
Proof.
  intros Hk w v w' H. unfold bind in H.
  destruct (c w) as [[a|e] w1]; [|discriminate]. eapply Hk; eauto.
Qed.

Lemma returns_attr_raise {A} (g : MarginBaseLoss -> option A) e :
  returns_attr g (raise e).
Proof. intros w v w' H. discriminate. Qed.

Ltac returns_attr_tac :=
  repeat first
    [ apply returns_attr_getattr
    | apply returns_attr_raise
    | apply returns_attr_bind; intros ?
    | match goal with
      | |- returns_attr _ (watch _ _ _) => unfold watch
      | |- returns_attr _ (if ?b then _ else _) => destruct b
      | |- returns_attr _ (match ?x with _ => _ end) => destruct x
      end ].

Lemma l2_loss_returns_attr net y : returns_attr l2_loss_val (l2_loss net y).
Proof. unfold l2_loss. returns_attr_tac. Qed.

Lemma mb_loss_returns_attr net y : returns_attr mb_loss_val (mb_loss net y).
Proof. unfold mb_loss. returns_attr_tac. Qed.

Lemma loss_returns_attr net y : returns_attr loss_val (loss net y).
Proof. unfold loss. returns_attr_tac. Qed.

(** [mb_loss] leaves the stored classification term alone. *)
Lemma mb_loss_sample_stored_l2 n dim i_start i_end i acc :
  preserves stored_l2 (mb_loss_sample n dim i_start i_end i acc).
Proof.
  unfold mb_loss_sample, sampling_weights, select_positive, select_negative.
  preserves_auto; apply preserves_np_random_choice; now intros ?.
Qed.

Lemma mb_loss_stored_l2 net y : preserves stored_l2 (mb_loss net y).
Proof.
  unfold mb_loss, mb_loss_loops. preserves_auto.
  apply mb_loss_sample_stored_l2.
Qed.

(** ** What the methods leave alone *)

Lemma mb_loss_sample_fixed n dim i_start i_end i acc :
  preserves (fun w => (fixed_part w, timer (self w)))
            (mb_loss_sample n dim i_start i_end i acc).
Proof.
  unfold mb_loss_sample, sampling_weights, select_positive, select_negative.
  preserves_auto; apply preserves_np_random_choice; now intros ?.
Qed.

Lemma l2_loss_fixed net y :
  preserves (fun w => (fixed_part w, timer (self w))) (l2_loss net y).
Proof. unfold l2_loss. preserves_auto. Qed.

Lemma mb_loss_fixed net y :
  preserves (fun w => (fixed_part w, timer (self w))) (mb_loss net y).
Proof.
  unfold mb_loss, mb_loss_loops. preserves_auto. apply mb_loss_sample_fixed.
Qed.

Lemma loss_fixed net y :
  preserves (fun w => (fixed_part w, timer (self w))) (loss net y).
Proof.
  unfold loss. preserves_auto; [apply l2_loss_fixed | apply mb_loss_fixed].
Qed.

(** ** Taking a successful run apart *)

Lemma bind_inv {A B} (c : M A) (k : A -> M B) w b w' :
  bind c k w = (Ok b, w') ->
  exists a w1, c w = (Ok a, w1) /\ k a w1 = (Ok b, w').
Proof.
  unfold bind. destruct (c w) as [[a|e] w1]; [|discriminate]. eauto.
Qed.

Lemma getattr_inv {A} (g : MarginBaseLoss -> option A) w r w' :
  getattr g w = (r, w') -> w' = w.
Proof.
  unfold getattr. destruct (g (self w)); now intros [= _ <-].
Qed.

Lemma sampling_weights_world dim d i w r w' :
  sampling_weights dim d i w = (r, w') -> w' = w.
Proof.
  unfold sampling_weights, bind, attr, setitem.
  destruct (_ <? _)%nat; now intros [= _ <-].
Qed.

(** ** The classification term *)

Lemma exp_le_sum (row : list R) t :
  (t < length row)%nat -> exp (nth t row 0) <= np_sum (map exp row).
Proof.
  revert t. induction row as [|x row IH]; intros t Ht; [simpl in Ht; lia|].
  cbn [map]. rewrite np_sum_cons.
  assert (Hnn : 0 <= np_sum (map exp row)).
  { apply np_sum_nonneg, Forall_forall. intros y Hy.
    apply list_elem_of_In, in_map_iff in Hy as (z & <- & _).
    left. apply exp_pos. }
  destruct t as [|t]; simpl.
  - lra.
  - simpl in Ht. specialize (IH t ltac:(lia)). pose proof (exp_pos x). lra.
Qed.

(** The log-softmax at an entry of the row is never positive. *)
Lemma log_softmax_nonpos (row : list R) t :
  (t < length row)%nat -> log_softmax row t <= 0.
Proof.
  intros Ht. unfold log_softmax.
  pose proof (exp_le_sum row t Ht) as H.
  pose proof (exp_pos (nth t row 0)) as Hp.
  assert (nth t row 0 <= ln (np_sum (map exp row))); [|lra].
  rewrite <- (ln_exp (nth t row 0)) at 1.
  destruct H as [H|H].
  - left. apply ln_increasing; assumption.
  - rewrite H. lra.
Qed.

Lemma ce_terms_nonneg ig C rows : forall target l,
  Forall (fun r => length r = C) rows ->
  ce_terms ig C rows target = Ok l ->
  Forall (fun x => 0 <= x) l.
Proof.
  induction rows as [|row rows IH]; intros [|t target] l Hrows H;
    simpl in H; try (injection H as <-; constructor).
  apply Forall_cons in Hrows as [Hrow Hrows].
  unfold ce_term in H.
  destruct (bool_decide (t = ig)).
  - destruct (ce_terms ig C rows target) as [l'|] eqn:E; [|discriminate].
    injection H as <-. eapply IH; eauto.
  - destruct (bool_decide (0 <= t < Z.of_nat C)%Z) eqn:Et; [|discriminate].
    apply bool_decide_eq_true in Et.
    destruct (ce_terms ig C rows target) as [l'|] eqn:E; [|discriminate].
    injection H as <-. constructor; [|eapply IH; eauto].
    pose proof (log_softmax_nonpos row (Z.to_nat t) ltac:(lia)). lra.
Qed.

Lemma ce_terms_all_ignored ig C rows : forall target,
  Forall (fun t => t = ig) target ->
  ce_terms ig C rows target = Ok [].
Proof.
  induction rows as [|row rows IH]; intros [|t target] H; try reflexivity.
  apply Forall_cons in H as [-> H]. simpl. unfold ce_term.
  rewrite bool_decide_eq_true_2 by reflexivity. now rewrite IH.
Qed.

Lemma mean_nonneg l v :
  Forall (fun x => 0 <= x) l -> mean l = Fin v -> 0 <= v.
Proof.
  intros Hl H. destruct l as [|x l]; [discriminate|].
  injection H as <-. apply np_sum_nonneg in Hl.
  apply Rmult_le_pos; [exact Hl|].
  left. apply Rinv_0_lt_compat.
  change (0 < INR (S (length l))). apply lt_0_INR. lia.
Qed.

(** What a call of [l2_loss] does to the world. *)
Lemma l2_loss_run_shape net y w :
  match l2_loss net y w with
  | (Ok v, w') =>
      w' = with_self (set_l2_loss_val v (self w)) w /\
      exists input,
        net !! 0%nat = Some input /\
        CrossEntropyLoss ignore_index input
          (map (fun c => match classes_dict (self w) !! c with
                         | Some i => Z.of_nat i
                         | None => ignore_index
                         end) y) w = (Ok v, w)
  | (Raise e, w') => w' = w
  end.
Proof.
  unfold l2_loss, watch. rewrite bind_attr.
  unfold bind at 1. unfold getitem.
  destruct (net !! 0%nat) as [input|]; [|reflexivity].
  simpl. unfold bind at 1. rewrite classes_to_ids_eq.
  unfold bind at 1.
  destruct (pure_CrossEntropyLoss ignore_index input
              (map (fun c => match classes_dict (self w) !! c with
                             | Some i => Z.of_nat i
                             | None => ignore_index
                             end) y)) as [r Hr].
  rewrite Hr. destruct r as [v|e]; [|reflexivity].
  simpl. split; [reflexivity|]. exists input. split; [reflexivity|].
  apply Hr.
Qed.

Lemma l2_loss_nonneg_run net y w v w' input :
  l2_loss net y w = (Ok (Fin v), w') ->
  net !! 0%nat = Some input ->
  well_formed input ->
  0 <= v.
Proof.
  intros Hrun Hnet Hwf.
  pose proof (l2_loss_run_shape net y w) as H. rewrite Hrun in H.
  destruct H as (_ & input' & Hnet' & Hce).
  rewrite Hnet in Hnet'. injection Hnet' as <-.
  unfold CrossEntropyLoss in Hce.
  destruct (shape input) as [|N [|C [|? ?]]] eqn:Hshape; try discriminate.
  destruct (negb _); [discriminate|].
  destruct (ce_terms _ _ _ _) as [l|] eqn:E; [|discriminate].
  injection Hce as Hm.
  eapply mean_nonneg; [|exact Hm].
  eapply ce_terms_nonneg; [|exact E].
  now apply tensor_rows_lengths.
Qed.

(** ** The value of the metric-learning term *)

(** A sample that is processed without an exception does not lower the
    accumulator and stores the new accumulator divided by [n]. *)
Lemma mb_loss_sample_grows n dim bs be i acc w acc' w' :
  mb_loss_sample n dim bs be i acc w = (Ok acc', w') ->
  acc <= acc' /\ mb_loss_val (self w') = Some (acc' / INR n).
Proof.
  intros Hrun. unfold mb_loss_sample in Hrun.
  apply bind_inv in Hrun as (D & w0 & E & Hrun).
  apply getattr_inv in E as ->.
  apply bind_inv in Hrun as (d & w0 & E & Hrun).
  apply pure_run in E as ->; [|apply pure_getitem].
  apply bind_inv in Hrun as (W & w0 & E & Hrun).
  apply sampling_weights_world in E as ->.
  apply bind_inv in Hrun as (j & w1 & E & Hrun). clear E.
  rewrite bind_attr in Hrun.
  apply bind_inv in Hrun as (dij & w1' & E & Hrun).
  apply pure_run in E as ->; [|apply pure_index2].
  rewrite bind_attr in Hrun. cbv zeta in Hrun.
  apply bind_inv in Hrun as (k & w2 & E & Hrun). clear E.
  apply bind_inv in Hrun as (dik & w2' & E & Hrun).
  apply pure_run in E as ->; [|apply pure_index2].
  unfold bind, setattr, getattr, ret in Hrun. simpl in Hrun.
  destruct (false_neg (self w2)); [|discriminate]. simpl in Hrun.
  destruct (true_pos (self w2)); [|discriminate]. simpl in Hrun.
  destruct (false_pos (self w2)); [|discriminate]. simpl in Hrun.
  destruct (true_neg (self w2)); [|discriminate]. simpl in Hrun.
  injection Hrun as <- <-. split; [|reflexivity].
  pose proof (Rmax_r (mb_loss_alpha (model (self w1)) +
                      (dij - mb_loss_beta (model (self w1)))) 0).
  pose proof (Rmax_r (mb_loss_alpha (model (self w1)) -
                      (dik - mb_loss_beta (model (self w1)))) 0).
  lra.
Qed.

Lemma inner_loop_grows n dim bs be (l : list nat) : forall acc w acc' w',
  for_each l acc (fun i loss => mb_loss_sample n dim bs be i loss) w
    = (Ok acc', w') ->
  acc <= acc' /\
  ((l = [] /\ acc' = acc /\ w' = w) \/
   mb_loss_val (self w') = Some (acc' / INR n)).
Proof.
  induction l as [|i l IH]; intros acc w acc' w' Hrun.
  - injection Hrun as <- <-. split; [lra|]. now left.
  - simpl in Hrun. apply bind_inv in Hrun as (a1 & w1 & E & Hrun).
    apply mb_loss_sample_grows in E as [H1 H2].
    apply IH in Hrun as [H3 [(-> & -> & ->)|H4]].
    + split; [exact H1|]. now right.
    + split; [lra|]. now right.
Qed.

Lemma inner_loop_spc n dim bs be (l : list nat) acc :
  preserves (fun w => spc_of (self w))
    (for_each l acc (fun i loss => mb_loss_sample n dim bs be i loss)).
Proof.
  apply preserves_for_each. intros i a w.
  pose proof (mb_loss_sample_config n dim bs be i a w) as H.
  unfold config_of, config in H. unfold spc_of.
  now injection H as _ _ _ -> _ _.
Qed.

Lemma outer_loop_grows n dim spc (starts : list nat) : forall acc w acc' w',
  for_each starts acc
    (fun i_start loss =>
       spc0 <- attr spc_of ;;
       let i_end := (i_start + spc0)%nat in
       for_each (range i_start i_end) loss (fun i loss =>
         mb_loss_sample n dim i_start i_end i loss)) w = (Ok acc', w') ->
  spc_of (self w) = S spc ->
  acc <= acc' /\
  ((starts = [] /\ acc' = acc /\ w' = w) \/
   mb_loss_val (self w') = Some (acc' / INR n)).
Proof.
  induction starts as [|b starts IH]; intros acc w acc' w' Hrun Hs.
  - injection Hrun as <- <-. split; [lra|]. now left.
  - simpl in Hrun. apply bind_inv in Hrun as (a1 & w1 & E & Hrun).
    rewrite bind_attr, Hs in E. cbv zeta in E.
    pose proof (inner_loop_spc n dim b (b + S spc) (range b (b + S spc)) acc w)
      as Hspc.
    cbv beta in Hspc. rewrite E in Hspc. simpl in Hspc. rewrite Hs in Hspc.
    apply inner_loop_grows in E as [H1 [(Hnil & _)|H2]].
    { rewrite range_cons in Hnil. discriminate. }
    apply (IH _ _ _ _ Hrun) in Hspc as [H3 [(-> & -> & ->)|H4]].
    + split; [exact H1|]. now right.
    + split; [lra|]. now right.
Qed.

Lemma mb_loss_end_stored_mb n : preserves stored_mb (mb_loss_end n).
Proof. unfold mb_loss_end. preserves_auto. Qed.

Lemma mb_loss_end_returns_attr n : returns_attr mb_loss_val (mb_loss_end n).
Proof. unfold mb_loss_end. returns_attr_tac. Qed.

(** Whenever [mb_loss] returns, the value is not negative. *)
Lemma mb_loss_nonneg_run net y w v w' :
  mb_loss net y w = (Ok v, w') -> 0 <= v.
Proof.
  intros Hrun. unfold mb_loss, watch in Hrun.
  rewrite bind_attr in Hrun.
  apply bind_inv in Hrun as (pe & w0 & E & Hrun).
  apply pure_run in E as ->; [|apply pure_getitem].
  cbv zeta in Hrun. unfold len, tensor_first in Hrun.
  destruct (shape pe) as [|n rest] eqn:Hshape; [discriminate|].
  rewrite (bind_ok _ _ w n w) in Hrun by reflexivity.
  destruct (n =? 0)%nat eqn:Hn; [discriminate|]. apply Nat.eqb_neq in Hn.
  apply bind_inv in Hrun as (e0 & w0 & E & Hrun).
  injection E as <- <-.
  apply bind_inv in Hrun as (dim & w0 & E & Hrun).
  apply pure_run in E as ->; [|apply pure_getitem].
  do 4 (apply bind_inv in Hrun as ([] & ? & [= <-] & Hrun)).
  rewrite bind_attr in Hrun.
  apply bind_inv in Hrun as ([] & w1 & E & Hrun).
  apply bind_inv in Hrun as (acc & w2 & Hloops & Hrun).
  unfold mb_loss_loops in Hloops. rewrite bind_attr in Hloops.
  unfold range_step in Hloops.
  destruct (spc_of (self w1)) as [|spc] eqn:Hspc; [discriminate|].
  simpl Nat.eqb in Hloops. cbv iota in Hloops.
  change (bind (ret ?l) ?k ?w0) with (k l w0) in Hloops. cbv beta in Hloops.
  destruct (blocks_nonempty n (S spc)) as [q Hq]; [lia..|].
  rewrite Hq in Hloops.
  apply outer_loop_grows with (spc := spc) in Hloops as [H0 [(Hnil & _)|Hmb]];
    [| |exact Hspc].
  { simpl in Hnil. discriminate. }
  change (mb_loss_end n w2 = (Ok v, w')) in Hrun.
  assert (Hend : stored_mb w' = stored_mb w2 /\ mb_loss_val (self w') = Some v).
  { split.
    - pose proof (mb_loss_end_stored_mb n w2) as Hp.
      now rewrite Hrun in Hp.
    - exact (mb_loss_end_returns_attr n _ _ _ Hrun). }
  destruct Hend as [Hst Hv]. unfold stored_mb in Hst.
  rewrite Hv, Hmb in Hst. injection Hst as ->.
  apply Rmult_le_pos; [lra|].
  left. apply Rinv_0_lt_compat, lt_0_INR. lia.
Qed.

(** ** Runs on the example batch *)

Lemma l2_loss_ex_run :
  exists v w', l2_loss net_ex [3; 3; 7; 1]%Z world_ex = (Ok (Fin v), w').
Proof. eexists. eexists. reflexivity. Qed.

Lemma mb_loss_ex_run y w :
  spc_of (self w) = 2%nat -> (forall k, 0 <= np_random w k < 1) ->
  exists v w', mb_loss net_ex y w = (Ok v, w').
Proof.
  intros Hs Hr.
  destruct (mb_loss_run net_ex y w
              {| shape := [4; 1]%nat; storage := [0; 0; 1; 1] |} 4 1 2 2)
    as (w' & Hrun & _); try reflexivity; try lia; try assumption.
  eauto.
Qed.

Lemma loss_ex_run :
  exists v w', loss net_ex [3; 3; 7; 1]%Z world_ex = (Ok v, w').
Proof.
  destruct l2_loss_ex_run as (a & w1 & H1).
  pose proof (l2_loss_run_shape net_ex [3; 3; 7; 1]%Z world_ex) as Hw.
  rewrite H1 in Hw. destruct Hw as [Hw _].
  destruct (mb_loss_ex_run [3; 3; 7; 1]%Z w1) as (b & w2 & H2).
  - rewrite Hw. reflexivity.
  - intros k. rewrite Hw. simpl. lra.
  - unfold loss. rewrite (bind_ok _ _ _ _ _ H1), (bind_ok _ _ _ _ _ H2).
    eexists. eexists. reflexivity.
Qed.

(** ** A batch of a single class block *)

(** With as many samples as a class block holds, the first positive pair
    is selected and the selection of the negative pair has nothing to
    choose from. *)
Lemma mb_loss_single_block net y w pe n dim :
  net !! 1%nat = Some pe ->
  shape pe = [n; dim] ->
  spc_of (self w) = n ->
  (2 <= n)%nat ->
  0 <= np_random w (np_random_pos w) < 1 ->
  fst (mb_loss net y w) = Raise ValueError.
Proof.
  intros Hnet Hshape Hspc Hn Hx.
  rewrite (mb_loss_unfold net y w pe n dim Hnet Hshape) by lia.
  set (w1 := after_distances n dim pe w).
  set (D := clamped_sqrt (squared_distances n dim (tensor_rows n dim pe))).
  destruct (distances_shape_any n dim (tensor_rows n dim pe)) as [HD HDrows];
    [apply length_tensor_rows|]. fold D in HD, HDrows.
  assert (Hs1 : spc_of (self w1) = n) by exact Hspc.
  assert (Hloops : exists w2, mb_loss_loops n dim 0 w1 = (Raise ValueError, w2)).
  { unfold mb_loss_loops. rewrite bind_attr, Hs1.
    unfold range_step.
    destruct (n =? 0)%nat eqn:Es; [apply Nat.eqb_eq in Es; lia|].
    replace ((n + n - 1) / n)%nat with 1%nat
      by (apply Nat.div_unique with (r := (n - 1)%nat); lia).
    change (bind (ret ?l) ?k ?w0) with (k l w0). cbv beta.
    simpl seq. simpl map. simpl for_each.
    destruct (lookup_lt_is_Some_2 D 0 ltac:(lia)) as [d Hd].
    assert (Hdlen : length d = n).
    { rewrite Forall_forall in HDrows. apply HDrows.
      eapply list_elem_of_lookup_2; eauto. }
    destruct (select_positive_run (lambda_rev (self w1)) dim d 0 0 n w1)
      as (Hp & Hj & _); [lia|lia|lia|exact Hx|].
    simpl Nat.add in Hp, Hj.
    set (W := weights_row (lambda_rev (self w1)) dim d 0) in *.
    set (j := sampled_positive W 0 n (np_random w1 (np_random_pos w1))) in *.
    exists (advance w1).
    apply bind_raise. rewrite bind_attr, Hs1. cbv zeta.
    unfold range. simpl Nat.add.
    replace (n - 0)%nat with (S (n - 1)) by lia.
    simpl seq. simpl for_each.
    apply bind_raise.
    unfold mb_loss_sample.
    rewrite (bind_ok _ _ w1 D w1) by reflexivity. cbv beta.
    rewrite (bind_ok _ _ w1 d w1) by (unfold getitem; now rewrite Hd).
    cbv beta.
    rewrite (bind_ok _ _ _ _ _ (sampling_weights_run dim d 0 w1 ltac:(lia))).
    cbv beta. fold W.
    replace (S (n - 1)) with n by lia.
    rewrite (bind_ok _ _ _ _ _ Hp). cbv beta.
    rewrite bind_attr.
    assert (Hrow : nth 0 D [] = d) by now apply nth_lookup_Some.
    rewrite (bind_ok _ _ _ _ _
               (index2_run D 0 j (advance w1) ltac:(lia)
                  ltac:(rewrite Hrow; lia))).
    cbv beta. rewrite bind_attr. cbv zeta.
    apply bind_raise. unfold select_negative.
    rewrite bind_attr.
    change (spc_of (self (advance w1))) with (spc_of (self w1)).
    rewrite Hs1, Nat.sub_diag.
    apply bind_raise. reflexivity. }
  destruct Hloops as [w2 Hloops].
  now rewrite (bind_raise _ _ _ _ _ Hloops).
Qed.

(** ** Squared distances *)

Lemma sq_dist_expand (a : list R) : forall b,
  length a = length b ->
  norm2 a + norm2 b - 2 * dot a b = sq_dist a b.
Proof.
  unfold norm2, dot, sq_dist.
  induction a as [|x a IH]; intros [|y b] Hlen; try discriminate.
  - simpl. rewrite !np_sum_nil. lra.
  - simpl in Hlen. injection Hlen as Hlen. specialize (IH b Hlen).
    cbn [map zip_with]. rewrite !np_sum_cons. lra.
Qed.

Lemma sq_dist_nonneg (a b : list R) : 0 <= sq_dist a b.
Proof.
  unfold sq_dist. apply np_sum_nonneg, Forall_forall. intros z Hz.
  apply list_elem_of_lookup in Hz as [i Hi].
  apply lookup_zip_with_Some in Hi as (x & y & -> & _ & _).
  apply pow2_ge_0.
Qed.

Lemma sq_dist_self (a : list R) : sq_dist a a = 0.
Proof.
  unfold sq_dist. induction a as [|x a IH]; [apply np_sum_nil|].
  cbn [zip_with]. rewrite np_sum_cons, IH. lra.
Qed.

(** ** The counters are not negative *)

Lemma indicator_sum_nonneg (P : R -> Prop) `{!forall x, Decision (P x)}
    (l : list R) :
  0 <= py_sum (map (fun x => if decide (P x) then 1 else 0) l).
Proof.
  rewrite py_sum_eq. apply np_sum_nonneg, Forall_forall. intros z Hz.
  apply list_elem_of_In, in_map_iff in Hz as (x & <- & _).
  destruct (decide (P x)); lra.
Qed.

Lemma for_each_inv {A B} (I : World -> Prop) (l : list A)
    (body : A -> B -> M B) :
  (forall x acc w acc' w', body x acc w = (Ok acc', w') -> I w -> I w') ->
  forall acc w acc' w',
    for_each l acc body w = (Ok acc', w') -> I w -> I w'.
Proof.
  intros Hb. induction l as [|x l IH]; intros acc w acc' w' Hrun HI.
  - now injection Hrun as _ <-.
  - simpl in Hrun. apply bind_inv in Hrun as (a1 & w1 & E & Hrun).
    eapply IH; eauto.
Qed.

Lemma mb_loss_sample_nonneg_counters n dim bs be i acc w acc' w' :
  mb_loss_sample n dim bs be i acc w = (Ok acc', w') ->
  nonneg_counters w -> nonneg_counters w'.
Proof.
  intros Hrun (tp & tn & fp & fn & Hc & Htp0 & Htn0 & Hfp0 & Hfn0).
  unfold counters in Hc. injection Hc as Htp Htn Hfp Hfn.
  unfold mb_loss_sample in Hrun.
  apply bind_inv in Hrun as (D & w0 & E & Hrun).
  apply getattr_inv in E as ->.
  apply bind_inv in Hrun as (d & w0 & E & Hrun).
  apply pure_run in E as ->; [|apply pure_getitem].
  apply bind_inv in Hrun as (W & w0 & E & Hrun).
  apply sampling_weights_world in E as ->.
  apply bind_inv in Hrun as (j & w1 & E & Hrun).
  pose proof (select_positive_self W bs be i w) as Hs1.
  rewrite E in Hs1. simpl in Hs1. clear E.
  rewrite bind_attr in Hrun.
  apply bind_inv in Hrun as (dij & w1' & E & Hrun).
  apply pure_run in E as ->; [|apply pure_index2].
  rewrite bind_attr in Hrun. cbv zeta in Hrun.
  apply bind_inv in Hrun as (k & w2 & E & Hrun).
  pose proof (select_negative_self W n bs be w1) as Hs2.
  rewrite E in Hs2. simpl in Hs2. rewrite Hs1 in Hs2. clear E.
  apply bind_inv in Hrun as (dik & w2' & E & Hrun).
  apply pure_run in E as ->; [|apply pure_index2].
  unfold bind, setattr, getattr, ret in Hrun. simpl in Hrun.
  rewrite Hs2 in Hrun.
  rewrite Hfn in Hrun. simpl in Hrun. rewrite Htp in Hrun. simpl in Hrun.
  rewrite Hfp in Hrun. simpl in Hrun. rewrite Htn in Hrun. simpl in Hrun.
  injection Hrun as _ <-.
  eexists _, _, _, _. split; [reflexivity|].
  unfold slice. rewrite !skipn_map, !firstn_map.
  repeat split; repeat apply Rplus_le_le_0_compat; try assumption;
    apply indicator_sum_nonneg.
Qed.

Lemma mb_loss_nonneg_counters_run net y w v w' :
  mb_loss net y w = (Ok v, w') -> nonneg_counters w'.
Proof.
  intros Hrun. unfold mb_loss, watch in Hrun.
  rewrite bind_attr in Hrun.
  apply bind_inv in Hrun as (pe & w0 & E & Hrun).
  apply pure_run in E as ->; [|apply pure_getitem].
  cbv zeta in Hrun. unfold len, tensor_first in Hrun.
  destruct (shape pe) as [|n rest] eqn:Hshape; [discriminate|].
  rewrite (bind_ok _ _ w n w) in Hrun by reflexivity.
  destruct (n =? 0)%nat eqn:Hn; [discriminate|]. apply Nat.eqb_neq in Hn.
  apply bind_inv in Hrun as (e0 & w0 & E & Hrun).
  injection E as <- <-.
  apply bind_inv in Hrun as (dim & w0 & E & Hrun).
  apply pure_run in E as ->; [|apply pure_getitem].
  do 4 (apply bind_inv in Hrun as ([] & ? & [= <-] & Hrun)).
  rewrite bind_attr in Hrun.
  apply bind_inv in Hrun as ([] & w1 & E & Hrun).
  apply bind_inv in Hrun as (acc & w2 & Hloops & Hrun).
  assert (H1 : nonneg_counters w1).
  { apply bind_inv in E as ([] & w3 & E1 & E).
    apply pure_run in E1 as ->; [|apply pure_assert].
    cbv zeta in E. apply bind_inv in E as ([] & ? & [= <-] & E).
    apply bind_inv in E as (D0 & ? & E2 & E).
    apply getattr_inv in E2 as ->.
    injection E as <-.
    exists 0, 0, 0, 0. split; [reflexivity|]. repeat split; lra. }
  assert (H2 : nonneg_counters w2).
  { unfold mb_loss_loops in Hloops. rewrite bind_attr in Hloops.
    apply bind_inv in Hloops as (starts & w3 & E1 & Hloops).
    apply pure_run in E1 as ->; [|apply pure_range_step].
    revert Hloops H1. apply for_each_inv.
    intros b a w4 a' w4' Hb. rewrite bind_attr in Hb. cbv zeta in Hb.
    revert Hb. apply for_each_inv.
    intros i a0 w5 a0' w5'. apply mb_loss_sample_nonneg_counters. }
  destruct H2 as (tp & tn & fp & fn & Hc & Htp0 & Htn0 & Hfp0 & Hfn0).
  unfold counters in Hc. injection Hc as Htp Htn Hfp Hfn.
  unfold bind, getattr, setattr in Hrun. simpl in Hrun.
  rewrite Htp in Hrun. simpl in Hrun. rewrite Htn in Hrun. simpl in Hrun.
  rewrite Hfp in Hrun. simpl in Hrun. rewrite Hfn in Hrun. simpl in Hrun.
  destruct (mb_loss_val (self w2)); [|discriminate].
  injection Hrun as _ <-.
  assert (Hinv : 0 < / INR n) by (apply Rinv_0_lt_compat, lt_0_INR; lia).
  eexists _, _, _, _. split; [reflexivity|].
  unfold Rdiv. repeat split; apply Rmult_le_pos; lra.
Qed.

(** ** The stored sum *)

Lemma l2_loss_stored_loss net y :
  preserves (fun w => loss_val (self w)) (l2_loss net y).
Proof. unfold l2_loss. preserves_auto. Qed.

Lemma mb_loss_sample_stored_loss n dim i_start i_end i acc :
  preserves (fun w => loss_val (self w))
            (mb_loss_sample n dim i_start i_end i acc).
Proof.
  unfold mb_loss_sample, sampling_weights, select_positive, select_negative.
  preserves_auto; apply preserves_np_random_choice; now intros ?.
Qed.

Lemma mb_loss_stored_loss net y :
  preserves (fun w => loss_val (self w)) (mb_loss net y).
Proof.
  unfold mb_loss, mb_loss_loops. preserves_auto.
  apply mb_loss_sample_stored_loss.
Qed.
(** * The properties of the specification *)

Lemma init_ex :
  __init__ model_ex [3; 1; 2]%Z cpu params_ex [] =
  (Ok obj_ex, ["classes:  3"%string]).
Proof.
  unfold __init__. simpl.
  destruct (decide (1 = 0)) as [H|_]; [lra|]. reflexivity.
Defined.

(** ** The model on small inputs *)

Example classes_to_ids_ex :
  fst (classes_to_ids [3; 3; 7; 1]%Z ignore_index world_ex)
  = Ok [2; 2; -100; 0]%Z.
Proof. reflexivity. Qed.

Example np_delete_ex : np_delete [10; 11; 12; 13; 14]%nat 2 4 = [10; 11; 14]%nat.
Proof. reflexivity. Qed.

Example slice_clipped_ex : slice [10; 11; 12]%nat 2 4 = [12]%nat.
Proof. reflexivity. Qed.

Example range_step_ex :
  fst (range_step 6 2 world_ex) = Ok [0; 2; 4]%nat /\
  fst (range_step 6 0 world_ex) = Raise ValueError.
Proof. split; reflexivity. Qed.

Example searchsorted_right_ex :
  searchsorted_right [0; 1 / 2; 1] (1 / 2) = 2%nat.
Proof.
  simpl. destruct (decide (1 / 2 < 0)); [lra|].
  destruct (decide (1 / 2 < 1 / 2)); [lra|].
  destruct (decide (1 / 2 < 1)); [reflexivity|lra].
Qed.

(** ** C7: input and output *)

(** C7, as stated, fails at construction: [__init__] ends with a [print],
    so building an object over the classes 3, 1, 2 on an empty standard
    output leaves the line "classes:  3" there. *)
Lemma init_prints_counterexample :
  snd (__init__ model_ex [3; 1; 2]%Z cpu params_ex []) = ["classes:  3"%string]
  /\ snd (__init__ model_ex [3; 1; 2]%Z cpu params_ex []) <> [].
Proof.
  assert (H : snd (__init__ model_ex [3; 1; 2]%Z cpu params_ex [])
              = ["classes:  3"%string]).
  { unfold __init__. simpl.
    destruct (decide (1 = 0)) as [H|_]; [lra|]. reflexivity. }
  split; [exact H|]. rewrite H. discriminate.
Qed.

(** C7, amended: a successful construction prints exactly one line, the
    text "classes: " and the number of classes, and a failed one prints
    nothing; [l2_loss], [mb_loss] and [loss] print nothing and never
    replace the draws of the random generator, and [l2_loss] does not
    advance it. *)
Theorem no_output_after_construction :
  (forall m cl dev p out,
      match __init__ m cl dev p out with
      | (Ok o, out') =>
          out' = out ++ ["classes:  " +:+ pretty (length (classes o))]
      | (Raise _, out') => out' = out
      end) /\
  (forall net y w,
      stdout (snd (l2_loss net y w)) = stdout w /\
      stdout (snd (mb_loss net y w)) = stdout w /\
      stdout (snd (loss net y w)) = stdout w) /\
  (forall net y w,
      np_random (snd (l2_loss net y w)) = np_random w /\
      np_random (snd (mb_loss net y w)) = np_random w /\
      np_random (snd (loss net y w)) = np_random w /\
      np_random_pos (snd (l2_loss net y w)) = np_random_pos w).
Proof.
  split; [|split].
  - intros m cl dev p out. unfold __init__.
    destruct (negb _); [reflexivity|].
    destruct (decide _); reflexivity.
  - intros net y w. split; [|split].
    + apply l2_loss_stdout.
    + apply mb_loss_stdout.
    + apply loss_stdout.
  - intros net y w. repeat split.
    + apply l2_loss_np_random.
    + apply mb_loss_np_random.
    + apply loss_np_random.
    + apply l2_loss_np_random_pos.
Qed.

(** ** C8: labels outside the class set *)

(** C8: on an object built over a class set [cl], [classes_to_ids] sends a
    label of [cl] to its rank, which is its position in the sorted class
    list, and any other label to -100; [l2_loss] is then the mean, over
    the samples whose label is in [cl] only, of the negated log-softmax at
    the rank of the label. *)
Theorem unknown_labels_ignored m cl dev p out o out' net y w input N C :
  __init__ m cl dev p out = (Ok o, out') ->
  NoDup cl ->
  classes_dict (self w) = classes_dict o ->
  net !! 0%nat = Some input ->
  shape input = [N; C] ->
  length y = N ->
  (length cl <= C)%nat ->
  StronglySorted Z.le (classes o) /\
  classes o ≡ₚ cl /\
  (forall c, c ∈ cl -> classes o !! rank_in cl c = Some c) /\
  fst (classes_to_ids y ignore_index w) =
    Ok (map (fun c => if decide (c ∈ cl) then Z.of_nat (rank_in cl c)
                      else (-100)%Z) y) /\
  fst (l2_loss net y w) =
    Ok (mean (map (fun s => - log_softmax s.1 (rank_in cl s.2))
                  (known_samples cl (tensor_rows N C input) y))).
Proof.
  intros Hinit Hnd Hdict Hnet Hshape Hlen HC.
  unfold __init__ in Hinit.
  destruct (negb _); [discriminate|].
  destruct (decide _); [discriminate|].
  injection Hinit as <- _.
  simpl in Hdict. simpl classes.
  assert (Hp : merge_sort Z.le cl ≡ₚ cl) by apply merge_sort_Permutation.
  assert (Hin : forall c, c ∈ cl ->
            classes_dict (self w) !! c = Some (rank_in cl c) /\
            (rank_in cl c < C)%nat).
  { intros c Hc. rewrite Hdict. split.
    - apply classes_dict_lookup; [now rewrite Hp|].
      now apply merge_sort_lookup_rank.
    - apply (merge_sort_lookup_rank cl c Hnd) in Hc.
      apply lookup_lt_Some in Hc. rewrite Hp in Hc. lia. }
  assert (Hout : forall c, c ∉ cl -> classes_dict (self w) !! c = None).
  { intros c Hc. rewrite Hdict.
    destruct (foldl _ _ _ !! c) as [i|] eqn:E; [|reflexivity].
    apply classes_dict_lookup in E; [|now rewrite Hp].
    exfalso. apply Hc. rewrite <- Hp. eapply list_elem_of_lookup_2; eauto. }
  split; [apply StronglySorted_merge_sort; apply _|].
  split; [exact Hp|].
  split; [intros c Hc; now apply merge_sort_lookup_rank|].
  split.
  - rewrite classes_to_ids_eq. simpl. f_equal.
    apply map_ext. intros c.
    destruct (decide (c ∈ cl)) as [Hc|Hc].
    + now destruct (Hin c Hc) as [-> _].
    + now rewrite (Hout c Hc).
  - unfold l2_loss, watch. unfold bind at 1. simpl.
    unfold getitem. rewrite Hnet. unfold bind at 1. simpl.
    unfold bind at 1. rewrite classes_to_ids_eq.
    unfold CrossEntropyLoss. rewrite Hshape.
    rewrite length_map, Hlen, Nat.eqb_refl. simpl.
    rewrite (ce_terms_known _ cl (rank_in cl) C Hin Hout).
    reflexivity.
Qed.

Lemma classes_ex_NoDup : NoDup [3; 1; 2]%Z.
Proof.
  repeat constructor; rewrite ?elem_of_cons, elem_of_nil; intros H;
    repeat destruct H as [H|H]; discriminate || exact H.
Defined.

Lemma unknown_labels_ignored_witness :
  fst (classes_to_ids [3; 3; 7; 1]%Z ignore_index world_ex) =
    Ok (map (fun c => if decide (c ∈ [3; 1; 2]%Z)
                      then Z.of_nat (rank_in [3; 1; 2]%Z c)
                      else (-100)%Z) [3; 3; 7; 1]%Z) /\
  fst (l2_loss net_ex [3; 3; 7; 1]%Z world_ex) =
    Ok (mean (map (fun s => - log_softmax s.1 (rank_in [3; 1; 2]%Z s.2))
                  (known_samples [3; 1; 2]%Z
                     (tensor_rows 4 3
                        {| shape := [4; 3]%nat;
                           storage := [0; 0; 0; 0; 0; 0; 0; 0; 0; 0; 0; 0] |})
                     [3; 3; 7; 1]%Z))).
Proof.
  exact (proj2 (proj2 (proj2
           (unknown_labels_ignored model_ex [3; 1; 2]%Z cpu params_ex []
              obj_ex _ net_ex [3; 3; 7; 1]%Z world_ex _ 4%nat 3%nat
              init_ex classes_ex_NoDup eq_refl eq_refl eq_refl eq_refl
              (le_n 3))))).
Defined.

(** ** C1: the loss is the sum of its two terms *)

(** C1: from any world, [loss] returns the sum of what [l2_loss] and
    [mb_loss] return from that world, and nothing else; it raises what
    [l2_loss] raises, or else what [mb_loss] raises. *)
Theorem loss_is_sum_of_terms net y w :
  fst (loss net y w) =
  match fst (l2_loss net y w), fst (mb_loss net y w) with
  | Ok a, Ok b => Ok (fadd a (Fin b))
  | Raise e, _ => Raise e
  | Ok _, Raise e => Raise e
  end.
Proof.
  pose proof (l2_loss_beside net y w) as Hb.
  unfold loss. unfold bind at 1.
  destruct (l2_loss net y w) as [[a|e] w1]; simpl in *; [|reflexivity].
  assert (Hag : agree (config_of w)
                  (know_loss (know_mb_loss know_nothing)) w1 w).
  { unfold beside_l2, counters, config_of in Hb.
    injection Hb as Hb1 Hb2 Hb3 Hb4 Hb5 Hb6 Hb7 Hb8 Hb9 Hb10.
    unfold agree, config_of, config. simpl.
    repeat split; intros; try discriminate; try congruence. }
  pose proof (mb_loss_rel _ _ net y _ _ Hag) as Hrel.
  unfold bind at 1.
  destruct (mb_loss net y w1) as [[b|e] w2],
           (mb_loss net y w) as [[b'|e'] w2']; simpl in *; try easy.
  - destruct Hrel as [-> _]. reflexivity.
  - now subst.
Qed.

(** ** C4: the model is read through its two margins only *)

(** C4: when the model of the object is replaced by one with the same
    [mb_loss_alpha] and [mb_loss_beta], [mb_loss] and [loss], run on the
    same batch with the same draws, raise the same exception or return
    the same value and leave the same four counters. *)
Theorem model_read_through_margins m2 net y w :
  mb_loss_alpha m2 = mb_loss_alpha (model (self w)) ->
  mb_loss_beta m2 = mb_loss_beta (model (self w)) ->
  same_outcome counters (mb_loss net y w) (mb_loss net y (with_model m2 w)) /\
  same_outcome counters (loss net y w) (loss net y (with_model m2 w)).
Proof.
  intros Ha Hb.
  assert (Hag : agree (config_of w) know_nothing w (with_model m2 w)).
  { unfold agree, config_of, config. simpl. rewrite Ha, Hb.
    repeat split; intros; discriminate. }
  split.
  - eapply rel_same_outcome; [apply mb_loss_rel|exact Hag|].
    intros w1 w2 (_&_&_&_&_&_&_&Htp&Htn&Hfp&Hfn&_).
    unfold counters. simpl in *. now rewrite Htp, Htn, Hfp, Hfn.
  - eapply rel_same_outcome; [apply loss_rel|exact Hag|].
    intros w1 w2 (_&_&_&_&_&_&_&Htp&Htn&Hfp&Hfn&_).
    unfold counters. simpl in *. now rewrite Htp, Htn, Hfp, Hfn.
Qed.

(** ** C5: no state is carried from one call to the next *)

(** C5: whatever methods of the object were called before, with whatever
    arguments and whether they returned or raised, [loss] run on the same
    batch with the same draws returns the same value (or raises the same
    exception) as without those calls; in particular after an earlier
    call of [loss] itself. *)
Theorem loss_keeps_no_state net y calls u pos w :
  fst (loss net y (with_random u pos (run_calls calls w))) =
  fst (loss net y (with_random u pos w)) /\
  fst (loss net y (with_random u pos (snd (loss net y w)))) =
  fst (loss net y (with_random u pos w)).
Proof.
  assert (H : forall cs,
             fst (loss net y (with_random u pos (run_calls cs w))) =
             fst (loss net y (with_random u pos w))).
  { intros cs. eapply rel_fst; [apply (loss_rel (config_of w) know_nothing)|].
    pose proof (run_calls_config cs w) as Hc.
    unfold agree, config_of in *. simpl.
    repeat split; intros; try discriminate; auto. }
  split; [apply H|]. apply (H [Call_loss net y]).
Qed.

Lemma model_read_through_margins_witness :
  same_outcome counters
    (mb_loss net_ex [3; 3; 1; 1]%Z world_ex)
    (mb_loss net_ex [3; 3; 1; 1]%Z
       (with_model {| mb_loss_alpha := 1; mb_loss_beta := 1;
                      state_dict := {[ "fc.weight"%string :=
                                         {| shape := [1%nat]; storage := [5] |} ]} |}
                   world_ex)).
Proof.
  refine (proj1 (model_read_through_margins _ net_ex [3; 3; 1; 1]%Z world_ex
                   _ _)); reflexivity.
Defined.

(** ** C10: the distance matrix *)

(** C10: on a well-formed batch of [n >= 1] embeddings [e_0, ...,
    e_(n-1)], the matrix that [mb_loss] stores in [d_ij] is n by n, its
    entry (i, j) is sqrt(max(|e_i|^2 + |e_j|^2 - 2 <e_i, e_j>, 0) + 1e-8),
    it is symmetric, and every entry, the diagonal included, is at least
    sqrt(1e-8), which is positive. *)
Theorem distance_matrix_formula net y w pe n dim :
  net !! 1%nat = Some pe ->
  shape pe = [n; dim] ->
  well_formed pe ->
  n <> 0%nat ->
  exists D,
    d_ij (self (snd (mb_loss net y w))) = Some D /\
    length D = n /\
    Forall (fun row => length row = n) D /\
    0 < sqrt 1e-8 /\
    forall i j, (i < n)%nat -> (j < n)%nat ->
      let e_i := nth i (tensor_rows n dim pe) [] in
      let e_j := nth j (tensor_rows n dim pe) [] in
      entry D i j =
        sqrt (Rmax (norm2 e_i + norm2 e_j - 2 * dot e_i e_j) 0 + 1e-8) /\
      entry D i j = entry D j i /\
      sqrt 1e-8 <= entry D i j.
Proof.
  intros Hnet Hshape Hwf Hn.
  pose proof (length_tensor_rows n dim pe) as HE.
  pose proof (tensor_rows_lengths n dim pe Hshape Hwf) as Hrows.
  exists (clamped_sqrt (squared_distances n dim (tensor_rows n dim pe))).
  split; [now apply mb_loss_stores_distances|].
  destruct (distances_shape n dim _ HE Hrows) as [HD HDrows].
  split; [exact HD|]. split; [exact HDrows|].
  split; [apply sqrt_lt_R0; lra|].
  intros i j Hi Hj e_i e_j.
  rewrite (distances_closed n dim _ HE Hrows).
  rewrite !(entry_map2
              (fun a b => sqrt (Rmax (norm2 a + norm2 b - 2 * dot a b) 0 + 1e-8))
              _ []) by lia.
  fold e_i e_j. split; [reflexivity|]. split.
  - rewrite (dot_comm e_i e_j), (Rplus_comm (norm2 e_i)). reflexivity.
  - apply sqrt_le_1_alt.
    pose proof (Rmax_r (norm2 e_i + norm2 e_j - 2 * dot e_i e_j) 0). lra.
Qed.

Lemma net_ex_well_formed :
  well_formed {| shape := [4; 1]%nat; storage := [0; 0; 1; 1] |}.
Proof. reflexivity. Defined.

Lemma world_ex_draws : forall k, 0 <= np_random world_ex k < 1.
Proof. intros k. simpl. lra. Defined.

Lemma distance_matrix_formula_witness :
  exists D,
    d_ij (self (snd (mb_loss net_ex [3; 3; 1; 1]%Z world_ex))) = Some D /\
    length D = 4%nat.
Proof.
  destruct (distance_matrix_formula net_ex [3; 3; 1; 1]%Z world_ex
              {| shape := [4; 1]%nat; storage := [0; 0; 1; 1] |} 4 1
              eq_refl eq_refl net_ex_well_formed ltac:(discriminate))
    as (D & HD & Hlen & _).
  exists D. split; [exact HD|exact Hlen].
Defined.

(** ** C3: the sampled indices *)

(** C3: in the iteration for sample [i] of the class block that starts at
    [i_start = b * spc], with [spc >= 2] samples per class, a batch of
    [n = m * spc] samples, [m >= 2], and [d] the row of the [n] distances
    of sample [i], the selection of the positive pair passes its assertion
    and returns an index [j] of the block other than [i], and the
    selection of the negative pair returns an index [k] below [n] outside
    the block.  The draws of the generator lie in [0, 1). *)
Theorem sampled_indices_in_range n spc m dim (d : list R) b i w0 w1 :
  (2 <= spc)%nat ->
  n = (m * spc)%nat ->
  (2 <= m)%nat ->
  length d = n ->
  (b < m)%nat ->
  (b * spc <= i < b * spc + spc)%nat ->
  spc_of (self w1) = spc ->
  0 <= np_random w0 (np_random_pos w0) < 1 ->
  0 <= np_random w1 (np_random_pos w1) < 1 ->
  exists j k,
    fst ((W <- sampling_weights dim d i ;;
          select_positive W (b * spc) (b * spc + spc) i) w0) = Ok j /\
    fst ((W <- sampling_weights dim d i ;;
          select_negative W n (b * spc) (b * spc + spc)) w1) = Ok k /\
    (b * spc <= j < b * spc + spc)%nat /\ j <> i /\
    (0 <= k < n)%nat /\ ~ (b * spc <= k < b * spc + spc)%nat.
Proof.
  intros Hspc Hn Hm Hd Hb Hi Hs Hx0 Hx1.
  destruct (select_positive_run (lambda_rev (self w0)) dim d i (b * spc) spc w0)
    as (Hp & Hj1 & Hj2); [lia|lia|nia|exact Hx0|].
  destruct (select_negative_run (lambda_rev (self w1)) dim d i (b * spc) spc w1)
    as (Hq & Hk1 & Hk2); [exact Hs|lia|lia|nia|nia|exact Hx1|].
  eexists _, _.
  rewrite (bind_ok _ _ _ _ _ (sampling_weights_run dim d i w0 ltac:(nia))).
  rewrite (bind_ok _ _ _ _ _ (sampling_weights_run dim d i w1 ltac:(nia))).
  rewrite <- Hd at 1. rewrite Hp, Hq. rewrite Hd in Hk1.
  repeat split; try assumption; try apply Hj1. lia.
Qed.

Lemma sampled_indices_in_range_witness :
  exists j k,
    fst ((W <- sampling_weights 1 [0; 0; 1; 1] 2 ;;
          select_positive W (1 * 2) (1 * 2 + 2) 2) world_ex) = Ok j /\
    fst ((W <- sampling_weights 1 [0; 0; 1; 1] 2 ;;
          select_negative W 4 (1 * 2) (1 * 2 + 2)) world_ex) = Ok k /\
    (1 * 2 <= j < 1 * 2 + 2)%nat /\ j <> 2%nat /\
    (0 <= k < 4)%nat /\ ~ (1 * 2 <= k < 1 * 2 + 2)%nat.
Proof.
  apply (sampled_indices_in_range 4 2 2 1 [0; 0; 1; 1] 1 2 world_ex world_ex);
    try reflexivity; try lia; apply world_ex_draws.
Defined.

(** ** C2: the metric-learning term *)

(** C2: on a well-formed batch of [n = m * spc] embeddings, [m >= 2],
    [spc >= 2] samples per class and draws in [0, 1), [mb_loss] returns
    (1/n) times the sum over the samples [i] of
    max(alpha + (D[i][j_i] - beta), 0) + max(alpha - (D[i][k_i] - beta), 0)
    where [D] is the stored distance matrix, [j_i] is what the selection
    of the positive pair returns for sample [i] on the draw number [2i] of
    the call and [k_i] what the selection of the negative pair returns on
    the draw number [2i + 1]. *)
Theorem mb_loss_is_mean_of_hinges net y w pe n dim spc m :
  net !! 1%nat = Some pe ->
  shape pe = [n; dim] ->
  well_formed pe ->
  spc_of (self w) = spc ->
  (2 <= spc)%nat ->
  n = (m * spc)%nat ->
  (2 <= m)%nat ->
  (forall k, 0 <= np_random w k < 1) ->
  let D := clamped_sqrt (squared_distances n dim (tensor_rows n dim pe)) in
  let alpha := mb_loss_alpha (model (self w)) in
  let beta := mb_loss_beta (model (self w)) in
  let p0 := np_random_pos w in
  exists js ks : nat -> nat,
    (forall i w0,
        (i < n)%nat ->
        lambda_rev (self w0) = lambda_rev (self w) ->
        spc_of (self w0) = spc ->
        np_random w0 = np_random w ->
        let i_start := block_start spc i in
        (np_random_pos w0 = (p0 + 2 * i)%nat ->
         fst ((W <- sampling_weights dim (nth i D []) i ;;
               select_positive W i_start (i_start + spc) i) w0)
           = Ok (js i)) /\
        (np_random_pos w0 = S (p0 + 2 * i) ->
         fst ((W <- sampling_weights dim (nth i D []) i ;;
               select_negative W n i_start (i_start + spc)) w0)
           = Ok (ks i))) /\
    d_ij (self (snd (mb_loss net y w))) = Some D /\
    fst (mb_loss net y w) =
      Ok (1 / INR n *
          np_sum (map (fun i =>
                         Rmax (alpha + (entry D i (js i) - beta)) 0 +
                         Rmax (alpha - (entry D i (ks i) - beta)) 0)
                      (seq 0 n))).
Proof.
  intros Hnet Hshape Hwf Hs Hspc Hn Hm Hu D alpha beta p0.
  exists (positive_of (config_of w) dim spc D (np_random w) p0),
         (negative_of (config_of w) dim spc D (np_random w) p0).
  destruct (distances_shape n dim (tensor_rows n dim pe)) as [HD HDrows];
    [apply length_tensor_rows|now apply tensor_rows_lengths|].
  fold D in HD, HDrows.
  split; [|split].
  - intros i w0 Hi Hlr Hs0 Hr0 i_start.
    assert (Hrow : length (nth i D []) = n).
    { rewrite Forall_forall in HDrows. apply HDrows.
      apply list_elem_of_In, nth_In. lia. }
    destruct (block_start_bounds spc m i) as [Hb1 Hb2]; [lia..|].
    fold i_start in Hb1, Hb2.
    destruct (selection_run dim (nth i D []) i i_start spc w0)
      as (Hp & Hq & _); [lia|lia|lia|nia|exact Hs0| |].
    { rewrite Hr0. apply Hu. }
    rewrite Hrow in Hq. rewrite Hp, Hq. simpl fst.
    rewrite Hlr, Hr0.
    split; intros ->; reflexivity.
  - apply mb_loss_stores_distances; [exact Hnet|exact Hshape|nia].
  - destruct (mb_loss_run net y w pe n dim spc m Hnet Hshape Hwf Hs Hspc
                Hn Hm Hu) as (w' & -> & _).
    simpl fst. f_equal. fold D p0.
    unfold Rdiv. rewrite Rmult_1_l. apply Rmult_comm.
Qed.

Lemma mb_loss_is_mean_of_hinges_witness :
  exists v, fst (mb_loss net_ex [3; 3; 1; 1]%Z world_ex) = Ok v.
Proof.
  destruct (mb_loss_is_mean_of_hinges net_ex [3; 3; 1; 1]%Z world_ex
              {| shape := [4; 1]%nat; storage := [0; 0; 1; 1] |} 4 1 2 2
              eq_refl eq_refl net_ex_well_formed eq_refl
              (le_n 2) eq_refl (le_n 2) world_ex_draws)
    as (js & ks & _ & _ & H).
  eexists. exact H.
Defined.

(** ** C6: the shape of the batch *)

(** C6, as stated, fails: a two-dimensional batch is not enough for
    [mb_loss] to proceed without error.  With two samples per class, the
    batch of one embedding is rejected by [np.random.choice] when the
    first positive pair is sampled, and in the empty batch of shape
    (0, 1) the read of the first embedding is out of range. *)
Lemma mb_loss_2d_counterexample :
  fst (mb_loss [ {| shape := [1; 3]%nat; storage := [0; 0; 0] |};
                 {| shape := [1; 1]%nat; storage := [0] |} ]
               [3%Z] world_ex) = Raise ValueError /\
  fst (mb_loss [ {| shape := [0; 3]%nat; storage := [] |};
                 {| shape := [0; 1]%nat; storage := [] |} ]
               [] world_ex) = Raise IndexError.
Proof.
  split.
  - apply (mb_loss_small_batch _ _ _ {| shape := [1; 1]%nat; storage := [0] |}
             1 1); [reflexivity|reflexivity|].
    change (1 <= 1 < 2)%nat. lia.
  - apply (mb_loss_empty _ _ _ {| shape := [0; 1]%nat; storage := [] |}
             [1%nat]); reflexivity.
Qed.

(** C6, amended: [mb_loss] requires its embedding input to be
    two-dimensional, any other shape raises an exception; and on a
    well-formed two-dimensional batch of [n = m * spc] embeddings with
    [m >= 2], [spc >= 2] samples per class and draws in [0, 1), the
    distance matrix, the sampling and all the indexing go through and
    [mb_loss] returns a value. *)
Theorem mb_loss_runs_on_class_blocks net y w pe :
  net !! 1%nat = Some pe ->
  (length (shape pe) <> 2%nat -> exists e, fst (mb_loss net y w) = Raise e) /\
  (forall n dim spc m,
      shape pe = [n; dim] ->
      well_formed pe ->
      spc_of (self w) = spc ->
      (2 <= spc)%nat ->
      n = (m * spc)%nat ->
      (2 <= m)%nat ->
      (forall k, 0 <= np_random w k < 1) ->
      exists v, fst (mb_loss net y w) = Ok v).
Proof.
  intros Hnet. split.
  - now apply mb_loss_not_2d.
  - intros n dim spc m Hshape Hwf Hs Hspc Hn Hm Hu.
    destruct (mb_loss_run net y w pe n dim spc m Hnet Hshape Hwf Hs Hspc
                Hn Hm Hu) as (w' & -> & _).
    eexists. reflexivity.
Qed.

Lemma mb_loss_runs_on_class_blocks_witness :
  exists v, fst (mb_loss net_ex [] world_ex) = Ok v.
Proof.
  exact (proj2 (mb_loss_runs_on_class_blocks net_ex [] world_ex
                  {| shape := [4; 1]%nat; storage := [0; 0; 1; 1] |} eq_refl)
               4%nat 1%nat 2%nat 2%nat eq_refl net_ex_well_formed eq_refl
               (le_n 2) eq_refl (le_n 2) world_ex_draws).
Defined.

(** ** C9: the counters *)

(** C9: after every call of [mb_loss] that returns, on a batch of [n]
    embeddings with [n] a positive multiple of the samples per class
    [spc], the stored counters satisfy
    [true_pos + false_neg = spc] and [true_neg + false_pos = n - spc]. *)
Theorem counters_add_up net y w v w' pe n dim m :
  mb_loss net y w = (Ok v, w') ->
  net !! 1%nat = Some pe ->
  shape pe = [n; dim] ->
  n = (m * spc_of (self w))%nat ->
  (1 <= m)%nat ->
  exists tp tn fp fn,
    true_pos (self w') = Some tp /\
    true_neg (self w') = Some tn /\
    false_pos (self w') = Some fp /\
    false_neg (self w') = Some fn /\
    tp + fn = INR (spc_of (self w)) /\
    tn + fp = INR n - INR (spc_of (self w)).
Proof.
  intros Hrun Hnet Hshape Hn Hm.
  destruct (mb_loss_counts net y w v w' pe n dim m Hrun Hnet Hshape Hn Hm)
    as (tp & tn & fp & fn & Hc & Hin & Hout).
  unfold counters in Hc. injection Hc as Htp Htn Hfp Hfn.
  exists tp, tn, fp, fn. repeat split; assumption.
Qed.

Lemma counters_add_up_witness :
  exists tp tn fp fn,
    true_pos (self (snd (mb_loss net_ex [] world_ex))) = Some tp /\
    true_neg (self (snd (mb_loss net_ex [] world_ex))) = Some tn /\
    false_pos (self (snd (mb_loss net_ex [] world_ex))) = Some fp /\
    false_neg (self (snd (mb_loss net_ex [] world_ex))) = Some fn /\
    tp + fn = INR 2 /\
    tn + fp = INR 4 - INR 2.
Proof.
  destruct (mb_loss_run net_ex [] world_ex
              {| shape := [4; 1]%nat; storage := [0; 0; 1; 1] |} 4 1 2 2
              eq_refl eq_refl net_ex_well_formed eq_refl
              (le_n 2) eq_refl (le_n 2) world_ex_draws)
    as (w' & Hrun & _).
  rewrite Hrun.
  exact (counters_add_up net_ex [] world_ex _ w'
           {| shape := [4; 1]%nat; storage := [0; 0; 1; 1] |} 4 1 2
           Hrun eq_refl eq_refl eq_refl (le_S 1 1 (le_n 1))).
Defined.

(** * Further properties of the code *)

(** ** DummyTimer *)

(** X1: a block guarded by the watch of a [DummyTimer] behaves as the
    block alone: it returns what the block returns, raises what the block
    raises (the watch never swallows an exception) and leaves the world
    the block leaves; [start] and [end] change nothing. *)
Theorem dummy_timer_is_transparent {A} name (body : M A) w :
  with_block (Dummy.watch name) body w =
    match body w with
    | (Ok a, w') => (Ok (Some a), w')
    | (Raise e, w') => (Raise e, w')
    end /\
  fst (with_block (Dummy.watch name) body w) <> Ok None /\
  snd (with_block (Dummy.watch name) body w)
    = snd (watch DummyTimer name body w) /\
  Dummy.start name w = (Ok tt, w) /\
  Dummy.end_ name w = (Ok tt, w).
Proof.
  unfold with_block, Dummy.watch, Dummy.TimerWatch, watch. simpl.
  destruct (body w) as [[a|e] w']; simpl; repeat split; discriminate.
Qed.

(** ** Construction *)

(** X2: [MarginBaseLoss(...)] fails with [AssertionError] when there are
    fewer than two samples per class, else with [ZeroDivisionError] when
    [lambda_] is zero, and succeeds otherwise; the object it builds holds
    the classes sorted, [lambda_rev * lambda_ = 1], a [DummyTimer], and
    none of the attributes that the methods assign. *)
Theorem init_outcome m cl dev p out :
  match fst (__init__ m cl dev p out) with
  | Raise e =>
      ((samples_per_class (data p) < 2)%nat /\ e = AssertionError) \/
      ((2 <= samples_per_class (data p))%nat /\
       lambda_ (distance_weighted_sampling p) = 0 /\ e = ZeroDivisionError)
  | Ok o =>
      (2 <= samples_per_class (data p))%nat /\
      lambda_ (distance_weighted_sampling p) <> 0 /\
      model o = m /\ device o = dev /\ params o = p /\
      StronglySorted Z.le (classes o) /\ classes o ≡ₚ cl /\
      lambda_rev o * lambda_ (distance_weighted_sampling p) = 1 /\
      timer o = DummyTimer /\
      l2_loss_val o = None /\ d_ij o = None /\ mb_loss_val o = None /\
      true_pos o = None /\ true_neg o = None /\ false_pos o = None /\
      false_neg o = None /\ loss_val o = None
  end.
Proof.
  unfold __init__.
  destruct (2 <=? samples_per_class (data p))%nat eqn:E; simpl.
  - apply Nat.leb_le in E.
    destruct (decide (lambda_ (distance_weighted_sampling p) = 0)) as [H|H];
      simpl.
    + right. auto.
    + repeat split; try reflexivity; auto.
      * apply StronglySorted_merge_sort; apply _.
      * apply merge_sort_Permutation.
      * field. exact H.
  - apply Nat.leb_gt in E. left. auto.
Qed.

(** X3: on an object that was just built, every [last_...] getter raises
    [AttributeError] and leaves the object as it is. *)
Theorem getters_before_first_call m cl dev p out o out' net y w :
  __init__ m cl dev p out = (Ok o, out') ->
  self w = o ->
  last_l2_loss net y w = (Raise AttributeError, w) /\
  last_mb_loss net y w = (Raise AttributeError, w) /\
  last_false_pos net y w = (Raise AttributeError, w) /\
  last_false_neg net y w = (Raise AttributeError, w) /\
  last_true_pos net y w = (Raise AttributeError, w) /\
  last_true_neg net y w = (Raise AttributeError, w).
Proof.
  intros Hinit Hw. unfold __init__ in Hinit.
  destruct (negb _); [discriminate|].
  destruct (decide _); [discriminate|].
  injection Hinit as <- _.
  unfold last_l2_loss, last_mb_loss, last_false_pos, last_false_neg,
    last_true_pos, last_true_neg, getattr.
  rewrite Hw. simpl. repeat split.
Qed.

Lemma getters_before_first_call_witness :
  last_mb_loss net_ex [] world_ex = (Raise AttributeError, world_ex).
Proof.
  exact (proj1 (proj2 (getters_before_first_call model_ex [3; 1; 2]%Z cpu
                         params_ex [] obj_ex _ net_ex [] world_ex
                         init_ex eq_refl))).
Defined.

(** X4: whatever the list of classes given at construction, repeated
    entries included, a label of the list gets as id a position of the
    sorted list that holds it (the last one), so ids are below the number
    of classes and two labels with the same id are equal; a label that is
    not in the list gets the sentinel. *)
Theorem class_ids_are_positions m cl dev p out o out' w c :
  __init__ m cl dev p out = (Ok o, out') ->
  classes_dict (self w) = classes_dict o ->
  (c ∈ cl ->
     exists i,
       fst (classes_to_ids [c] ignore_index w) = Ok [Z.of_nat i] /\
       classes o !! i = Some c /\
       (i < length cl)%nat /\
       (forall j, classes o !! j = Some c -> (j <= i)%nat) /\
       (forall c', fst (classes_to_ids [c'] ignore_index w) = Ok [Z.of_nat i]
                   -> c' = c)) /\
  (c ∉ cl -> fst (classes_to_ids [c] ignore_index w) = Ok [ignore_index]).
Proof.
  intros Hinit Hdict. unfold __init__ in Hinit.
  destruct (negb _); [discriminate|].
  destruct (decide _); [discriminate|].
  injection Hinit as <- _. simpl in Hdict. simpl classes.
  assert (Hp : merge_sort Z.le cl ≡ₚ cl) by apply merge_sort_Permutation.
  rewrite classes_to_ids_eq. simpl. rewrite Hdict.
  pose proof (classes_dict_lookup_last (merge_sort Z.le cl) c) as Hc.
  split.
  - intros Hin.
    destruct (foldl _ _ _ !! c) as [i|] eqn:E;
      [|exfalso; apply Hc; now rewrite Hp].
    destruct Hc as [Hi Hlast]. exists i.
    split; [reflexivity|]. split; [exact Hi|].
    split; [apply lookup_lt_Some in Hi; now rewrite Hp in Hi|].
    split; [exact Hlast|].
    intros c' Hc'. rewrite ?classes_to_ids_eq in Hc'. simpl in Hc'.
    rewrite ?Hdict in Hc'.
    pose proof (classes_dict_lookup_last (merge_sort Z.le cl) c') as Hl.
    destruct (foldl _ _ _ !! c') as [i'|].
    + destruct Hl as [Hi' _]. injection Hc' as Hii.
      apply Nat2Z.inj in Hii. subst i'. congruence.
    + injection Hc' as Hii. unfold ignore_index in Hii. lia.
  - intros Hnin.
    destruct (foldl _ _ _ !! c) as [i|] eqn:E; [|reflexivity].
    destruct Hc as [Hi _]. exfalso. apply Hnin. rewrite <- Hp.
    eapply list_elem_of_lookup_2; eauto.
Qed.

Lemma class_ids_are_positions_witness :
  fst (classes_to_ids [7%Z] ignore_index world_ex) = Ok [ignore_index].
Proof.
  refine (proj2 (class_ids_are_positions model_ex [3; 1; 2]%Z cpu params_ex []
                   obj_ex _ world_ex 7%Z init_ex eq_refl) _).
  rewrite !elem_of_cons, elem_of_nil. intros [H|[H|[H|H]]];
    discriminate || exact H.
Defined.

(** ** What the methods leave alone *)

(** X5: no call of a method, whether it returns or raises, changes the
    model, the device, the parameters, the classes, the class dictionary
    or [lambda_rev]; the timer is changed by [set_timer] only, which sets
    it to its argument. *)
Theorem calls_keep_construction c w :
  fixed_part (run_call c w) = fixed_part w /\
  timer (self (run_call c w)) =
    match c with
    | Call_set_timer t => t
    | _ => timer (self w)
    end.
Proof.
  assert (H : forall A (f : M A),
             preserves (fun w => (fixed_part w, timer (self w))) f ->
             fixed_part (snd (f w)) = fixed_part w /\
             timer (self (snd (f w))) = timer (self w)).
  { intros A f Hf. specialize (Hf w). cbv beta in Hf.
    now apply pair_equal_spec in Hf. }
  destruct c; simpl;
    first [ apply H;
            first [ apply l2_loss_fixed | apply mb_loss_fixed
                  | apply loss_fixed | apply preserves_getattr
                  | apply preserves_classes_to_ids ]
          | split; reflexivity ].
Qed.

(** ** The classification term *)

(** X6: a call of [l2_loss] that raises leaves the object and the rest of
    the world exactly as they were; a call that returns [v] changes the
    attribute [l2_loss_val] only, to [v], so that [last_l2_loss] returns
    [v] afterwards, whatever its arguments. *)
Theorem l2_loss_effect net y net' y' w :
  match l2_loss net y w with
  | (Ok v, w') =>
      w' = with_self (set_l2_loss_val v (self w)) w /\
      last_l2_loss net' y' w' = (Ok v, w')
  | (Raise e, w') => w' = w
  end.
Proof.
  pose proof (l2_loss_run_shape net y w) as H.
  destruct (l2_loss net y w) as [[v|e] w']; [|exact H].
  destruct H as [-> _]. split; reflexivity.
Qed.

(** X7: on well-formed logits the classification term is never negative:
    a finite value returned by [l2_loss] is at least 0. *)
Theorem l2_loss_nonneg net y w v w' input :
  l2_loss net y w = (Ok (Fin v), w') ->
  net !! 0%nat = Some input ->
  well_formed input ->
  0 <= v.
Proof. apply l2_loss_nonneg_run. Qed.

Lemma l2_loss_nonneg_witness :
  exists v w',
    l2_loss net_ex [3; 3; 7; 1]%Z world_ex = (Ok (Fin v), w') /\ 0 <= v.
Proof.
  destruct l2_loss_ex_run as (v & w' & H).
  exists v, w'. split; [exact H|].
  exact (l2_loss_nonneg net_ex [3; 3; 7; 1]%Z world_ex v w' _ H eq_refl
           eq_refl).
Defined.

(** X8: when the logits have one row per label and no label of the batch
    is among the classes given at construction, [l2_loss] returns [nan];
    and then [loss] returns [nan] whenever [mb_loss] returns. *)
Theorem l2_loss_nan_without_known_label m cl dev p out o out' net y w input C :
  __init__ m cl dev p out = (Ok o, out') ->
  classes_dict (self w) = classes_dict o ->
  net !! 0%nat = Some input ->
  shape input = [length y; C] ->
  Forall (fun c => c ∉ cl) y ->
  fst (l2_loss net y w) = Ok NaN /\
  (forall b w', mb_loss net y (snd (l2_loss net y w)) = (Ok b, w') ->
                fst (loss net y w) = Ok NaN).
Proof.
  intros Hinit Hdict Hnet Hshape Hy. unfold __init__ in Hinit.
  destruct (negb _); [discriminate|].
  destruct (decide _); [discriminate|].
  injection Hinit as <- _. simpl in Hdict.
  assert (Hp : merge_sort Z.le cl ≡ₚ cl) by apply merge_sort_Permutation.
  assert (Hrun : l2_loss net y w =
                 (Ok NaN, with_self (set_l2_loss_val NaN (self w)) w)).
  { unfold l2_loss, watch. rewrite bind_attr.
    unfold getitem. rewrite Hnet.
    rewrite (bind_ok _ _ w input w) by reflexivity.
    rewrite (bind_ok _ _ _ _ _ (classes_to_ids_eq y ignore_index w)).
    unfold CrossEntropyLoss. rewrite Hshape.
    rewrite length_map, Nat.eqb_refl. simpl negb. cbv iota.
    rewrite ce_terms_all_ignored; [reflexivity|].
    apply Forall_map. eapply Forall_impl; [exact Hy|].
    intros c Hc. simpl. rewrite Hdict.
    pose proof (classes_dict_lookup_last (merge_sort Z.le cl) c) as Hl.
    destruct (foldl _ _ _ !! c) as [i|]; [|reflexivity].
    destruct Hl as [Hi _]. exfalso. apply Hc. rewrite <- Hp.
    eapply list_elem_of_lookup_2; eauto. }
  rewrite Hrun. split; [reflexivity|].
  intros b w' Hmb. simpl in Hmb. unfold loss.
  rewrite (bind_ok _ _ _ _ _ Hrun), (bind_ok _ _ _ _ _ Hmb). reflexivity.
Qed.

Lemma l2_loss_nan_without_known_label_witness :
  fst (l2_loss net_ex [7; 8; 9; 7]%Z world_ex) = Ok NaN.
Proof.
  refine (proj1 (l2_loss_nan_without_known_label model_ex [3; 1; 2]%Z cpu
                   params_ex [] obj_ex _ net_ex [7; 8; 9; 7]%Z world_ex
                   _ 3%nat init_ex eq_refl eq_refl eq_refl _)).
  repeat constructor; rewrite !elem_of_cons, elem_of_nil;
    intros [H|[H|[H|H]]]; discriminate || exact H.
Defined.

(** ** The metric-learning term and the sum *)

(** X9: whenever [mb_loss] returns, the value is at least 0 and it is the
    one that [last_mb_loss] returns afterwards, whatever its arguments. *)
Theorem mb_loss_nonneg_and_stored net y net' y' w v w' :
  mb_loss net y w = (Ok v, w') ->
  0 <= v /\ last_mb_loss net' y' w' = (Ok v, w').
Proof.
  intros Hrun. split; [eapply mb_loss_nonneg_run; eauto|].
  unfold last_mb_loss, getattr.
  now rewrite (mb_loss_returns_attr net y _ _ _ Hrun).
Qed.

Lemma mb_loss_nonneg_and_stored_witness :
  exists v w', mb_loss net_ex [] world_ex = (Ok v, w') /\ 0 <= v.
Proof.
  destruct (mb_loss_ex_run [] world_ex eq_refl world_ex_draws)
    as (v & w' & H).
  exists v, w'. split; [exact H|].
  exact (proj1 (mb_loss_nonneg_and_stored net_ex [] net_ex [] world_ex v w' H)).
Defined.

(** X10: after [loss] has returned [v], the getters [last_l2_loss] and
    [last_mb_loss] return the two terms [a] and [b] of that call, with
    [v = a + b] and [b >= 0]; on well-formed logits a finite [v] is at
    least 0. *)
Theorem loss_terms_after_call net y net' y' w v w' :
  loss net y w = (Ok v, w') ->
  exists a b,
    last_l2_loss net' y' w' = (Ok a, w') /\
    last_mb_loss net' y' w' = (Ok b, w') /\
    v = fadd a (Fin b) /\
    0 <= b /\
    (forall input x,
        net !! 0%nat = Some input -> well_formed input -> v = Fin x ->
        0 <= x).
Proof.
  intros Hrun. unfold loss in Hrun.
  apply bind_inv in Hrun as (a & w1 & H1 & Hrun).
  apply bind_inv in Hrun as (b & w2 & H2 & Hrun).
  unfold bind, setattr, getattr in Hrun. simpl in Hrun.
  injection Hrun as <- <-.
  pose proof (l2_loss_returns_attr net y _ _ _ H1) as Ha.
  pose proof (mb_loss_returns_attr net y _ _ _ H2) as Hb.
  pose proof (mb_loss_stored_l2 net y w1) as Hl.
  rewrite H2 in Hl. unfold stored_l2 in Hl. simpl in Hl. rewrite Ha in Hl.
  pose proof (mb_loss_nonneg_run net y w1 b w2 H2) as Hb0.
  exists a, b. unfold last_l2_loss, last_mb_loss, getattr. simpl.
  rewrite Hl, Hb. repeat split; try reflexivity; [exact Hb0|].
  intros input x Hnet Hwf Hx. destruct a as [va|]; [|discriminate].
  injection Hx as <-.
  pose proof (l2_loss_nonneg_run net y w va w1 input H1 Hnet Hwf). lra.
Qed.

Lemma loss_terms_after_call_witness :
  exists v w' a b,
    loss net_ex [3; 3; 7; 1]%Z world_ex = (Ok v, w') /\
    last_l2_loss [] [] w' = (Ok a, w') /\
    last_mb_loss [] [] w' = (Ok b, w') /\
    v = fadd a (Fin b).
Proof.
  destruct loss_ex_run as (v & w' & H).
  destruct (loss_terms_after_call net_ex [3; 3; 7; 1]%Z [] [] world_ex v w' H)
    as (a & b & Ha & Hb & Hv & _).
  exists v, w', a, b. repeat split; assumption.
Defined.

(** ** Inputs that [mb_loss] rejects *)

(** X11: [mb_loss] rejects, before it has changed anything, a
    [net_output] without a second entry ([IndexError]), embeddings
    without a dimension ([TypeError]), an empty batch ([IndexError]) and
    one-dimensional embeddings ([IndexError]). *)
Theorem mb_loss_rejects_untouched net y w :
  (net !! 1%nat = None -> mb_loss net y w = (Raise IndexError, w)) /\
  (forall pe, net !! 1%nat = Some pe ->
     (shape pe = [] -> mb_loss net y w = (Raise TypeError, w)) /\
     (forall rest, shape pe = 0%nat :: rest ->
        mb_loss net y w = (Raise IndexError, w)) /\
     (forall n, shape pe = [n] -> mb_loss net y w = (Raise IndexError, w))).
Proof.
  split; [|intros pe Hnet; split; [|split]].
  - intros Hnet. unfold mb_loss, watch, getitem.
    rewrite bind_attr. now rewrite Hnet.
  - intros Hshape. unfold mb_loss, watch, getitem, len.
    rewrite bind_attr, Hnet. rewrite (bind_ok _ _ w pe w) by reflexivity.
    now rewrite Hshape.
  - intros rest Hshape. unfold mb_loss, watch, getitem, len, tensor_first.
    rewrite bind_attr, Hnet. rewrite (bind_ok _ _ w pe w) by reflexivity.
    now rewrite Hshape.
  - intros n Hshape. unfold mb_loss, watch, getitem, len, tensor_first.
    rewrite bind_attr, Hnet. rewrite (bind_ok _ _ w pe w) by reflexivity.
    rewrite Hshape. cbv zeta.
    rewrite (bind_ok _ _ w n w) by reflexivity.
    destruct (n =? 0)%nat; reflexivity.
Qed.

Lemma mb_loss_rejects_untouched_witness :
  mb_loss [ {| shape := [2; 3]%nat; storage := [0; 0; 0; 0; 0; 0] |} ] []
          world_ex = (Raise IndexError, world_ex).
Proof.
  exact (proj1 (mb_loss_rejects_untouched
                  [ {| shape := [2; 3]%nat; storage := [0; 0; 0; 0; 0; 0] |} ]
                  [] world_ex) eq_refl).
Defined.

(** X12: embeddings of three or more dimensions are rejected by the shape
    assertion only after the four counters have been reset: the call
    raises [AssertionError], leaves the counters at 0 and leaves [d_ij]
    and [mb_loss_val] as the previous call stored them. *)
Theorem mb_loss_assertion_after_reset net y w pe n dim r rest :
  net !! 1%nat = Some pe ->
  shape pe = n :: dim :: r :: rest ->
  n <> 0%nat ->
  fst (mb_loss net y w) = Raise AssertionError /\
  counters (snd (mb_loss net y w)) = (Some 0, Some 0, Some 0, Some 0) /\
  d_ij (self (snd (mb_loss net y w))) = d_ij (self w) /\
  mb_loss_val (self (snd (mb_loss net y w))) = mb_loss_val (self w).
Proof.
  intros Hnet Hshape Hn.
  assert (H : mb_loss net y w =
              (Raise AssertionError,
               with_self (set_false_neg 0 (set_false_pos 0 (set_true_neg 0
                            (set_true_pos 0 (self w))))) w)).
  { unfold mb_loss, watch, getitem, len, tensor_first.
    rewrite bind_attr, Hnet. rewrite (bind_ok _ _ w pe w) by reflexivity.
    rewrite Hshape. cbv zeta.
    rewrite (bind_ok _ _ w n w) by reflexivity.
    destruct (n =? 0)%nat eqn:E; [apply Nat.eqb_eq in E; contradiction|].
    reflexivity. }
  rewrite H. repeat split.
Qed.

Lemma mb_loss_assertion_after_reset_witness :
  fst (mb_loss [ {| shape := [1; 1]%nat; storage := [0] |};
                 {| shape := [1; 1; 1]%nat; storage := [0] |} ] [] world_ex)
  = Raise AssertionError.
Proof.
  exact (proj1 (mb_loss_assertion_after_reset
                  [ {| shape := [1; 1]%nat; storage := [0] |};
                    {| shape := [1; 1; 1]%nat; storage := [0] |} ]
                  [] world_ex
                  {| shape := [1; 1; 1]%nat; storage := [0] |} 1 1 1 []
                  eq_refl eq_refl ltac:(discriminate))).
Defined.

(** X13: a two-dimensional batch with no more samples than one class
    block holds is rejected with [ValueError]: with fewer samples the
    positive pair cannot be sampled, with exactly one block the negative
    pair has nothing to choose from. *)
Theorem mb_loss_needs_two_blocks net y w pe n dim :
  net !! 1%nat = Some pe ->
  shape pe = [n; dim] ->
  (2 <= spc_of (self w))%nat ->
  (1 <= n <= spc_of (self w))%nat ->
  0 <= np_random w (np_random_pos w) < 1 ->
  fst (mb_loss net y w) = Raise ValueError.
Proof.
  intros Hnet Hshape Hspc Hn Hx.
  destruct (decide (n = spc_of (self w))) as [E|E].
  - apply (mb_loss_single_block net y w pe n dim); auto. lia.
  - apply (mb_loss_small_batch net y w pe n dim); auto. lia.
Qed.

Lemma mb_loss_needs_two_blocks_witness :
  fst (mb_loss [ {| shape := [2; 3]%nat; storage := [0; 0; 0; 0; 0; 0] |};
                 {| shape := [2; 1]%nat; storage := [0; 1] |} ] [] world_ex)
  = Raise ValueError.
Proof.
  apply (mb_loss_needs_two_blocks
           [ {| shape := [2; 3]%nat; storage := [0; 0; 0; 0; 0; 0] |};
             {| shape := [2; 1]%nat; storage := [0; 1] |} ] [] world_ex
           {| shape := [2; 1]%nat; storage := [0; 1] |} 2 1 eq_refl eq_refl).
  - apply le_n.
  - split; [apply le_S, le_n | apply le_n].
  - apply world_ex_draws.
Defined.

(** ** The random generator *)

(** X14: a call of [mb_loss] on [m >= 2] class blocks of [spc >= 2]
    samples takes exactly two draws per sample from the generator, and so
    does a call of [loss] whose classification term returns. *)
Theorem mb_loss_takes_two_draws_per_sample net y w pe n dim spc m :
  net !! 1%nat = Some pe ->
  shape pe = [n; dim] ->
  well_formed pe ->
  spc_of (self w) = spc ->
  (2 <= spc)%nat ->
  n = (m * spc)%nat ->
  (2 <= m)%nat ->
  (forall k, 0 <= np_random w k < 1) ->
  np_random_pos (snd (mb_loss net y w)) = (np_random_pos w + 2 * n)%nat /\
  (forall a, fst (l2_loss net y w) = Ok a ->
     np_random_pos (snd (loss net y w)) = (np_random_pos w + 2 * n)%nat).
Proof.
  intros Hnet Hshape Hwf Hs Hspc Hn Hm Hu. split.
  - destruct (mb_loss_run net y w pe n dim spc m Hnet Hshape Hwf Hs Hspc
                Hn Hm Hu) as (w' & -> & Hpos). exact Hpos.
  - intros a Ha.
    pose proof (l2_loss_run_shape net y w) as H1.
    destruct (l2_loss net y w) as [[a'|e] w1] eqn:E1; [|discriminate].
    destruct H1 as [Hw1 _].
    destruct (mb_loss_run net y w1 pe n dim spc m Hnet Hshape Hwf)
      as (w2 & H2 & Hpos); try assumption.
    + now rewrite Hw1.
    + intros k. rewrite Hw1. apply Hu.
    + unfold loss.
      rewrite (bind_ok _ _ _ _ _ E1), (bind_ok _ _ _ _ _ H2).
      unfold bind, setattr, getattr. simpl. rewrite Hpos, Hw1. reflexivity.
Qed.

Lemma mb_loss_takes_two_draws_per_sample_witness :
  np_random_pos (snd (mb_loss net_ex [] world_ex)) = 8%nat.
Proof.
  exact (proj1 (mb_loss_takes_two_draws_per_sample net_ex [] world_ex
                  {| shape := [4; 1]%nat; storage := [0; 0; 1; 1] |} 4 1 2 2
                  eq_refl eq_refl net_ex_well_formed eq_refl
                  (le_n 2) eq_refl (le_n 2) world_ex_draws)).
Defined.

(** ** Distances and weights *)

(** X15: in exact arithmetic the clamp of line 68 is never active: the
    stored distance of two embeddings is the square root of their squared
    Euclidean distance plus 1e-8, and the distance of an embedding to
    itself is 1e-4. *)
Theorem distances_are_euclidean net y w pe n dim :
  net !! 1%nat = Some pe ->
  shape pe = [n; dim] ->
  well_formed pe ->
  n <> 0%nat ->
  exists D,
    d_ij (self (snd (mb_loss net y w))) = Some D /\
    forall i j, (i < n)%nat -> (j < n)%nat ->
      let e_i := nth i (tensor_rows n dim pe) [] in
      let e_j := nth j (tensor_rows n dim pe) [] in
      0 <= norm2 e_i + norm2 e_j - 2 * dot e_i e_j /\
      entry D i j = sqrt (sq_dist e_i e_j + 1e-8) /\
      entry D i i = 1e-4.
Proof.
  intros Hnet Hshape Hwf Hn.
  pose proof (length_tensor_rows n dim pe) as HE.
  pose proof (tensor_rows_lengths n dim pe Hshape Hwf) as Hrows.
  exists (clamped_sqrt (squared_distances n dim (tensor_rows n dim pe))).
  split; [now apply mb_loss_stores_distances|].
  intros i j Hi Hj e_i e_j.
  assert (Hlen : forall t, (t < n)%nat ->
            length (nth t (tensor_rows n dim pe) []) = dim).
  { intros t Ht. rewrite Forall_forall in Hrows. apply Hrows.
    apply list_elem_of_In, nth_In. lia. }
  assert (Hij : norm2 e_i + norm2 e_j - 2 * dot e_i e_j = sq_dist e_i e_j).
  { apply sq_dist_expand. unfold e_i, e_j. now rewrite !Hlen. }
  assert (Hii : norm2 e_i + norm2 e_i - 2 * dot e_i e_i = 0).
  { rewrite sq_dist_expand by reflexivity. apply sq_dist_self. }
  rewrite (distances_closed n dim _ HE Hrows).
  rewrite !(entry_map2
              (fun a b => sqrt (Rmax (norm2 a + norm2 b - 2 * dot a b) 0 + 1e-8))
              _ []) by lia.
  fold e_i e_j. rewrite Hij, Hii.
  pose proof (sq_dist_nonneg e_i e_j) as Hnn.
  split; [exact Hnn|]. split.
  - now rewrite Rmax_left by lra.
  - rewrite Rmax_left by lra. rewrite Rplus_0_l.
    replace 1e-8 with (1e-4 * 1e-4) by lra.
    apply sqrt_square. lra.
Qed.

Lemma distances_are_euclidean_witness :
  exists D, d_ij (self (snd (mb_loss net_ex [] world_ex))) = Some D /\
            entry D 1 1 = 1e-4.
Proof.
  destruct (distances_are_euclidean net_ex [] world_ex
              {| shape := [4; 1]%nat; storage := [0; 0; 1; 1] |} 4 1
              eq_refl eq_refl net_ex_well_formed ltac:(discriminate))
    as (D & HD & H).
  exists D. split; [exact HD|].
  exact (proj2 (proj2 (H 1%nat 1%nat ltac:(repeat constructor)
                         ltac:(repeat constructor)))).
Defined.

(** X16: for an object built with a positive [lambda_], the sampling
    weights of lines 74-76 for sample [i] are one per distance, 0 for the
    sample itself and, for every other sample, positive and at most
    [lambda_]; an index [i] outside the row is an [IndexError]. *)
Theorem sampling_weights_bounded dim d i w lam :
  lambda_rev (self w) = 1 / lam ->
  0 < lam ->
  ((i < length d)%nat ->
     exists W,
       sampling_weights dim d i w = (Ok W, w) /\
       length W = length d /\
       W !! i = Some 0 /\
       forall t x, t <> i -> W !! t = Some x -> 0 < x <= lam) /\
  ((length d <= i)%nat ->
     sampling_weights dim d i w = (Raise IndexError, w)).
Proof.
  intros Hlr Hlam. split.
  - intros Hi. exists (weights_row (lambda_rev (self w)) dim d i).
    split; [now apply sampling_weights_run|].
    split; [apply length_weights_row|].
    rewrite weights_row_eq. split.
    + apply list_lookup_insert_eq. now rewrite length_map.
    + intros t x Hne Hx. rewrite list_lookup_insert_ne in Hx by auto.
      apply list_elem_of_lookup_2, list_elem_of_In, in_map_iff in Hx
        as (z & <- & _).
      split; [apply weight_pos|].
      rewrite Hlr.
      set (pr := exp (- (z - 1.4142135623730951) ^ 2 * INR dim)).
      assert (Hinv : 0 < 1 / lam) by (apply Rdiv_lt_0_compat; lra).
      pose proof (Rmax_r pr (1 / lam)) as Hm.
      apply Rmult_le_reg_r with (r := Rmax pr (1 / lam)); [lra|].
      unfold Rdiv at 1. rewrite Rmult_1_l, Rinv_l by lra.
      apply Rle_trans with (lam * (1 / lam)).
      * right. field. lra.
      * apply Rmult_le_compat_l; lra.
  - intros Hi. unfold sampling_weights, bind, attr, setitem.
    rewrite !length_map.
    destruct (i <? length d)%nat eqn:E; [|reflexivity].
    apply Nat.ltb_lt in E. lia.
Qed.

Lemma sampling_weights_bounded_witness :
  sampling_weights 1 [0; 0; 1; 1] 4 world_ex = (Raise IndexError, world_ex).
Proof.
  refine (proj2 (sampling_weights_bounded 1 [0; 0; 1; 1] 4 world_ex 1
                   eq_refl _) _).
  - lra.
  - apply le_n.
Defined.

(** ** The range of the counters *)

(** X17: after every call of [mb_loss] that returns, the four counters
    are assigned and none is negative; on a batch of [n] embeddings with
    [n] a positive multiple of the samples per class [spc], [true_pos] and
    [false_neg] are at most [spc] and [true_neg] and [false_pos] at most
    [n - spc]. *)
Theorem counters_in_range net y w v w' :
  mb_loss net y w = (Ok v, w') ->
  exists tp tn fp fn,
    counters w' = (Some tp, Some tn, Some fp, Some fn) /\
    0 <= tp /\ 0 <= tn /\ 0 <= fp /\ 0 <= fn /\
    forall pe n dim m,
      net !! 1%nat = Some pe -> shape pe = [n; dim] ->
      n = (m * spc_of (self w))%nat -> (1 <= m)%nat ->
      tp <= INR (spc_of (self w)) /\ fn <= INR (spc_of (self w)) /\
      tn <= INR n - INR (spc_of (self w)) /\
      fp <= INR n - INR (spc_of (self w)).
Proof.
  intros Hrun.
  destruct (mb_loss_nonneg_counters_run net y w v w' Hrun)
    as (tp & tn & fp & fn & Hc & Htp & Htn & Hfp & Hfn).
  exists tp, tn, fp, fn.
  split; [exact Hc|]. split; [exact Htp|]. split; [exact Htn|].
  split; [exact Hfp|]. split; [exact Hfn|].
  intros pe n dim m Hnet Hshape Hn Hm.
  destruct (mb_loss_counts net y w v w' pe n dim m Hrun Hnet Hshape Hn Hm)
    as (tp' & tn' & fp' & fn' & Hc' & Hin & Hout).
  rewrite Hc in Hc'. injection Hc' as <- <- <- <-.
  repeat split; lra.
Qed.

Lemma counters_in_range_witness :
  exists v w' tp tn fp fn,
    mb_loss net_ex [] world_ex = (Ok v, w') /\
    counters w' = (Some tp, Some tn, Some fp, Some fn) /\
    0 <= tp /\ 0 <= tn /\ 0 <= fp /\ 0 <= fn.
Proof.
  destruct (mb_loss_ex_run [] world_ex eq_refl world_ex_draws)
    as (v & w' & H).
  destruct (counters_in_range net_ex [] world_ex v w' H)
    as (tp & tn & fp & fn & Hc & Htp & Htn & Hfp & Hfn & _).
  exists v, w', tp, tn, fp, fn. repeat split; assumption.
Defined.

(** ** A call of [loss] that raises *)

(** X18: a call of [loss] that raises never assigns [loss_val].  Either
    the classification term raised, and then nothing at all has changed
    and no draw was taken, or it returned [a], which is stored in
    [l2_loss_val], and the exception is the one of [mb_loss]. *)
Theorem loss_failure net y w e w' :
  loss net y w = (Raise e, w') ->
  loss_val (self w') = loss_val (self w) /\
  ((l2_loss net y w = (Raise e, w) /\ w' = w) \/
   (exists a w1,
      l2_loss net y w = (Ok a, w1) /\
      mb_loss net y w1 = (Raise e, w') /\
      l2_loss_val (self w') = Some a)).
Proof.
  intros Hrun. unfold loss in Hrun. unfold bind at 1 in Hrun.
  pose proof (l2_loss_run_shape net y w) as H1.
  pose proof (l2_loss_stored_loss net y w) as Hl1.
  destruct (l2_loss net y w) as [[a|e1] w1] eqn:E1.
  - unfold bind at 1 in Hrun.
    pose proof (mb_loss_stored_loss net y w1) as Hl2.
    pose proof (mb_loss_stored_l2 net y w1) as Hs2.
    destruct (mb_loss net y w1) as [[b|e2] w2] eqn:E2.
    + unfold bind, setattr, getattr in Hrun. simpl in Hrun. discriminate.
    + injection Hrun as <- <-. simpl in Hl1, Hl2, Hs2.
      split; [congruence|]. right. exists a, w1.
      split; [reflexivity|]. split; [exact E2|].
      unfold stored_l2 in Hs2. rewrite Hs2.
      exact (l2_loss_returns_attr net y _ _ _ E1).
  - injection Hrun as <- <-. subst w1. split; [reflexivity|]. now left.
Qed.

Lemma loss_failure_witness :
  loss_val (self (snd (loss [] [] world_ex))) = loss_val (self world_ex).
Proof.
  exact (proj1 (loss_failure [] [] world_ex IndexError world_ex eq_refl)).
Defined.
